(** * amqp-client: a shallow embedding of the wire core

    The development follows the TypeScript sources of the client:
    - [proto/codec.ts]   : [BufferReader], [BufferWriter], frame helpers;
    - [proto/api.ts]     : the frame that every generated encoder of
                           variable size builds around its fields;
    - [lib/channel.ts]   : [UniqueId], [UniqueFactory], [ChannelAbstract],
                           [DecodeStream], [Connection], [ChannelChildAbstract];
    - [lib/consumer.ts]  : [ChannelConsume], [ConsumeStream].

    Numbers are [Z], a [Buffer] is a [list Z] of octets, a JavaScript [Map]
    is an insertion-ordered association list, exceptions are the [Err] branch
    of a result type, and the closures created by [call_api] live in an
    explicit store indexed by the identity of the [UniqueId] object they
    capture. *)

From Stdlib Require Import ZArith List String Ascii Bool Lia DecimalString Sorted Finite.
From stdpp Require Import base list.
Import ListNotations.
Local Open Scope Z_scope.
Set Warnings "-register-all".

(* ===================================================================== *)
(** * Part I: definitions                                                 *)
(* ===================================================================== *)

(** ** JavaScript built-ins used by the sources *)
Module Js.

(** [ToString] on integral numbers: decimal digits, a leading minus sign for
    negative values. *)
Definition ToString (n : Z) : string := NilZero.string_of_int (Z.to_int n).

(** [x < y] on strings: lexicographic on code units. *)
Definition string_lt (a b : string) : bool :=
  match String.compare a b with Lt => true | _ => false end.

(** [Array.prototype.sort()] without a comparator: elements are compared by
    their [ToString] images, and the sort is stable. [sort_insert] puts [x]
    in front of the first element that is not strictly smaller, so that
    [fold_right] keeps equal elements in their original order. *)
Fixpoint sort_insert {A} (str : A -> string) (x : A) (l : list A) : list A :=
  match l with
  | [] => [x]
  | y :: ys => if string_lt (str y) (str x) then y :: sort_insert str x ys
               else x :: l
  end.

Definition Array_sort {A} (str : A -> string) (l : list A) : list A :=
  fold_right (sort_insert str) [] l.

(** [ToString] of any plain object, a [UniqueId] in particular. *)
Definition object_string : string := "[object Object]".

(** The values that travel through the codec and the channels. A string is
    the sequence of its UTF-8 octets, a [Buffer] the list of its octets, a
    [Date] its time value in milliseconds, a number an integer (the codec
    paths that need a fraction are not interpreted: a number that is not
    an integer is only known by the 64 bits that hold it, [VFloat]). *)
Inductive value :=
| VUndefined
| VNull
| VBoolean (b : bool)
| VNumber (n : Z)
| VBigInt (n : Z)
| VString (s : string)
| VBuffer (octets : list Z)
| VDate (ms : Z)
| VFloat (bits : Z)
| VArray (items : list value)
| VObject (fields : list (string * value)).

(** [obj[key]] and [obj[key] = v] on an object held as the list of its own
    properties in creation order: assignment to an existing key keeps its
    place, and assignment to [__proto__] reaches the accessor of
    [Object.prototype] and creates no property. *)
Fixpoint object_get (fields : list (string * value)) (key : string) : option value :=
  match fields with
  | [] => None
  | (k, v) :: rest => if String.eqb k key then Some v else object_get rest key
  end.

Fixpoint object_define (fields : list (string * value)) (key : string) (v : value)
    : list (string * value) :=
  match fields with
  | [] => [(key, v)]
  | (k, v') :: rest =>
      if String.eqb k key then (key, v) :: rest
      else (k, v') :: object_define rest key v
  end.

Definition object_set (fields : list (string * value)) (key : string) (v : value)
    : list (string * value) :=
  if String.eqb key "__proto__" then fields else object_define fields key v.

(** [key in obj]. *)
Definition object_has (fields : list (string * value)) (key : string) : bool :=
  match object_get fields key with Some _ => true | None => false end.

(** Truthiness of a value in a condition. *)
Definition truthy (v : value) : bool :=
  match v with
  | VUndefined | VNull => false
  | VBoolean b => b
  | VNumber n | VBigInt n => negb (n =? 0)
  | VString s => negb (String.eqb s "")
  | VBuffer _ | VDate _ | VFloat _ | VArray _ | VObject _ => true
  end.

End Js.

(** ** Insertion-ordered [Map] *)
Module JsMap.
Section JsMap.
Context {V : Type}.

Definition t := list (Z * V).

Fixpoint get (m : list (Z * V)) (k : Z) : option V :=
  match m with
  | [] => None
  | (k', v) :: m' => if k' =? k then Some v else get m' k
  end.

(** [set] keeps the position of an existing key and appends a new one. *)
Fixpoint set (m : list (Z * V)) (k : Z) (v : V) : list (Z * V) :=
  match m with
  | [] => [(k, v)]
  | (k', v') :: m' => if k' =? k then (k, v) :: m' else (k', v') :: set m' k v
  end.

Fixpoint delete (m : list (Z * V)) (k : Z) : list (Z * V) :=
  match m with
  | [] => []
  | (k', v') :: m' => if k' =? k then m' else (k', v') :: delete m' k
  end.

Definition keys (m : list (Z * V)) : list Z := map fst m.
Definition values (m : list (Z * V)) : list V := map snd m.
Definition size (m : list (Z * V)) : Z := Z.of_nat (length m).
Definition has (m : list (Z * V)) (k : Z) : bool :=
  match get m k with Some _ => true | None => false end.

End JsMap.
End JsMap.

(** ** Errors ([lib/errors.ts], [proto/constant.ts]) *)
Module Errors.

Inductive ReplyHard :=
| connection_forced | invalid_path | frame_error | syntax_error
| command_invalid | channel_error | unexpected_frame | resource_error
| not_allowed | not_implemented | internal_error.

Definition REPLY_HARD_ERROR (r : ReplyHard) : Z :=
  match r with
  | connection_forced => 320 | invalid_path => 402 | frame_error => 501
  | syntax_error => 502 | command_invalid => 503 | channel_error => 504
  | unexpected_frame => 505 | resource_error => 506 | not_allowed => 530
  | not_implemented => 540 | internal_error => 541
  end.

Inductive ReplySoft :=
| content_too_large | no_route | no_consumers | access_refused
| not_found | resource_locked | precondition_failed.

Definition REPLY_SOFT_ERROR (r : ReplySoft) : Z :=
  match r with
  | content_too_large => 311 | no_route => 312 | no_consumers => 313
  | access_refused => 403 | not_found => 404 | resource_locked => 405
  | precondition_failed => 406
  end.

(** A thrown value: [CloseErrorBase] (with its subclasses [HardError] and
    [SoftError], which only translate the reply name into its code) or one
    of the built-in error classes. *)
Inductive Error :=
| CloseErrorBase (method_id reply_code : Z) (reply_text : string)
| RangeError (message : string)
| SyntaxError (message : string)
| TypeError (message : string)
| PlainError (message : string).

Definition HardError (method_id : Z) (reply : ReplyHard) (reply_text : string) : Error :=
  CloseErrorBase method_id (REPLY_HARD_ERROR reply) reply_text.

Definition SoftError (method_id : Z) (reply : ReplySoft) (reply_text : string) : Error :=
  CloseErrorBase method_id (REPLY_SOFT_ERROR reply) reply_text.

(** Result of a computation that may throw. *)
Inductive res (A : Type) :=
| Ok (a : A)
| Err (e : Error).
Arguments Ok {A} a.
Arguments Err {A} e.

Definition bind {A B} (m : res A) (f : A -> res B) : res B :=
  match m with Ok a => f a | Err e => Err e end.

End Errors.

(** [x ← m; k] sequences two computations and propagates a throw. *)
#[global] Instance res_bind : MBind Errors.res := fun A B f m => Errors.bind m f.
#[global] Instance res_ret : MRet Errors.res := @Errors.Ok.

(** ** [UniqueId] and [UniqueFactory] ([lib/channel.ts]) *)
Module UniqueId.

(** [time = Date.now()], [sequence = 0] at construction. *)
Record t := mk { time : Z; sequence : Z }.

Definition new (now : Z) : t := {| time := now; sequence := 0 |}.

Definition compare (this id : t) : Z :=
  let time_diff := time this - time id in
  if negb (time_diff =? 0) then time_diff
  else sequence this - sequence id.

End UniqueId.

Module UniqueFactory.

(** The factory object: its only field is [last_id], created when the module
    is loaded. *)
Record t := mk { last_id : UniqueId.t }.

(** [generate()], run at wall-clock time [now]. The method returns the new id
    and leaves the factory as it was: no statement assigns to [last_id]. *)
Definition generate (this : t) (now : Z) : UniqueId.t * t :=
  let id := UniqueId.new now in
  let id :=
    if UniqueId.time id =? UniqueId.time (last_id this)
    then {| UniqueId.time := UniqueId.time id;
            UniqueId.sequence := UniqueId.sequence (last_id this) + 1 |}
    else id in
  (id, this).

End UniqueFactory.

(** ** [Connection]: channel allocation ([lib/channel.ts]) *)
Module Connection.
Import Errors.

(** Method id of [channel.open] ([METHODS.channel_open]). *)
Definition channel_open_method : Z := 1310730.

(** The part of a [Connection] that [channel_open] reads and writes.
    [channels] is the [Map<number, ChannelChildAbstract>]; a channel object
    is represented by its identity, [next_instance] being the next one to
    be allocated by [new]. *)
Record t := mk {
  channels : list (Z * nat);
  channel_max : Z;
  opened : bool;
  destroyed : bool;
  blocked : bool;
  next_instance : nat
}.

(** [for (let i = last_id - 1; i > 0; i--) if (!this.channels.get(i)) { id = i; break; }],
    the loop variable being [Z.of_nat i]; [id] is the value the variable
    [id] keeps when no iteration assigns it. *)
Fixpoint find_free (chs : list (Z * nat)) (i : nat) (id : Z) : Z :=
  match i with
  | O => id
  | S i' =>
      if negb (JsMap.has chs (Z.of_nat i)) then Z.of_nat i
      else find_free chs i' id
  end.

(** The id computed by the callback of [process.nextTick] in [channel_open]. *)
Definition choose_id (chs : list (Z * nat)) : Z :=
  let ids := Js.Array_sort Js.ToString (JsMap.keys chs) in
  let id := 1 in
  if negb (Z.of_nat (length ids) =? 0) then
    let last_id := List.last ids 0 in
    if last_id >? Z.of_nat (length ids)
    then find_free chs (Z.to_nat (last_id - 1)) id
    else last_id + 1
  else id.

(** [channel_open]: the allocation step. It rejects on an inactive or full
    connection and otherwise creates the channel object, stores it under the
    chosen id and resolves with it. The [channel.open] round trip that
    follows does not touch [channels]. *)
Definition channel_open (this : t) : res (Z * t) :=
  if negb (opened this) || destroyed this || blocked this then
    Err (HardError channel_open_method channel_error "Connection inactive")
  else if JsMap.size (channels this) =? channel_max this then
    Err (HardError channel_open_method channel_error "Channel max limit exceeded")
  else
    let id := choose_id (channels this) in
    let result := next_instance this in
    Ok (id, {| channels := JsMap.set (channels this) id result;
               channel_max := channel_max this;
               opened := opened this;
               destroyed := destroyed this;
               blocked := blocked this;
               next_instance := S result |}).

(** [this.connection.channels.delete(this.channel)], the effect of a child
    channel's [destroy] on the connection. *)
Definition channel_destroyed (this : t) (channel : Z) : t :=
  {| channels := JsMap.delete (channels this) channel;
     channel_max := channel_max this;
     opened := opened this;
     destroyed := destroyed this;
     blocked := blocked this;
     next_instance := next_instance this |}.

(** [connection.blocked] / [connection.unblocked] handlers. *)
Definition set_blocked (this : t) (b : bool) : t :=
  {| channels := channels this;
     channel_max := channel_max this;
     opened := opened this;
     destroyed := destroyed this;
     blocked := b;
     next_instance := next_instance this |}.

(** A connection right after [open()] has negotiated [channel_max]. *)
Definition after_open (channel_max : Z) : t :=
  {| channels := []; channel_max := channel_max; opened := true;
     destroyed := false; blocked := false; next_instance := O |}.

(** States a connection goes through while channels are opened and
    destroyed and the broker blocks and unblocks it. *)
Inductive reachable (cm : Z) : t -> Prop :=
| reach_open : 0 <= cm -> reachable cm (after_open cm)
| reach_channel_open c id c' :
    reachable cm c -> channel_open c = Ok (id, c') -> reachable cm c'
| reach_channel_destroyed c k :
    reachable cm c -> reachable cm (channel_destroyed c k)
| reach_blocked c b :
    reachable cm c -> reachable cm (set_blocked c b).

(** [n] successful calls of [channel_open] in a row (the state is kept when
    a call rejects). *)
Fixpoint open_many (n : nat) (c : t) : t :=
  match n with
  | O => c
  | S n' =>
      let c1 := open_many n' c in
      match channel_open c1 with
      | Ok (_, c2) => c2
      | Err _ => c1
      end
  end.

End Connection.

(** ** Statements about channel ids used by the theorems *)
Module ChannelIds.

(** Largest element of a list of ids ([0] for the empty list). *)
Definition max_id (l : list Z) : Z := fold_right Z.max 0 l.

(** [id] is the smallest positive integer that is not in [S]. *)
Definition lowest_unused (S : list Z) (id : Z) : Prop :=
  1 <= id /\ ~ In id S /\ forall j, 1 <= j < id -> In j S.

(** [id] is the largest positive integer below [m] that is not in [S]. *)
Definition highest_unused_below (S : list Z) (m id : Z) : Prop :=
  1 <= id < m /\ ~ In id S /\ forall j, id < j < m -> In j S.

(** Every id of [1..m] is in [S]. *)
Definition no_gap (S : list Z) (m : Z) : Prop :=
  forall k, 1 <= k <= m -> In k S.

End ChannelIds.

(** ** [ChannelAbstract] and [ChannelChildAbstract] ([lib/channel.ts]) *)
Module Channel.
Import Errors.

Definition METHODS_connection_close : Z := 655410.
Definition METHODS_connection_close_ok : Z := 655411.
Definition METHODS_channel_close : Z := 1310760.
Definition METHODS_channel_close_ok : Z := 1310761.

(** [Response = { method_id, args }]. *)
Record Response := mkResponse { method_id : Z; args : Js.value }.

(** [ErrorToClose(error)]: the arguments of a [close] method. *)
Record CLOSE_TYPE := mkClose {
  close_method_id : Z; close_reply_code : Z; close_reply_text : string }.

Definition ErrorToClose (error : option Error) : CLOSE_TYPE :=
  match error with
  | Some (CloseErrorBase m c t) => mkClose m c t
  | Some (RangeError msg) | Some (SyntaxError msg) | Some (TypeError msg)
  | Some (PlainError msg) => mkClose 0 (REPLY_HARD_ERROR internal_error) msg
  | None => mkClose 0 200 "buy!"
  end.

(** The [send] closures handed to [call_api]: the close request issued by
    [call_close], or any other write on the socket. *)
Inductive Send :=
| SendClose (close_method : Z) (close : CLOSE_TYPE)
| SendOther (label : Z).

(** The closure [callback] created by one [call_api] call, together with
    the variables it captures: the [UniqueId] [id], the array [responses]
    and the flag [called]. A closure is named by its index in the store
    [waiters]; the same index names its [UniqueId] object. *)
Record Waiter := mkWaiter {
  w_id : UniqueId.t;
  w_responses : list Z;
  w_called : bool
}.

(** Work queued with [process.nextTick]. *)
Inductive Tick :=
| TickCallApi (responses : list Z) (send : Send)
| TickHandleMethod (method_id : Z) (args : Js.value).

(** What an observer of the channel sees. *)
Inductive Event :=
| Sent (send : Send)
| Called (w : nat) (outcome : res Response)
| Settled (w : nat) (outcome : res Response)
| Handled (method_id : Z) (args : Js.value)
| Fatal (message : string).

(** [Connection] (channel 0) or a [ChannelChildAbstract]. *)
Inductive Kind := IsConnection | IsChild.

(** [request_callbacks] is the [Map<number, Map<UniqueId, Callback>>]: the
    inner map is the list of the closures registered under a method id, in
    insertion order. [handlers] lists the method ids that have a handler. *)
Record t := mk {
  kind : Kind;
  channel : Z;
  request_callbacks : list (Z * list nat);
  handlers : list Z;
  destroyed : bool;
  closed : bool;
  socket_destroyed : bool;
  waiters : list Waiter;
  factory : UniqueFactory.t;
  ticks : list Tick;
  log : list Event
}.

Definition with_callbacks (this : t) (rc : list (Z * list nat)) : t :=
  mk (kind this) (channel this) rc (handlers this) (destroyed this)
     (closed this) (socket_destroyed this) (waiters this) (factory this)
     (ticks this) (log this).

Definition with_waiters (this : t) (ws : list Waiter) : t :=
  mk (kind this) (channel this) (request_callbacks this) (handlers this)
     (destroyed this) (closed this) (socket_destroyed this) ws (factory this)
     (ticks this) (log this).

Definition with_destroyed (this : t) (b : bool) : t :=
  mk (kind this) (channel this) (request_callbacks this) (handlers this) b
     (closed this) (socket_destroyed this) (waiters this) (factory this)
     (ticks this) (log this).

Definition with_factory (this : t) (f : UniqueFactory.t) : t :=
  mk (kind this) (channel this) (request_callbacks this) (handlers this)
     (destroyed this) (closed this) (socket_destroyed this) (waiters this) f
     (ticks this) (log this).

Definition with_ticks (this : t) (q : list Tick) : t :=
  mk (kind this) (channel this) (request_callbacks this) (handlers this)
     (destroyed this) (closed this) (socket_destroyed this) (waiters this)
     (factory this) q (log this).

Definition emit (this : t) (e : Event) : t :=
  mk (kind this) (channel this) (request_callbacks this) (handlers this)
     (destroyed this) (closed this) (socket_destroyed this) (waiters this)
     (factory this) (ticks this) (log this ++ [e]).

(** A fresh channel object. *)
Definition new (k : Kind) (channel : Z) (handlers : list Z)
    (factory : UniqueFactory.t) : t :=
  mk k channel [] handlers false false false [] factory [] [].

(** Inner map operations: [callbacks.set(id, callback)] with the [id] of
    closure [w], and [callbacks.delete(id)]. *)
Definition callbacks_set (callbacks : list nat) (w : nat) : list nat :=
  if existsb (Nat.eqb w) callbacks then callbacks else callbacks ++ [w].

Fixpoint callbacks_delete (callbacks : list nat) (w : nat) : list nat :=
  match callbacks with
  | [] => []
  | w' :: rest => if Nat.eqb w' w then rest else w' :: callbacks_delete rest w
  end.

(** [clear()]: remove the closure's id from the map of every method id in
    [responses]. Registration creates these maps before the callback can
    run; a missing map leaves the registry as it is. *)
Fixpoint clear (rc : list (Z * list nat)) (responses : list Z) (w : nat)
    : list (Z * list nat) :=
  match responses with
  | [] => rc
  | method_id :: rest =>
      let rc' := match JsMap.get rc method_id with
                 | Some callbacks =>
                     JsMap.set rc method_id (callbacks_delete callbacks w)
                 | None => rc
                 end in
      clear rc' rest w
  end.

Definition set_called (ws : list Waiter) (w : nat) : list Waiter :=
  match ws !! w with
  | Some x => <[w := mkWaiter (w_id x) (w_responses x) true]> ws
  | None => ws
  end.

(** [callback(error, result)] of closure [w]. Every invocation is logged;
    only the first one clears the registrations and settles the promise. *)
Definition callback (this : t) (w : nat) (outcome : res Response) : t :=
  let this := emit this (Called w outcome) in
  match waiters this !! w with
  | Some x =>
      if w_called x then this
      else
        let this := with_waiters this (set_called (waiters this) w) in
        let this := with_callbacks this
                      (clear (request_callbacks this) (w_responses x) w) in
        emit this (Settled w outcome)
  | None => this
  end.

(** The registration loop of [call_api]:
    [for (const method_id of responses) { ...; callbacks.set(id, callback); }]. *)
Fixpoint register (rc : list (Z * list nat)) (responses : list Z) (w : nat)
    : list (Z * list nat) :=
  match responses with
  | [] => rc
  | method_id :: rest =>
      let callbacks := match JsMap.get rc method_id with
                       | Some callbacks => callbacks
                       | None => []
                       end in
      register (JsMap.set rc method_id (callbacks_set callbacks w)) rest w
  end.

(** [call_api(responses, send)] up to its return: with no expected reply
    [send()] runs at once, otherwise the registration is queued. *)
Definition call_api (this : t) (responses : list Z) (send : Send) : t :=
  match responses with
  | [] => emit this (Sent send)
  | _ => with_ticks this (ticks this ++ [TickCallApi responses send])
  end.

(** The function [call_api] hands to [process.nextTick], run at wall-clock
    time [now]. *)
Definition call_api_tick (this : t) (responses : list Z) (send : Send)
    (now : Z) : t :=
  let (id, f) := UniqueFactory.generate (factory this) now in
  let this := with_factory this f in
  let w := length (waiters this) in
  let this := with_waiters this (waiters this ++ [mkWaiter id responses false]) in
  let this := with_callbacks this (register (request_callbacks this) responses w) in
  emit this (Sent send).

(** [send().catch((error) => callback(error))] when [send] failed. *)
Definition send_failed (this : t) (w : nat) (error : Error) : t :=
  callback this w (Err error).

(** The function [handle_method] hands to [process.nextTick]. *)
Definition handle_method_tick (this : t) (method_id : Z) (args : Js.value) : t :=
  if destroyed this then this
  else
    let reply := Ok (mkResponse method_id args) in
    match JsMap.get (request_callbacks this) method_id with
    | Some (w0 :: rest) =>
        let callbacks := w0 :: rest in
        if Nat.eqb (length callbacks) 1 then
          (* Array.from(callbacks.values())[0] *)
          callback this w0 reply
        else
          let keys := Js.Array_sort (fun _ : nat => Js.object_string) callbacks in
          match keys with
          | k0 :: _ => callback this k0 reply
          | [] => this
          end
    | _ =>
        if existsb (Z.eqb method_id) (handlers this)
        then emit this (Handled method_id args)
        else emit this (Fatal "Handler not found!")
    end.

Definition handle_method (this : t) (method_id : Z) (args : Js.value) : t :=
  with_ticks this (ticks this ++ [TickHandleMethod method_id args]).

(** Run the oldest queued tick. *)
Definition run_tick (this : t) (now : Z) : t :=
  match ticks this with
  | [] => this
  | TickCallApi responses send :: q =>
      call_api_tick (with_ticks this q) responses send now
  | TickHandleMethod method_id args :: q =>
      handle_method_tick (with_ticks this q) method_id args
  end.

(** [call_close(error)] of [Connection] and of [ChannelChildAbstract], up to
    its first [await]. *)
Definition call_close (this : t) (error : option Error) : t :=
  if destroyed this || closed this then this
  else
    match kind this with
    | IsConnection =>
        call_api this [METHODS_connection_close_ok]
          (SendClose METHODS_connection_close (ErrorToClose error))
    | IsChild =>
        call_api this [METHODS_channel_close_ok]
          (SendClose METHODS_channel_close (ErrorToClose error))
    end.

(** [for (const [, callback] of callback_map) callback(reject_error)].
    The iterator of a [Map] is live: an entry deleted before its turn is
    skipped. [snapshot] holds the entries that were present when the loop
    started and have not had their turn yet. *)
Fixpoint reject_callbacks (this : t) (method_id : Z) (snapshot : list nat)
    (reject_error : Error) : t :=
  match snapshot with
  | [] => this
  | w :: rest =>
      let present :=
        match JsMap.get (request_callbacks this) method_id with
        | Some callbacks => existsb (Nat.eqb w) callbacks
        | None => false
        end in
      let this := if present then callback this w (Err reject_error) else this in
      reject_callbacks this method_id rest reject_error
  end.

(** [for (const [, callback_map] of this.request_callbacks) ...]. *)
Fixpoint reject_all (this : t) (method_ids : list Z) (reject_error : Error) : t :=
  match method_ids with
  | [] => this
  | method_id :: rest =>
      let snapshot := match JsMap.get (request_callbacks this) method_id with
                      | Some callbacks => callbacks
                      | None => []
                      end in
      reject_all (reject_callbacks this method_id snapshot reject_error)
                 rest reject_error
  end.

Definition default_reject_error : Error :=
  HardError 0 connection_forced "Channel or connection closed".

(** [ChannelAbstract.destroy(error)]. *)
Definition destroy_abstract (this : t) (error : option Error) : t :=
  let this :=
    if negb (socket_destroyed this) && negb (destroyed this)
    then call_close this error else this in
  let reject_error := match error with
                      | Some e => e
                      | None => default_reject_error
                      end in
  reject_all this (JsMap.keys (request_callbacks this)) reject_error.

(** [destroy(error)] of a channel object: [super.destroy(error)], then
    [this.destroyed = true]. (A child also removes itself from
    [connection.channels], see [Connection.channel_destroyed]; the connection
    first destroys its children and afterwards its socket.) *)
Definition destroy (this : t) (error : option Error) : t :=
  with_destroyed (destroy_abstract this error) true.

(** The closures registered under [method_id], in insertion order. *)
Definition pending_of (rc : list (Z * list nat)) (method_id : Z) : list nat :=
  match JsMap.get rc method_id with
  | Some callbacks => callbacks
  | None => []
  end.

Definition pending (this : t) (method_id : Z) : list nat :=
  pending_of (request_callbacks this) method_id.

(** Closure [w] is registered under one of the method ids [ms]. *)
Definition registered_in (rc : list (Z * list nat)) (ms : list Z) (w : nat) : bool :=
  existsb (fun m => existsb (Nat.eqb w) (pending_of rc m)) ms.

(** Consistency of the registry with the closures' captured variables:
    every inner map lists closures in the order of their creation, each of
    them not yet called and expecting that method id; and a closure that
    has not been called is registered under each of its [responses]. *)
Definition wf (this : t) : Prop :=
  (forall m callbacks,
     JsMap.get (request_callbacks this) m = Some callbacks ->
     StronglySorted Nat.lt callbacks /\
     forall w, In w callbacks ->
       exists x, waiters this !! w = Some x /\ w_called x = false /\
                 In m (w_responses x)) /\
  (forall w x, waiters this !! w = Some x -> w_called x = false ->
     forall m, In m (w_responses x) -> In w (pending this m)).

(** [l] without the closures of [ws]. *)
Definition without (ws : list nat) (l : list nat) : list nat :=
  List.filter (fun x => negb (existsb (Nat.eqb x) ws)) l.
Arguments without : simpl never.

(** Every inner map is in creation order. *)
Definition inner_sorted (rc : list (Z * list nat)) : Prop :=
  forall m callbacks, JsMap.get rc m = Some callbacks ->
                      StronglySorted Nat.lt callbacks.

(** Two states differ at most in registry, closure store and log. *)
Definition same_flags (a b : t) : Prop :=
  kind a = kind b /\ channel a = channel b /\ handlers a = handlers b /\
  destroyed a = destroyed b /\ closed a = closed b /\
  socket_destroyed a = socket_destroyed b /\ factory a = factory b /\
  ticks a = ticks b /\
  JsMap.keys (request_callbacks a) = JsMap.keys (request_callbacks b).

(** The events a rejection of closure [w] with [e] leaves in the log. *)
Definition rejection (e : Error) (w : nat) : list Event :=
  [Called w (Err e); Settled w (Err e)].

(** Closure [w] is registered under some method id. *)
Definition is_pending (this : t) (w : nat) : Prop :=
  exists method_id, In w (pending this method_id).

(** Number of invocations of closure [w] recorded in a log. *)
Fixpoint count_called (w : nat) (l : list Event) : nat :=
  match l with
  | [] => O
  | Called w' _ :: l' => (if Nat.eqb w' w then 1 else 0) + count_called w l'
  | _ :: l' => count_called w l'
  end.

(** What can happen to a channel object. *)
Inductive Action :=
| ACallApi (responses : list Z) (send : Send)
| AHandleMethod (method_id : Z) (args : Js.value)
| ARunTick (now : Z)
| ASendFailed (w : nat) (error : Error)
| ADestroy (error : option Error).

Definition act (this : t) (a : Action) : t :=
  match a with
  | ACallApi responses send => call_api this responses send
  | AHandleMethod method_id args => handle_method this method_id args
  | ARunTick now => run_tick this now
  | ASendFailed w error => send_failed this w error
  | ADestroy error => destroy this error
  end.

Definition run (this : t) (actions : list Action) : t :=
  fold_left act actions this.

End Channel.

(** ** Node.js [Buffer] *)
Module Buffer.
Import Errors.

(** What the platform leaves unspecified: the contents of memory obtained
    from [Buffer.allocUnsafe]. *)
Class Memory := { junk : nat -> Z }.

(** The floating-point accessors of [Buffer] and the division used by the
    decimal reader. Numbers with a fractional part are outside the value
    universe of this development, so these are operations of the platform:
    the octets [writeDoubleBE] stores for an integral number and
    [writeFloatBE] for any number, the numbers [readDoubleBE] and
    [readFloatBE] find in 8 and 4 octets, and the quotient
    [long_value / (10 ** fraction_size)] when it is not an integer. All that
    is known of them is the number of octets written. *)
Class FloatOps := {
  writeDouble_octets : Z -> list Z;
  writeFloat_octets : Js.value -> list Z;
  readDouble_value : list Z -> Js.value;
  readFloat_value : list Z -> Js.value;
  decimal_quotient : Z -> Z -> Js.value;
  writeDouble_octets_length : forall n, List.length (writeDouble_octets n) = 8%nat;
  writeFloat_octets_length : forall v, List.length (writeFloat_octets v) = 4%nat
}.

Definition length (b : list Z) : Z := Z.of_nat (List.length b).

Definition allocUnsafe `{Memory} (size : Z) : list Z :=
  map junk (seq 0 (Z.to_nat size)).

(** [buf.subarray(start, end)], both indices clamped to the buffer. *)
Definition subarray (b : list Z) (start end_ : Z) : list Z :=
  take (Z.to_nat end_ - Z.to_nat start) (drop (Z.to_nat start) b).

Definition out_of_range : Error := RangeError "ERR_OUT_OF_RANGE".

(** Big-endian value of a sequence of octets, and the [n] octets of a value. *)
Definition be_value (octets : list Z) : Z :=
  fold_left (fun acc x => acc * 256 + x) octets 0.

Fixpoint be_octets (n : nat) (v : Z) : list Z :=
  match n with
  | O => []
  | S n' => (v / 256 ^ Z.of_nat n') mod 256 :: be_octets n' v
  end.

(** Reading [n] octets at [offset]; out of bounds throws. *)
Definition read_octets (b : list Z) (offset : Z) (n : nat) : res (list Z) :=
  if (0 <=? offset) && (offset + Z.of_nat n <=? length b)
  then Ok (take n (drop (Z.to_nat offset) b))
  else Err out_of_range.

(** Overwriting the octets at [offset]; out of bounds throws. *)
Definition write_octets (b : list Z) (offset : Z) (octets : list Z) : res (list Z) :=
  if (0 <=? offset) && (offset + length octets <=? length b)
  then Ok (take (Z.to_nat offset) b ++ octets
           ++ drop (Z.to_nat offset + List.length octets) b)
  else Err out_of_range.

(** [readUIntBE]-style accessors ([readUInt8], [readUInt16BE],
    [readUInt32BE], [readBigUInt64BE]) for widths 1, 2, 4, 8. *)
Definition readUIntBE (b : list Z) (offset : Z) (n : nat) : res Z :=
  octets ← read_octets b offset n; Ok (be_value octets).

(** Signed accessors: two's complement. *)
Definition readIntBE (b : list Z) (offset : Z) (n : nat) : res Z :=
  u ← readUIntBE b offset n;
  Ok (if u <? 2 ^ (8 * Z.of_nat n - 1) then u else u - 2 ^ (8 * Z.of_nat n)).

(** [writeUInt8], [writeUInt16BE], [writeUInt32BE], [writeBigUInt64BE],
    [writeUIntBE]: the value must fit in [n] octets. *)
Definition writeUIntBE (b : list Z) (value offset : Z) (n : nat) : res (list Z) :=
  if (0 <=? value) && (value <? 2 ^ (8 * Z.of_nat n))
  then write_octets b offset (be_octets n value)
  else Err out_of_range.

Definition writeIntBE (b : list Z) (value offset : Z) (n : nat) : res (list Z) :=
  if (- 2 ^ (8 * Z.of_nat n - 1) <=? value) && (value <? 2 ^ (8 * Z.of_nat n - 1))
  then write_octets b offset (be_octets n (value mod 2 ^ (8 * Z.of_nat n)))
  else Err out_of_range.

(** The octets of a string, one per character of its UTF-8 form. *)
Definition octets_of_string (s : string) : list Z :=
  map (fun c => Z.of_N (N_of_ascii c)) (list_ascii_of_string s).

Definition string_of_octets (octets : list Z) : string :=
  string_of_list_ascii (map (fun x => ascii_of_N (Z.to_N x)) octets).

(** [Buffer.byteLength(value, 'utf8')]. *)
Definition byteLength (s : string) : Z := Z.of_nat (String.length s).

(** [buf.toString('utf8', start, end)]: the range is clamped. *)
Definition toString (b : list Z) (start end_ : Z) : string :=
  string_of_octets (subarray b start end_).

(** [buf.write(string, offset, 'utf8')] writes what fits and throws when a
    non-empty string is given an offset outside the buffer. *)
Definition write (b : list Z) (s : string) (offset : Z) : res (list Z) :=
  let octets := octets_of_string s in
  match octets with
  | [] => Ok b
  | _ =>
      if (0 <=? offset) && (offset <=? length b)
      then write_octets b offset
             (take (Z.to_nat (length b - offset)) octets)
      else Err out_of_range
  end.

(** [buf.set(source, offset)]. *)
Definition set (b : list Z) (source : list Z) (offset : Z) : res (list Z) :=
  write_octets b offset source.

End Buffer.

(** ** Constants and tables of [proto/codec.ts] *)
Module Codec.

Definition EMPTY_FRAME_SIZE : Z := 8.
Definition EMPTY_FRAME_METHOD_PAYLOAD_SIZE : Z := 4.
Definition EMPTY_FRAME_METHOD_SIZE : Z :=
  EMPTY_FRAME_SIZE + EMPTY_FRAME_METHOD_PAYLOAD_SIZE.

Definition MAX_UINT32 : Z := 4294967296.
Definition MAX_SECOND : Z := 8640000000000.
Definition SECOND : Z := 1000.
Definition BUFFER_INC : Z := 1024.

(** [FRAME_TYPES] and [FRAME_CONST] of [proto/constant.ts]. *)
Definition frame_method : Z := 1.
Definition frame_header : Z := 2.
Definition frame_body : Z := 3.
Definition frame_heartbeat : Z := 8.
Definition frame_min_size : Z := 4096.
Definition frame_end : Z := 206.

(** The reader and writer methods that [this[method]] can name. *)
Inductive Method :=
| Mboolean | Mint8 | Muint8 | Mint16 | Muint16 | Mint32 | Muint32 | Mint64
| Mfloat | Mdouble | Mdecimal | Mlongstr | Mtimestamp | Mvoid | Mbinary
| Mtable | Marray | Mshortstr | Muint64.

(** Character codes of the type tags. *)
Definition CHAR_METHODS (char : Z) : option Method :=
  if char =? 116 then Some Mboolean        (* t *)
  else if char =? 98 then Some Mint8       (* b *)
  else if char =? 66 then Some Muint8      (* B *)
  else if char =? 115 then Some Mint16     (* s *)
  else if char =? 117 then Some Muint16    (* u *)
  else if char =? 73 then Some Mint32      (* I *)
  else if char =? 105 then Some Muint32    (* i *)
  else if char =? 76 then Some Mint64      (* L *)
  else if char =? 108 then Some Mint64     (* l *)
  else if char =? 102 then Some Mfloat     (* f *)
  else if char =? 100 then Some Mdouble    (* d *)
  else if char =? 68 then Some Mdecimal    (* D *)
  else if char =? 83 then Some Mlongstr    (* S *)
  else if char =? 84 then Some Mtimestamp  (* T *)
  else if char =? 86 then Some Mvoid       (* V *)
  else if char =? 120 then Some Mbinary    (* x *)
  else if char =? 70 then Some Mtable      (* F *)
  else if char =? 65 then Some Marray      (* A *)
  else None.

(** [RE_FieldName = /^[A-z$#][A-z0-9$#_.]{0,127}$/] on the characters of a
    key. The class [A-z] is the code range 65..122. *)
Definition field_first (c : Z) : bool :=
  ((65 <=? c) && (c <=? 122)) || (c =? 36) || (c =? 35).

Definition field_rest (c : Z) : bool :=
  ((65 <=? c) && (c <=? 122)) || ((48 <=? c) && (c <=? 57))
  || (c =? 36) || (c =? 35) || (c =? 95) || (c =? 46).

Definition RE_FieldName (key : string) : bool :=
  match Buffer.octets_of_string key with
  | [] => false
  | c :: rest =>
      field_first c && forallb field_rest rest
      && (Z.of_nat (List.length rest) <=? 127)
  end.

(** [BITS8[i] = 1 << i] and [BITS_BASIC[i] = 1 << (15 - i)]. *)
Definition BITS8 (i : nat) : Z := Z.shiftl 1 (Z.of_nat i).
Definition BITS_BASIC (i : nat) : Z := Z.shiftl 1 (15 - Z.of_nat i).

End Codec.

(** ** [BufferReader] ([proto/codec.ts])

    The [path] arguments only feed error messages and are left out. A
    method returns the value read together with the reader at its new
    offset. *)
Module BufferReader.
Import Errors Js Codec.

Record t := mk { _buffer : list Z; _offset : Z }.

Definition new (buffer : list Z) : t := mk buffer 0.

Definition advance (this : t) (n : Z) : t := mk (_buffer this) (_offset this + n).

Definition uint8 (this : t) : res (Z * t) :=
  result ← Buffer.readUIntBE (_buffer this) (_offset this) 1;
  Ok (result, advance this 1).

Definition int8 (this : t) : res (Z * t) :=
  result ← Buffer.readIntBE (_buffer this) (_offset this) 1;
  Ok (result, advance this 1).

Definition uint16 (this : t) : res (Z * t) :=
  result ← Buffer.readUIntBE (_buffer this) (_offset this) 2;
  Ok (result, advance this 2).

Definition int16 (this : t) : res (Z * t) :=
  result ← Buffer.readIntBE (_buffer this) (_offset this) 2;
  Ok (result, advance this 2).

Definition uint32 (this : t) : res (Z * t) :=
  result ← Buffer.readUIntBE (_buffer this) (_offset this) 4;
  Ok (result, advance this 4).

Definition int32 (this : t) : res (Z * t) :=
  result ← Buffer.readIntBE (_buffer this) (_offset this) 4;
  Ok (result, advance this 4).

Definition uint64 (this : t) : res (Z * t) :=
  result ← Buffer.readUIntBE (_buffer this) (_offset this) 8;
  Ok (result, advance this 8).

Definition int64 (this : t) : res (Z * t) :=
  result ← Buffer.readIntBE (_buffer this) (_offset this) 8;
  Ok (result, advance this 8).

Definition shortstr (this : t) : res (string * t) :=
  '(length, this) ← uint8 this;
  let offset := _offset this + length in
  let result := Buffer.toString (_buffer this) (_offset this) offset in
  Ok (result, mk (_buffer this) offset).

Definition longstr (this : t) : res (string * t) :=
  '(length, this) ← uint32 this;
  let offset := _offset this + length in
  let result := Buffer.toString (_buffer this) (_offset this) offset in
  Ok (result, mk (_buffer this) offset).

(** [bytes] is a bigint and [SECOND] a number: after the comparison, the
    product [(bytes as any) * SECOND] raises the [TypeError] of mixed
    operands, so that no [Date] is ever returned. *)
Definition timestamp (this : t) : res (Z * t) :=
  '(bytes, this) ← uint64 this;
  if bytes >? MAX_SECOND then Err (RangeError "Date out of range")
  else Err (TypeError "Cannot mix BigInt and other types, use explicit conversions").

Definition boolean (this : t) : res (bool * t) :=
  '(bytes, this) ← uint8 this;
  Ok (bytes >? 0, this).

Definition float `{Buffer.FloatOps} (this : t) : res (value * t) :=
  octets ← Buffer.read_octets (_buffer this) (_offset this) 4;
  Ok (Buffer.readFloat_value octets, advance this 4).

Definition double `{Buffer.FloatOps} (this : t) : res (value * t) :=
  octets ← Buffer.read_octets (_buffer this) (_offset this) 8;
  Ok (Buffer.readDouble_value octets, advance this 8).

(** [long_value / (10 ** fraction_size)]: the division of two doubles is
    exact when the quotient is an integer. *)
Definition decimal `{Buffer.FloatOps} (this : t) : res (value * t) :=
  '(fraction_size, this) ← uint8 this;
  '(long_value, this) ← uint32 this;
  if long_value mod 10 ^ fraction_size =? 0
  then Ok (VNumber (long_value / 10 ^ fraction_size), this)
  else Ok (Buffer.decimal_quotient long_value fraction_size, this).

Definition binary (this : t) : res (list Z * t) :=
  '(length, this) ← uint32 this;
  if negb (length =? 0) then
    let start := _offset this in
    let end_ := start + length in
    Ok (Buffer.subarray (_buffer this) start end_, mk (_buffer this) end_)
  else Ok ([], this).

Definition out_of_fuel {A} : res A := Err (PlainError "out of fuel").

Section Tables.
Context `{Buffer.FloatOps}.

(** The methods without recursion, with their results as values. *)
Definition scalar (method : Method) (this : t) : res (value * t) :=
  match method with
  | Mboolean => '(b, this) ← boolean this; Ok (VBoolean b, this)
  | Mint8 => '(n, this) ← int8 this; Ok (VNumber n, this)
  | Muint8 => '(n, this) ← uint8 this; Ok (VNumber n, this)
  | Mint16 => '(n, this) ← int16 this; Ok (VNumber n, this)
  | Muint16 => '(n, this) ← uint16 this; Ok (VNumber n, this)
  | Mint32 => '(n, this) ← int32 this; Ok (VNumber n, this)
  | Muint32 => '(n, this) ← uint32 this; Ok (VNumber n, this)
  | Mint64 => '(n, this) ← int64 this; Ok (VBigInt n, this)
  | Muint64 => '(n, this) ← uint64 this; Ok (VBigInt n, this)
  | Mfloat => float this
  | Mdouble => double this
  | Mdecimal => decimal this
  | Mshortstr => '(s, this) ← shortstr this; Ok (VString s, this)
  | Mlongstr => '(s, this) ← longstr this; Ok (VString s, this)
  | Mtimestamp => '(ms, this) ← timestamp this; Ok (VDate ms, this)
  | Mvoid => Ok (VUndefined, this)
  | Mbinary => '(b, this) ← binary this; Ok (VBuffer b, this)
  | Mtable | Marray => Err (PlainError "not a scalar")
  end.

(** [tableitem], [tableitems], [table] and [array] call each other; every
    call and every loop iteration consumes one unit of [fuel]. The first
    component is [tableitem], the second the loop of [tableitems] with the
    object built so far, the third the loop of [array]. *)
Fixpoint tableitem_fuel (fuel : nat) (this : t) : res (value * t) :=
  match fuel with
  | O => out_of_fuel
  | S fuel' =>
      '(char, this) ← uint8 this;
      match CHAR_METHODS char with
      | None => Err (RangeError "Unknown table item char")
      | Some Mtable =>
          '(length, this) ← uint32 this;
          if length =? 0 then Ok (VObject [], this)
          else if _offset this + length >? Buffer.length (_buffer this)
          then Err (SyntaxError "Table out of buffer end")
          else
            '(fields, this) ←
               tableitems_loop fuel' (_offset this + length) [] this;
            Ok (VObject fields, this)
      | Some Marray =>
          '(length, this) ← uint32 this;
          if length =? 0 then Ok (VArray [], this)
          else
            '(items, this) ← array_loop fuel' (_offset this + length) [] this;
            Ok (VArray items, this)
      | Some method => scalar method this
      end
  end
with tableitems_loop (fuel : nat) (end_ : Z) (result : list (string * value))
    (this : t) : res (list (string * value) * t) :=
  match fuel with
  | O => out_of_fuel
  | S fuel' =>
      if _offset this <? end_ then
        '(key, this) ← shortstr this;
        if negb (RE_FieldName key) then Err (RangeError "Invalid field table key")
        else
          '(item, this) ← tableitem_fuel fuel' this;
          tableitems_loop fuel' end_ (object_set result key item) this
      else if negb (_offset this =? end_)
      then Err (SyntaxError "Unexpected table end")
      else Ok (result, this)
  end
with array_loop (fuel : nat) (end_ : Z) (items : list value) (this : t)
    : res (list value * t) :=
  match fuel with
  | O => out_of_fuel
  | S fuel' =>
      if _offset this <? end_ then
        '(item, this) ← tableitem_fuel fuel' this;
        array_loop fuel' end_ (items ++ [item]) this
      else if negb (_offset this =? end_)
      then Err (SyntaxError "Unexpected array end")
      else Ok (items, this)
  end.

(** Fuel that suffices for any buffer: every unit pays for an octet. *)
Definition enough_fuel (this : t) : nat := S (S (List.length (_buffer this))).

Definition tableitem (this : t) : res (value * t) :=
  tableitem_fuel (enough_fuel this) this.

(** [tableitems(path, end)]; a missing or zero [end] stands for the end of
    the buffer. *)
Definition tableitems (end_ : option Z) (this : t) : res (list (string * value) * t) :=
  let end_ := match end_ with
              | Some e => if e =? 0 then Buffer.length (_buffer this) else e
              | None => Buffer.length (_buffer this)
              end in
  tableitems_loop (enough_fuel this) end_ [] this.

Definition table (this : t) : res (list (string * value) * t) :=
  '(length, this) ← uint32 this;
  if length =? 0 then Ok ([], this)
  else if _offset this + length >? Buffer.length (_buffer this)
  then Err (SyntaxError "Table out of buffer end")
  else tableitems (Some (_offset this + length)) this.

Definition array (this : t) : res (list value * t) :=
  '(length, this) ← uint32 this;
  if length =? 0 then Ok ([], this)
  else array_loop (enough_fuel this) (_offset this + length) [] this.

(** [this[method](path)]. *)
Definition call (method : Method) (this : t) : res (value * t) :=
  match method with
  | Mtable => '(fields, this) ← table this; Ok (VObject fields, this)
  | Marray => '(items, this) ← array this; Ok (VArray items, this)
  | _ => scalar method this
  end.

(** The loop of [properties] from index [i] on. *)
Fixpoint properties_loop (flag : Z) (i : nat) (items : list (string * Method))
    (destination : list (string * value)) (this : t)
    : res (list (string * value) * t) :=
  match items with
  | [] => Ok (destination, this)
  | (key, method) :: rest =>
      if Z.land flag (BITS_BASIC i) =? 0
      then properties_loop flag (S i) rest destination this
      else
        '(v, this) ← call method this;
        properties_loop flag (S i) rest (object_set destination key v) this
  end.

Definition properties (items : list (string * Method))
    (destination : list (string * value)) (this : t)
    : res (list (string * value) * t) :=
  '(flag, this) ← uint16 this;
  properties_loop flag 0 items destination this.

End Tables.

(** [bits8] stores the masked flag, a number. *)

Fixpoint bits8_loop (flag : Z) (i : nat) (keys : list string)
    (destination : list (string * value)) : list (string * value) :=
  match keys with
  | [] => destination
  | key :: rest =>
      bits8_loop flag (S i) rest
        (object_set destination key (VNumber (Z.land flag (BITS8 i))))
  end.

Definition bits8 (keys : list string) (destination : list (string * value))
    (this : t) : res (list (string * value) * t) :=
  '(flag, this) ← uint8 this;
  Ok (bits8_loop flag 0 keys destination, this).

Definition skip (size : Z) (this : t) : t := advance this size.

Definition body (size : Z) (this : t) : list Z * t :=
  let end_ := _offset this + size in
  (Buffer.subarray (_buffer this) (_offset this) end_, mk (_buffer this) end_).

End BufferReader.

(** ** [BufferWriter] ([proto/codec.ts])

    A method takes the writer and returns it after the write, or throws. *)
Module BufferWriter.
Import Errors Js Codec.

Record t := mk { _buffer : list Z; _offset : Z; dynamic : bool }.

Definition with_buffer (this : t) (buffer : list Z) : t :=
  mk buffer (_offset this) (dynamic this).

Definition with_offset (this : t) (offset : Z) : t :=
  mk (_buffer this) offset (dynamic this).

(** What the TypeScript signatures let through to a method. *)
Definition as_number (v : value) : res Z :=
  match v with VNumber n => Ok n | _ => Err (TypeError "ERR_INVALID_ARG_TYPE") end.

Definition as_bigint (v : value) : res Z :=
  match v with VBigInt n => Ok n | _ => Err (TypeError "ERR_INVALID_ARG_TYPE") end.

Definition as_string (v : value) : res string :=
  match v with VString s => Ok s | _ => Err (TypeError "ERR_INVALID_ARG_TYPE") end.

Definition as_buffer (v : value) : res (list Z) :=
  match v with VBuffer b => Ok b | _ => Err (TypeError "ERR_INVALID_ARG_TYPE") end.

Definition as_date (v : value) : res Z :=
  match v with VDate ms => Ok ms | _ => Err (TypeError "Invalid Date") end.

Section Writer.
Context `{Buffer.Memory}.

Definition new (initial_size : Z) (dynamic : bool) : t :=
  mk (Buffer.allocUnsafe initial_size) 0 dynamic.

Definition safewritestatic (size : Z) (callback : t -> res t) (this : t) : res t :=
  let offset := _offset this + size in
  this ← callback this;
  Ok (with_offset this offset).

Definition safewritedynamic (size : Z) (callback : t -> res t) (this : t) : res t :=
  let offset := _offset this + size in
  let this :=
    if offset >? Buffer.length (_buffer this)
    then with_buffer this
           (_buffer this ++ Buffer.allocUnsafe (size + BUFFER_INC))
    else this in
  this ← callback this;
  Ok (with_offset this offset).

Definition safewrite (size : Z) (callback : t -> res t) (this : t) : res t :=
  if dynamic this then safewritedynamic size callback this
  else safewritestatic size callback this.

(** The callbacks [this._buffer.writeXxx(value, this._offset)]. *)
Definition put_uint (n : nat) (value : Z) (this : t) : res t :=
  b ← Buffer.writeUIntBE (_buffer this) value (_offset this) n;
  Ok (with_buffer this b).

Definition put_int (n : nat) (value : Z) (this : t) : res t :=
  b ← Buffer.writeIntBE (_buffer this) value (_offset this) n;
  Ok (with_buffer this b).

Definition uint8 (value : Z) : t -> res t := safewrite 1 (put_uint 1 value).
Definition int8 (value : Z) : t -> res t := safewrite 1 (put_int 1 value).
Definition uint16 (value : Z) : t -> res t := safewrite 2 (put_uint 2 value).
Definition int16 (value : Z) : t -> res t := safewrite 2 (put_int 2 value).
Definition uint32 (value : Z) : t -> res t := safewrite 4 (put_uint 4 value).
Definition int32 (value : Z) : t -> res t := safewrite 4 (put_int 4 value).
Definition uint64 (value : Z) : t -> res t := safewrite 8 (put_uint 8 value).
Definition int64 (value : Z) : t -> res t := safewrite 8 (put_int 8 value).

Definition shortstr (value : string) (this : t) : res t :=
  let length := Buffer.byteLength value in
  safewrite (length + 1) (fun this =>
    b ← Buffer.writeUIntBE (_buffer this) length (_offset this) 1;
    b ← Buffer.write b value (_offset this + 1);
    Ok (with_buffer this b)) this.

Definition longstr (value : string) (this : t) : res t :=
  let length := Buffer.byteLength value in
  safewrite (length + 4) (fun this =>
    b ← Buffer.writeUIntBE (_buffer this) length (_offset this) 4;
    b ← Buffer.write b value (_offset this + 4);
    Ok (with_buffer this b)) this.

(** [value] is the time value of a valid [Date];
    [Math.floor(value.valueOf() / SECOND)] is the Euclidean quotient. *)
Definition timestamp (value : Z) (this : t) : res t :=
  uint64 (value / SECOND) this.

Definition boolean (value : bool) (this : t) : res t :=
  uint8 (if value then 1 else 0) this.

Definition float `{Buffer.FloatOps} (value : Js.value) (this : t) : res t :=
  safewrite 4 (fun this =>
    b ← Buffer.write_octets (_buffer this) (_offset this)
          (Buffer.writeFloat_octets value);
    Ok (with_buffer this b)) this.

Definition double `{Buffer.FloatOps} (value : Js.value) (this : t) : res t :=
  safewrite 8 (fun this =>
    octets ← match value with
             | VNumber n => Ok (Buffer.writeDouble_octets n)
             | VFloat bits => Ok (Buffer.be_octets 8 bits)
             | _ => Err (TypeError "ERR_INVALID_ARG_TYPE")
             end;
    b ← Buffer.write_octets (_buffer this) (_offset this) octets;
    Ok (with_buffer this b)) this.

(** [decimal]. For a positive value within range the method evaluates
    [(value - long_value).toFixed(256)], and [toFixed] raises a [RangeError]
    for more than 100 digits; a value that is not an integer is positive and
    ends there, or is not positive and is refused. *)
Definition decimal (value : Js.value) (this : t) : res t :=
  match value with
  | VNumber value =>
      if value >? 0 then
        let long_value := value in
        if long_value >? MAX_UINT32
        then Err (RangeError "Decimal should be less then 4294967297")
        else Err (RangeError "toFixed() digits argument must be between 0 and 100")
      else if value =? 0 then
        safewrite 5 (put_uint 5 0) this
      else Err (RangeError "Decimal should be positive")
  | VFloat _ => Err (RangeError "Decimal: toFixed() digits or sign")
  | _ => Err (TypeError "ERR_INVALID_ARG_TYPE")
  end.

Definition void (this : t) : res t := Ok this.

Definition binary (value : list Z) (this : t) : res t :=
  let length := Buffer.length value in
  if negb (length =? 0) then
    safewrite (length + 4) (fun this =>
      b ← Buffer.writeUIntBE (_buffer this) length (_offset this) 4;
      b ← Buffer.set b value (_offset this + 4);
      Ok (with_buffer this b)) this
  else uint32 0 this.

(** The type tag chosen by [tableitem]. *)
Definition tableitem_char (v : value) : res Z :=
  match v with
  | VBigInt _ => Ok 76                                   (* L *)
  | VBoolean _ => Ok 116                                 (* t *)
  | VUndefined => Err (RangeError "undefined not supported to encode")
  | VNumber n =>
      if n <? 0 then
        if n >? -129 then Ok 98                          (* b *)
        else if n >? -32769 then Ok 115                  (* s *)
        else if n >? -2147483649 then Ok 73              (* I *)
        else Ok 100                                      (* d *)
      else
        if n <? 256 then Ok 66                           (* B *)
        else if n <? 65536 then Ok 117                   (* u *)
        else if n <? 4294967296 then Ok 105              (* i *)
        else Ok 100                                      (* d *)
  | VFloat _ => Ok 100                                   (* d *)
  | VString _ => Ok 83                                   (* S *)
  | VBuffer _ => Ok 120                                  (* x *)
  | VDate _ => Ok 84                                     (* T *)
  | VArray _ => Ok 65                                    (* A *)
  | VObject _ => Ok 70                                   (* F *)
  | VNull => Ok 86                                       (* V *)
  end.

Section Tables.
Context `{Buffer.FloatOps}.

(** [this[method](path, value)] for the methods without recursion. *)
Definition scalar (method : Method) (v : value) (this : t) : res t :=
  match method with
  | Mboolean => boolean (truthy v) this
  | Mint8 => n ← as_number v; int8 n this
  | Muint8 => n ← as_number v; uint8 n this
  | Mint16 => n ← as_number v; int16 n this
  | Muint16 => n ← as_number v; uint16 n this
  | Mint32 => n ← as_number v; int32 n this
  | Muint32 => n ← as_number v; uint32 n this
  | Mint64 => n ← as_bigint v; int64 n this
  | Muint64 => n ← as_bigint v; uint64 n this
  | Mfloat => float v this
  | Mdouble => double v this
  | Mdecimal => decimal v this
  | Mshortstr => s ← as_string v; shortstr s this
  | Mlongstr => s ← as_string v; longstr s this
  | Mtimestamp => ms ← as_date v; timestamp ms this
  | Mvoid => void this
  | Mbinary => b ← as_buffer v; binary b this
  | Mtable | Marray => Err (PlainError "not a scalar")
  end.

(** The end of [table] and [array]: the length prefix is patched in. *)
Definition patch_length (offset_length start : Z) (this : t) : res t :=
  b ← Buffer.writeUIntBE (_buffer this) (_offset this - start) offset_length 4;
  Ok (with_buffer this b).

Fixpoint tableitem (v : value) (this : t) : res t :=
  char_code ← tableitem_char v;
  match CHAR_METHODS char_code with
  | None => Err (RangeError "Unknown char")
  | Some method =>
      this ← uint8 char_code this;
      match v with
      | VObject fields =>
          let offset_length := _offset this in
          let start := _offset this + 4 in
          let this := with_offset this start in
          this ←
            (fix tableitems (fields : list (string * value)) (this : t) : res t :=
               match fields with
               | [] => Ok this
               | (key, item) :: rest =>
                   if negb (RE_FieldName key)
                   then Err (RangeError "Invalid field table key")
                   else
                     this ← shortstr key this;
                     this ← tableitem item this;
                     tableitems rest this
               end) fields this;
          patch_length offset_length start this
      | VArray items =>
          let offset_length := _offset this in
          let start := _offset this + 4 in
          let this := with_offset this start in
          this ←
            (fix array_items (items : list value) (this : t) : res t :=
               match items with
               | [] => Ok this
               | item :: rest =>
                   this ← tableitem item this;
                   array_items rest this
               end) items this;
          patch_length offset_length start this
      | _ => scalar method v this
      end
  end.

(** [tableitems(path, value)]: the enumeration of the keys of [value]. *)
Fixpoint tableitems (fields : list (string * value)) (this : t) : res t :=
  match fields with
  | [] => Ok this
  | (key, item) :: rest =>
      if negb (RE_FieldName key)
      then Err (RangeError "Invalid field table key")
      else
        this ← shortstr key this;
        this ← tableitem item this;
        tableitems rest this
  end.

Definition table (fields : list (string * value)) (this : t) : res t :=
  let offset_length := _offset this in
  let start := _offset this + 4 in
  let this := with_offset this start in
  this ← tableitems fields this;
  patch_length offset_length start this.

Fixpoint array_items (items : list value) (this : t) : res t :=
  match items with
  | [] => Ok this
  | item :: rest =>
      this ← tableitem item this;
      array_items rest this
  end.

Definition array (items : list value) (this : t) : res t :=
  let offset_length := _offset this in
  let start := _offset this + 4 in
  let this := with_offset this start in
  this ← array_items items this;
  patch_length offset_length start this.

(** [this[method](path, value)]. *)
Definition call (method : Method) (v : value) (this : t) : res t :=
  match method, v with
  | Mtable, VObject fields => table fields this
  | Marray, VArray items => array items this
  | (Mtable | Marray), _ => Err (TypeError "ERR_INVALID_ARG_TYPE")
  | _, _ => scalar method v this
  end.

(** The loop of [properties] from index [i] on, with the flag so far. *)
Fixpoint properties_loop (flag : Z) (i : nat) (items : list (string * Method))
    (source : list (string * value)) (this : t) : res (Z * t) :=
  match items with
  | [] => Ok (flag, this)
  | (key, method) :: rest =>
      match object_get source key with
      | None => properties_loop flag (S i) rest source this
      | Some v =>
          let flag := Z.lor flag (BITS_BASIC i) in
          this ← call method v this;
          properties_loop flag (S i) rest source this
      end
  end.

Definition properties (items : list (string * Method))
    (source : list (string * value)) (this : t) : res t :=
  '(flag, this) ← properties_loop 0 0 items source this;
  uint16 flag this.

End Tables.

Fixpoint bits8_flag (flag : Z) (i : nat) (keys : list string)
    (source : list (string * value)) : Z :=
  match keys with
  | [] => flag
  | key :: rest =>
      let flag :=
        match object_get source key with
        | Some v => if truthy v then Z.lor flag (BITS8 i) else flag
        | None => flag
        end in
      bits8_flag flag (S i) rest source
  end.

Definition bits8 (keys : list string) (source : list (string * value))
    (this : t) : res t :=
  uint8 (bits8_flag 0 0 keys source) this.

(** [writeUIntBE(0, offset, size)] accepts 1 to 6 octets. *)
Definition skip (size : Z) (this : t) : res t :=
  safewrite size (fun this =>
    if (1 <=? size) && (size <=? 6) then put_uint (Z.to_nat size) 0 this
    else Err Buffer.out_of_range) this.

Definition framestart (frame_type channel size : Z) (this : t) : res t :=
  b ← Buffer.writeUIntBE (_buffer this) frame_type 0 1;
  b ← Buffer.writeUIntBE b channel 1 2;
  b ← Buffer.writeUIntBE b size 3 4;
  Ok (mk b 7 (dynamic this)).

Definition methodstart (channel size method_id : Z) (this : t) : res t :=
  this ← framestart frame_method channel size this;
  b ← Buffer.writeUIntBE (_buffer this) method_id 7 4;
  Ok (mk b 11 (dynamic this)).

Definition headerstart (channel class_id body_size : Z) (this : t) : res t :=
  this ← framestart frame_header channel 0 this;
  this ← uint16 class_id this;
  this ← uint16 0 this;
  uint64 body_size this.

Definition frameend (this : t) : res t := uint8 frame_end this.

Definition heartbeat (this : t) : res t :=
  this ← framestart frame_heartbeat 0 0 this;
  frameend this.

Definition setframelength (this : t) : res t :=
  b ← Buffer.writeUIntBE (_buffer this) (_offset this - EMPTY_FRAME_SIZE) 3 4;
  Ok (with_buffer this b).

Definition jsstring (value : string) (this : t) : res t :=
  let size := Buffer.byteLength value in
  safewrite size (fun this =>
    b ← Buffer.write (_buffer this) value (_offset this);
    Ok (with_buffer this b)) this.

(** The octets [writeSocket] hands to [socket.write]. *)
Definition socket_octets (writer : t) : list Z :=
  if dynamic writer then Buffer.subarray (_buffer writer) 0 (_offset writer)
  else _buffer writer.

(** [writeVoid], [writeBodyOne] and [writeHeartbeat]: the frame written. *)
Definition writeVoid (method_id channel : Z) : res (list Z) :=
  let writer := new EMPTY_FRAME_METHOD_SIZE false in
  writer ← methodstart channel EMPTY_FRAME_METHOD_PAYLOAD_SIZE method_id writer;
  writer ← frameend writer;
  Ok (socket_octets writer).

Definition writeBodyOne (channel : Z) (body : list Z) : res (list Z) :=
  let writer := new (EMPTY_FRAME_SIZE + Buffer.length body) false in
  writer ← framestart frame_body channel (Buffer.length body) writer;
  b ← Buffer.set (_buffer writer) body (_offset writer);
  b ← Buffer.writeUIntBE b frame_end (_offset writer + Buffer.length body) 1;
  Ok (socket_octets (with_buffer writer b)).

Definition writeHeartbeat : res (list Z) :=
  let writer := new EMPTY_FRAME_SIZE false in
  writer ← heartbeat writer;
  Ok (socket_octets writer).

End Writer.
End BufferWriter.

(** ** [DecodeStream] ([lib/channel.ts]) *)
Module DecodeStream.
Import Errors Js Codec.

(** The class of a child channel, which decides what its [handle_header],
    [handle_body] and [handle_heartbeat] do to [connection.channels]. *)
Inductive ChannelClass := ChannelConsume | ChannelPublish | CommandChannel.

(** A call made on the target channel. *)
Inductive Dispatch :=
| handle_method (channel method_id : Z) (args : value)
| handle_body (channel : Z) (body : list Z)
| handle_header (channel body_size : Z) (properties : value)
| handle_heartbeat (channel : Z).

(** The stream with the part of the connection it looks at: [cache], which
    of [_init] and [_decode] is the current [decode], the [channels] map,
    the calls made so far, and the error that ended the stream, if any. *)
Record t := mk {
  cache : option (list Z);
  decode_is_init : bool;
  channels : list (Z * ChannelClass);
  dispatched : list Dispatch;
  failed : option Error
}.

Definition new (channels : list (Z * ChannelClass)) : t :=
  mk None true channels [] None.

Definition with_cache (this : t) (c : option (list Z)) : t :=
  mk c (decode_is_init this) (channels this) (dispatched this) (failed this).

Definition throw (this : t) (e : Error) : t :=
  mk (cache this) (decode_is_init this) (channels this) (dispatched this) (Some e).

(** What a dispatched call does to [connection.channels] before it
    returns: the connection refuses headers and bodies and a channel
    refuses heartbeats by destroying the connection, a command channel
    refuses content by destroying itself, everything else is deferred or
    leaves the map alone. *)
Definition channels_after (chs : list (Z * ChannelClass)) (d : Dispatch)
    : list (Z * ChannelClass) :=
  match d with
  | handle_method _ _ _ => chs
  | handle_body channel _ | handle_header channel _ _ =>
      if channel =? 0 then []
      else match JsMap.get chs channel with
           | Some CommandChannel => JsMap.delete chs channel
           | _ => chs
           end
  | handle_heartbeat channel => if channel =? 0 then chs else []
  end.

Definition dispatch (this : t) (d : Dispatch) : t :=
  mk (cache this) (decode_is_init this) (channels_after (channels this) d)
     (dispatched this ++ [d]) (failed this).

Record FrameStart := mkFrameStart { frame_type : Z; channel : Z; size : Z }.

Definition _decodeframestart (reader : BufferReader.t)
    : res (FrameStart * BufferReader.t) :=
  '(frame_type, reader) ← BufferReader.uint8 reader;
  '(channel, reader) ← BufferReader.uint16 reader;
  '(size, reader) ← BufferReader.uint32 reader;
  Ok (mkFrameStart frame_type channel size, reader).

Definition BASIC_PROPERTIES_METHOD : Z := Z.shiftl 60 16.

Section Decode.
(** [DECODERS] of [proto/api.ts]. *)
Variable DECODERS : Z -> option (BufferReader.t -> res (value * BufferReader.t)).

(** One frame: the body of the [while] loop up to [reader.skip(1)]. *)
Definition decode_frame (buffer : list Z) (frame_start : FrameStart)
    (reader : BufferReader.t) (this : t) : res (t * BufferReader.t) :=
  end_ ← Buffer.readUIntBE buffer (size frame_start + BufferReader._offset reader) 1;
  if negb (end_ =? frame_end) then Err (RangeError "Invalid frame end")
  else if negb (channel frame_start =? 0)
          && negb (JsMap.has (channels this) (channel frame_start))
  then Err (HardError 0 channel_error "Unknown channel")
  else
    '(this, reader) ←
      (if frame_type frame_start =? frame_method then
         '(method_id, reader) ← BufferReader.uint32 reader;
         match DECODERS method_id with
         | None => Err (HardError method_id frame_error "Unknown method_id")
         | Some decoder =>
             match decoder reader with
             | Err _ => Err (HardError method_id frame_error "Decode arguments error")
             | Ok (args, reader) =>
                 Ok (dispatch this (handle_method (channel frame_start) method_id args),
                     reader)
             end
         end
       else if frame_type frame_start =? frame_body then
         let '(body, reader) := BufferReader.body (size frame_start) reader in
         Ok (dispatch this (handle_body (channel frame_start) body), reader)
       else if frame_type frame_start =? frame_header then
         '(class_id, reader) ← BufferReader.uint16 reader;
         match DECODERS class_id with
         | None => Err (HardError (Z.shiftl class_id 16) frame_error
                          "Unknown header class_id")
         | Some decoder =>
             let reader := BufferReader.skip 2 reader in
             '(body_size, reader) ← BufferReader.uint64 reader;
             match decoder reader with
             | Err _ => Err (HardError BASIC_PROPERTIES_METHOD frame_error
                               "Decode properties error")
             | Ok (properties, reader) =>
                 Ok (dispatch this
                       (handle_header (channel frame_start) body_size properties),
                     reader)
             end
         end
       else if frame_type frame_start =? frame_heartbeat then
         Ok (dispatch this (handle_heartbeat (channel frame_start)), reader)
       else Err (HardError 0 frame_error "Unknown frame type"));
    Ok (this, BufferReader.skip 1 reader).

(** The [while] loop of [_decode] and the statement after it. A frame moves
    the reader forward by at least the envelope, so the length of the
    buffer bounds the number of iterations. An exception keeps the calls
    already made. *)
Fixpoint decode_loop (fuel : nat) (buffer : list Z) (frame_start : FrameStart)
    (reader : BufferReader.t) (this : t) : t :=
  match fuel with
  | O => this
  | S fuel' =>
      if size frame_start + 1 + BufferReader._offset reader <=? Buffer.length buffer
      then
        match decode_frame buffer frame_start reader this with
        | Err e => throw this e
        | Ok (this, reader) =>
            let unread := Buffer.length buffer - BufferReader._offset reader in
            if unread <? EMPTY_FRAME_SIZE then
              if negb (unread =? 0)
              then with_cache this
                     (Some (Buffer.subarray buffer (BufferReader._offset reader)
                              (Buffer.length buffer)))
              else this
            else
              match _decodeframestart reader with
              | Err e => throw this e
              | Ok (frame_start, reader) =>
                  decode_loop fuel' buffer frame_start reader this
              end
        end
      else
        if Buffer.length buffer =? BufferReader._offset reader
        then with_cache this
               (Some (Buffer.subarray buffer (BufferReader._offset reader)
                        (Buffer.length buffer)))
        else this
  end.

Definition _decode (buffer : list Z) (this : t) : t :=
  let reader := BufferReader.new buffer in
  match _decodeframestart reader with
  | Err e => throw this e
  | Ok (frame_start, reader) =>
      decode_loop (S (List.length buffer)) buffer frame_start reader this
  end.

Definition METHODS_connection_start : Z := 655370.

Definition _init (buffer : list Z) (this : t) : t :=
  if Buffer.length buffer =? 8 then
    throw this (HardError METHODS_connection_start not_implemented
                  "Protocol version not supported")
  else
    _decode buffer
      (mk (cache this) false (channels this) (dispatched this) (failed this)).

(** [_writevAsync(chunks)]: the chunks the stream hands over in one call.
    A stream that has thrown receives nothing more. *)
Definition _writevAsync (chunks : list (list Z)) (this : t) : t :=
  match failed this with
  | Some _ => this
  | None =>
      let buffers := match cache this with
                     | Some c => c :: chunks
                     | None => chunks
                     end in
      let this := with_cache this None in
      let buffer := concat buffers in
      if Buffer.length buffer <? EMPTY_FRAME_SIZE
      then with_cache this (Some buffer)
      else if decode_is_init this then _init buffer this
      else _decode buffer this
  end.

(** The socket delivers [chunks] one write at a time. *)
Definition receive (chunks : list (list Z)) (this : t) : t :=
  fold_left (fun this chunk => _writevAsync [chunk] this) chunks this.

End Decode.
End DecodeStream.

(** ** [ChannelConsume] and [ConsumeStream] ([lib/consumer.ts]) *)
Module Consumer.
Import Errors Js.

Definition METHODS_basic_consume : Z := 3932180.
Definition METHODS_basic_deliver : Z := 3932220.

(** The arguments of [basic.deliver]. *)
Record BASIC_DELIVER := mkDeliver {
  consumer_tag : string;
  delivery_tag : Z;
  redelivered : bool;
  exchange : string;
  routing_key : string
}.

Inductive ConsumeChunk :=
| body (body : list Z)
| header (properties : option value) (body_size : Z)
| deliver (deliver : BASIC_DELIVER).

(** *** ChannelConsume *)

(** The input queue [_input]: what has been pushed ([None] is the
    end-of-stream sentinel) and whether the stream has been destroyed. *)
Record Input := mkInput {
  pushed : list (option ConsumeChunk);
  input_destroyed : bool
}.

(** [_consumer_tag] is [undefined] until [subscribe] stores the tag of
    [basic.consume-ok]; [destroyed_with] records the error of the call of
    [destroy], if one was made. *)
Record ChannelConsume := mkChannel {
  _input : Input;
  _consumer_tag : option string;
  _cancelled : bool;
  destroyed : bool;
  destroyed_with : option (option Error)
}.

Definition push (i : Input) (c : option ConsumeChunk) : Input :=
  mkInput (pushed i ++ [c]) (input_destroyed i).

(** [ChannelConsume.destroy(error)]; the part inherited from
    [ChannelChildAbstract] is [Channel.destroy]. *)
Definition destroy (this : ChannelConsume) (error : option Error) : ChannelConsume :=
  let input :=
    if negb (input_destroyed (_input this)) && negb (_cancelled this)
    then push (_input this) None else _input this in
  mkChannel input (_consumer_tag this) true true (Some error).

(** [this._consumer_tag && (args.consumer_tag !== this._consumer_tag)]. *)
Definition tag_mismatch (this : ChannelConsume) (args : BASIC_DELIVER) : bool :=
  match _consumer_tag this with
  | None => false
  | Some tag => negb (String.eqb tag "") && negb (String.eqb (consumer_tag args) tag)
  end.

(** The handler registered for [basic.deliver]. *)
Definition on_basic_deliver (this : ChannelConsume) (args : BASIC_DELIVER)
    : ChannelConsume :=
  if tag_mismatch this args then
    destroy this
      (Some (SoftError METHODS_basic_deliver no_consumers "Invalid consumer tag"))
  else if input_destroyed (_input this) then this
  else mkChannel (push (_input this) (Some (deliver args))) (_consumer_tag this)
         (_cancelled this) (destroyed this) (destroyed_with this).

(** The end of [subscribe]: [this._consumer_tag = args.consumer_tag]. *)
Definition on_consume_ok (this : ChannelConsume) (tag : string) : ChannelConsume :=
  mkChannel (_input this) (Some tag) (_cancelled this) (destroyed this)
    (destroyed_with this).

Definition unsubscribe (this : ChannelConsume) : ChannelConsume :=
  if _cancelled this then this
  else mkChannel (push (_input this) None) (_consumer_tag this) true
         (destroyed this) (destroyed_with this).

(** The stream machinery destroys [_input] once it has ended or when the
    pipeline fails. *)
Definition input_closed (this : ChannelConsume) : ChannelConsume :=
  mkChannel (mkInput (pushed (_input this)) true) (_consumer_tag this)
    (_cancelled this) (destroyed this) (destroyed_with this).




(** *** ConsumeStream *)

(** A [ConsumerBodyReadable]: the buffers pushed, and whether [push(null)]
    has closed it. *)
Record Readable := mkReadable { data : list (list Z); ended : bool }.

(** A [ConsumeMessage]; [msg_body] names its readable in the store. The
    [ack] and [nack] closures are left out. *)
Record ConsumeMessage := mkMessage {
  msg_deliver : BASIC_DELIVER;
  msg_properties : option value;
  msg_body : option nat;
  msg_body_size : Z
}.

(** The transformer: [_current], [_wait_size], the readables created so
    far, and the messages pushed downstream. *)
Record ConsumeStream := mkStream {
  _current : option ConsumeMessage;
  _wait_size : Z;
  readables : list Readable;
  downstream : list ConsumeMessage
}.

Definition new_stream : ConsumeStream := mkStream None 0 [] [].

Definition unexpected (text : string) : Error :=
  HardError METHODS_basic_consume unexpected_frame text.

Definition readable_push (rs : list Readable) (r : nat) (b : list Z) : list Readable :=
  match rs !! r with
  | Some x => <[r := mkReadable (data x ++ [b]) (ended x)]> rs
  | None => rs
  end.

Definition readable_end (rs : list Readable) (r : nat) : list Readable :=
  match rs !! r with
  | Some x => <[r := mkReadable (data x) true]> rs
  | None => rs
  end.

Definition flush_message (needPush : bool) (this : ConsumeStream) : res ConsumeStream :=
  match _current this with
  | None => Err (PlainError "Unexprected missed current")
  | Some current =>
      let rs := match msg_body current with
                | Some r => readable_end (readables this) r
                | None => readables this
                end in
      let down := if needPush then downstream this ++ [current]
                  else downstream this in
      Ok (mkStream None 0 rs down)
  end.

Definition _writeAsync (chunk : ConsumeChunk) (this : ConsumeStream) : res ConsumeStream :=
  let current := _current this in
  match chunk with
  | deliver d =>
      match current with
      | Some _ => Err (unexpected "Unexpected not finished message on deliver")
      | None =>
          Ok (mkStream (Some (mkMessage d None None 0)) (_wait_size this)
                (readables this) (downstream this))
      end
  | header properties body_size =>
      match current with
      | None => Err (unexpected "Unexpected header")
      | Some current =>
          match msg_properties current with
          | Some _ => Err (unexpected "Unexpected header")
          | None =>
              let properties := match properties with
                                | Some p => p
                                | None => VObject []
                                end in
              if negb (body_size =? 0) then
                let r := length (readables this) in
                let current :=
                  mkMessage (msg_deliver current) (Some properties) (Some r)
                    body_size in
                Ok (mkStream (Some current) body_size
                      (readables this ++ [mkReadable [] false])
                      (downstream this ++ [current]))
              else
                flush_message true
                  (mkStream
                     (Some (mkMessage (msg_deliver current) (Some properties)
                              (msg_body current) (msg_body_size current)))
                     (_wait_size this) (readables this) (downstream this))
          end
      end
  | body b =>
      match current with
      | None => Err (unexpected "Unexpected body")
      | Some current =>
          match msg_properties current with
          | None => Err (unexpected "Unexpected body")
          | Some _ =>
              if Buffer.length b =? 0 then Ok this
              else
                let wait_size := _wait_size this - Buffer.length b in
                if wait_size <? 0 then Err (unexpected "Body size exceeded")
                else
                  match msg_body current with
                  | None => Err (unexpected "Body size exceeded")
                  | Some r =>
                      let this :=
                        mkStream (_current this) (_wait_size this)
                          (readable_push (readables this) r b) (downstream this) in
                      if wait_size =? 0 then flush_message false this
                      else Ok (mkStream (_current this) wait_size
                                 (readables this) (downstream this))
                  end
          end
      end
  end.

(** The chunks are written one after the other; the first exception ends
    the stream, which keeps what it had done. *)
Fixpoint feed (chunks : list ConsumeChunk) (this : ConsumeStream)
    : ConsumeStream * option Error :=
  match chunks with
  | [] => (this, None)
  | c :: rest =>
      match _writeAsync c this with
      | Ok this' => feed rest this'
      | Err e => (this, Some e)
      end
  end.

(** Total length of a list of buffers. *)
Definition total_length (bs : list (list Z)) : Z :=
  fold_right (fun b n => Buffer.length b + n) 0 bs.
Arguments total_length : simpl never.


End Consumer.

(** ** Statements about content assembly used by the theorems *)
Module Assembly.
Import Consumer.



End Assembly.

(** ** Statements about octets in buffers used by the theorems *)
Module Octets.

(** Every element is an octet. *)
Definition octets (l : list Z) : Prop := Forall (fun x => 0 <= x < 256) l.

(** The buffer [B] holds [bs] at offset [o]. *)
Definition holds (B : list Z) (o : Z) (bs : list Z) : Prop :=
  0 <= o /\ o + Buffer.length bs <= Buffer.length B /\
  forall j, (j < length bs)%nat -> B !! (Z.to_nat o + j)%nat = bs !! j.

End Octets.

(** ** Statements about the writer used by the theorems *)
Module WriterSpec.
Import BufferWriter.

(** A growable writer whose cursor is at most four octets past the end of
    its buffer ([table] and [array] move the cursor over the length prefix
    before anything is stored there). *)
Definition room (W : t) : Prop :=
  dynamic W = true /\ 0 <= _offset W /\
  _offset W <= Buffer.length (_buffer W) + 4.

(** Between [W] and [W'] the octets [bs] were appended at the cursor of [W]:
    the cursor moved past them, the buffer did not shrink, what was in front
    of the cursor is still there, and [bs] follows it. *)
Definition wrote (W W' : t) (bs : list Z) : Prop :=
  dynamic W' = dynamic W /\
  _offset W' = _offset W + Buffer.length bs /\
  (bs = [] \/ _offset W' <= Buffer.length (_buffer W')) /\
  (length (_buffer W) <= length (_buffer W'))%nat /\
  (forall i, (i < Z.to_nat (_offset W))%nat -> (i < length (_buffer W))%nat ->
             _buffer W' !! i = _buffer W !! i) /\
  (forall j, (j < length bs)%nat ->
             _buffer W' !! (Z.to_nat (_offset W) + j)%nat = bs !! j).

(** [b'] is [b] with [bs] stored at [o]. *)
Definition puts (o : Z) (bs b b' : list Z) : Prop :=
  0 <= o /\ o + Buffer.length bs <= Buffer.length b /\
  length b' = length b /\
  (forall i, (i < Z.to_nat o)%nat -> b' !! i = b !! i) /\
  (forall j, (j < length bs)%nat -> b' !! (Z.to_nat o + j)%nat = bs !! j) /\
  (forall i, (Z.to_nat o + length bs <= i)%nat -> b' !! i = b !! i).

(** A callback of [safewrite] that, when it returns in a buffer with space
    for [bs], has stored [bs] at the cursor and established [P]. *)
Definition stores (callback : t -> Errors.res t) (bs : list Z) (P : Prop) : Prop :=
  forall X X',
    0 <= _offset X ->
    _offset X + Buffer.length bs <= Buffer.length (_buffer X) ->
    callback X = Errors.Ok X' ->
    P /\ exists b', X' = with_buffer X b' /\ puts (_offset X) bs (_buffer X) b'.

(** A growable writer whose cursor is inside its buffer: the state between
    two calls of the methods of the writer. *)
Definition tight (W : t) : Prop :=
  dynamic W = true /\ 0 <= _offset W /\ _offset W <= Buffer.length (_buffer W).

(** An encoder that appends octets when it returns. *)
Definition appends (encode : t -> Errors.res t) : Prop :=
  forall W W', tight W -> encode W = Errors.Ok W' -> exists bs, wrote W W' bs.

End WriterSpec.

(** ** Frames as the helpers and the generated encoders emit them *)
Module Frame.
Import Errors BufferWriter WriterSpec.

Section Emit.
Context `{Buffer.Memory}.

(** A generated encoder of a method with arguments of variable size:
    [new BufferWriter(size, true)], [methodstart(channel, 0, id)], the
    arguments, [frameend()], [setframelength()], [writeSocket]. *)
Definition method_frame (size channel method_id : Z)
    (arguments : t -> res t) : res (list Z) :=
  let writer := new size true in
  writer ← methodstart channel 0 method_id writer;
  writer ← arguments writer;
  writer ← frameend writer;
  writer ← setframelength writer;
  Ok (socket_octets writer).

(** A generated encoder of a content header: the same with
    [headerstart(channel, class_id, body_size)]. *)
Definition header_frame (size channel class_id body_size : Z)
    (properties : t -> res t) : res (list Z) :=
  let writer := new size true in
  writer ← headerstart channel class_id body_size writer;
  writer ← properties writer;
  writer ← frameend writer;
  writer ← setframelength writer;
  Ok (socket_octets writer).

(** The octets handed to the socket by the writer helpers. *)
Inductive emitted : list Z -> Prop :=
  | emitted_void (method_id channel : Z) (out : list Z) :
      writeVoid method_id channel = Ok out -> emitted out
  | emitted_body (channel : Z) (body out : list Z) :
      writeBodyOne channel body = Ok out -> emitted out
  | emitted_heartbeat (out : list Z) :
      writeHeartbeat = Ok out -> emitted out
  | emitted_method (size channel method_id : Z) (arguments : t -> res t)
      (out : list Z) :
      appends arguments ->
      method_frame size channel method_id arguments = Ok out -> emitted out
  | emitted_header (size channel class_id body_size : Z)
      (properties : t -> res t) (out : list Z) :
      appends properties ->
      header_frame size channel class_id body_size properties = Ok out ->
      emitted out.

End Emit.

(** The frame of AMQP 0-9-1: type, channel, size of the payload, payload,
    frame end. *)
Definition envelope (frame_type channel : Z) (payload : list Z) : list Z :=
  [frame_type] ++ Buffer.be_octets 2 channel
    ++ Buffer.be_octets 4 (Buffer.length payload) ++ payload
    ++ [Codec.frame_end].

(** The value of the size field of a frame, its length and its last octet. *)
Definition sized (out : list Z) (payload_size total : Z) : Prop :=
  Buffer.readUIntBE out 3 4 = Ok payload_size /\
  Buffer.length out = total /\
  List.last out 0 = Codec.frame_end.

(** Memory whose unwritten octets are zero. *)
Definition zero_memory : Buffer.Memory := {| Buffer.junk := fun _ => 0 |}.

End Frame.

(** ** Values that the field codecs carry *)
Module Carried.
Import Errors Js Codec.

Fixpoint distinct (keys : list string) : bool :=
  match keys with
  | [] => true
  | key :: rest => negb (existsb (String.eqb key) rest) && distinct rest
  end.

(** The values of a field table that are read back as they were written:
    booleans, integers that get an integer tag, bigints, strings, buffers,
    and the arrays and tables made of them, a table being a plain object
    with its own properties only. Left out are [null] (written as void and
    read as [undefined]), dates (no timestamp is ever read), and the numbers
    stored as a double. *)
Fixpoint storable (v : value) : bool :=
  match v with
  | VUndefined | VNull | VFloat _ | VDate _ => false
  | VBoolean _ | VBigInt _ | VString _ | VBuffer _ => true
  | VNumber n => (-2147483648 <=? n) && (n <? 4294967296)
  | VArray items => forallb storable items
  | VObject fields =>
      forallb (fun field => storable (snd field)) fields
      && distinct (map fst fields)
      && negb (existsb (String.eqb "__proto__") (map fst fields))
  end.

(** The values that a method of the writer takes and the method of the same
    name of the reader returns. *)
Definition storable_as (method : Method) (v : value) : bool :=
  match method, v with
  | Mboolean, VBoolean _ => true
  | (Mint8 | Muint8 | Mint16 | Muint16 | Mint32 | Muint32 | Mdecimal), VNumber _ =>
      true
  | (Mint64 | Muint64), VBigInt _ => true
  | (Mshortstr | Mlongstr), VString _ => true
  | Mbinary, VBuffer _ => true
  | Mvoid, VUndefined => true
  | Mtable, VObject _ => storable v
  | Marray, VArray _ => storable v
  | _, _ => false
  end.

(** The reader of the octets that a writer hands to the socket, placed where
    the writer [W] stood before it wrote. *)
Definition read_back (W W' : BufferWriter.t) : BufferReader.t :=
  BufferReader.mk (BufferWriter.socket_octets W') (BufferWriter._offset W).

(** The same reader once it has read up to the cursor of [W']. *)
Definition read_end (W' : BufferWriter.t) : BufferReader.t :=
  BufferReader.mk (BufferWriter.socket_octets W') (BufferWriter._offset W').

Section Reads.
Context `{Buffer.FloatOps}.

(** The octets [bs], wherever a buffer holds them, are read as [v]. *)
Definition reads (v : value) (bs : list Z) : Prop :=
  forall (B : list Z) (o : Z) (fuel : nat),
    Octets.holds B o bs -> (List.length bs <= fuel)%nat ->
    BufferReader.tableitem_fuel fuel (BufferReader.mk B o)
    = Ok (v, BufferReader.mk B (o + Buffer.length bs)).

Definition reads_scalar (method : Method) (v : value) (bs : list Z) : Prop :=
  forall (B : list Z) (o : Z),
    Octets.holds B o bs ->
    BufferReader.scalar method (BufferReader.mk B o)
    = Ok (v, BufferReader.mk B (o + Buffer.length bs)).

Definition reads_array (items : list value) (bs : list Z) : Prop :=
  forall (B : list Z) (o : Z) (fuel : nat) (acc : list value),
    Octets.holds B o bs -> (List.length bs < fuel)%nat ->
    BufferReader.array_loop fuel (o + Buffer.length bs) acc (BufferReader.mk B o)
    = Ok (acc ++ items, BufferReader.mk B (o + Buffer.length bs)).

Definition reads_fields (fields : list (string * value)) (bs : list Z) : Prop :=
  forall (B : list Z) (o : Z) (fuel : nat) (acc : list (string * value)),
    Octets.holds B o bs -> (List.length bs < fuel)%nat ->
    BufferReader.tableitems_loop fuel (o + Buffer.length bs) acc
      (BufferReader.mk B o)
    = Ok (fold_left (fun result field => object_set result (fst field) (snd field))
            fields acc,
          BufferReader.mk B (o + Buffer.length bs)).

End Reads.

(** Floating-point accessors that store zeros, for the examples. *)
Definition zero_floats : Buffer.FloatOps :=
  {| Buffer.writeDouble_octets := fun _ => [0; 0; 0; 0; 0; 0; 0; 0];
     Buffer.writeFloat_octets := fun _ => [0; 0; 0; 0];
     Buffer.readDouble_value := fun _ => VNumber 0;
     Buffer.readFloat_value := fun _ => VNumber 0;
     Buffer.decimal_quotient := fun _ _ => VNumber 0;
     Buffer.writeDouble_octets_length := fun _ => eq_refl;
     Buffer.writeFloat_octets_length := fun _ => eq_refl |}.

End Carried.

(** ** What the round trip of a table item amounts to *)
Module ItemSpec.
Import Errors Js Codec WriterSpec Carried.

Section Item.
Context `{Buffer.Memory} `{Buffer.FloatOps}.

(** A storable value that [tableitem] has written is read back from the
    octets appended. *)
Definition carries (v : value) : Prop :=
  storable v = true ->
  forall W W', room W -> BufferWriter.tableitem v W = Ok W' ->
    exists bs, wrote W W' bs /\ bs <> [] /\ reads v bs.

End Item.
End ItemSpec.

(** ** [Connection.open]: the tune negotiation ([lib/channel.ts]) *)
Module Tune.


End Tune.

(** ** Statements about sequences of messages used by the theorems *)
Module Messages.
Import Consumer.

(** A message as the broker sends it on a consumer channel: a
    [basic.deliver], a content header and the body frames. *)
Record Message := mkMsg {
  m_deliver : BASIC_DELIVER;
  m_properties : option Js.value;
  m_chunks : list (list Z)
}.

(** The chunks [ChannelConsume] pushes for a message; the header announces
    the size of the whole body. *)
Definition chunks_of (m : Message) : list ConsumeChunk :=
  [deliver (m_deliver m); header (m_properties m) (total_length (m_chunks m))]
  ++ map body (m_chunks m).

(** No body frame of the message is empty. *)
Definition solid (m : Message) : Prop :=
  Forall (fun b => 0 < Buffer.length b) (m_chunks m).

(** What the transformer has made of [m]: the message [cm] pushed
    downstream, with a closed readable of its own that received exactly the
    body frames, or with no readable at all when there is no body. *)
Definition delivered_as (this : ConsumeStream) (m : Message) (cm : ConsumeMessage)
    : Prop :=
  msg_deliver cm = m_deliver m /\
  msg_properties cm = Some (match m_properties m with
                            | Some p => p
                            | None => Js.VObject []
                            end) /\
  msg_body_size cm = total_length (m_chunks m) /\
  match msg_body cm with
  | Some r => m_chunks m <> [] /\
              readables this !! r = Some (mkReadable (m_chunks m) true)
  | None => m_chunks m = []
  end.

(** The readables of the messages in [cms] are pairwise different. *)
Definition own_readables (cms : list ConsumeMessage) : Prop :=
  List.NoDup (omap msg_body cms).

End Messages.

(** ** The life of a [ChannelConsume] ([lib/consumer.ts]) *)
Module ConsumerLife.
Import Errors Consumer.

Definition METHODS_basic_cancel : Z := 3932190.

(** The channel object right after its construction. *)
Definition new : ChannelConsume :=
  mkChannel (mkInput [] false) None false false None.

(** [handle_body] and [handle_header], as run by [process.nextTick]. *)
Definition handle_body (this : ChannelConsume) (b : list Z) : ChannelConsume :=
  if input_destroyed (_input this) then this
  else mkChannel (push (_input this) (Some (body b))) (_consumer_tag this)
         (_cancelled this) (destroyed this) (destroyed_with this).

Definition handle_header (this : ChannelConsume) (body_size : Z)
    (properties : option Js.value) : ChannelConsume :=
  if input_destroyed (_input this) then this
  else mkChannel (push (_input this) (Some (header properties body_size)))
         (_consumer_tag this) (_cancelled this) (destroyed this)
         (destroyed_with this).

(** The handler registered for [basic.cancel]: once [basic.cancel-ok] is
    written the channel destroys itself. *)
Definition on_basic_cancel (this : ChannelConsume) : ChannelConsume :=
  if _cancelled this then this
  else destroy this
         (Some (HardError METHODS_basic_cancel connection_forced "Consumer cancelled")).

(** What can happen to the channel. *)
Inductive Op :=
| OpDeliver (args : BASIC_DELIVER)
| OpHeader (body_size : Z) (properties : option Js.value)
| OpBody (b : list Z)
| OpConsumeOk (tag : string)
| OpUnsubscribe
| OpCancel
| OpDestroy (error : option Error)
| OpInputClosed.

Definition step (this : ChannelConsume) (op : Op) : ChannelConsume :=
  match op with
  | OpDeliver args => on_basic_deliver this args
  | OpHeader body_size properties => handle_header this body_size properties
  | OpBody b => handle_body this b
  | OpConsumeOk tag => on_consume_ok this tag
  | OpUnsubscribe => unsubscribe this
  | OpCancel => on_basic_cancel this
  | OpDestroy error => destroy this error
  | OpInputClosed => input_closed this
  end.

Definition run (ops : list Op) (this : ChannelConsume) : ChannelConsume :=
  fold_left step ops this.

(** Number of end-of-stream sentinels among the pushed chunks. *)
Definition ends (pushed : list (option ConsumeChunk)) : nat :=
  length (List.filter (fun c => match c with None => true | Some _ => false end)
            pushed).

End ConsumerLife.

(** ** What the writer helpers send and what [DecodeStream] calls *)
Module Wire.
Import Errors Js DecodeStream.



Section Wire.
Context `{Buffer.Memory}.
Variable DECODERS : Z -> option (BufferReader.t -> res (value * BufferReader.t)).


End Wire.



End Wire.

(** ** SASL mechanisms ([lib/sasl.ts]) *)
Module Sasl.

(** [String.fromCharCode(0)]. *)
Definition char0 : ascii := Ascii.zero.

(** [value.split(separator)] for a separator of one character: the part in
    front of the first separator and the parts after it. *)
Fixpoint split_from (separator : ascii) (value : string) : string * list string :=
  match value with
  | EmptyString => (EmptyString, [])
  | String c rest =>
      let (part, parts) := split_from separator rest in
      if Ascii.eqb c separator then (EmptyString, part :: parts)
      else (String c part, parts)
  end.

Definition split (separator : ascii) (value : string) : list string :=
  let (part, parts) := split_from separator value in part :: parts.

(** [PLAIN.encode]: [["", user, password].join(char0)]. *)
Definition PLAIN_encode (user password : string) : string :=
  String.concat (String char0 EmptyString) [EmptyString; user; password].

(** [PLAIN.decode]: [const [, user, password] = value.split(char0)]; a
    missing element is [undefined], here [None]. *)
Definition PLAIN_decode (value : string) : option string * option string :=
  let parts := split char0 value in
  (parts !! 1%nat, parts !! 2%nat).

(** The character [c] does not occur in [s]. *)
Definition free_of (c : ascii) (s : string) : Prop :=
  ~ In c (list_ascii_of_string s).

Section AMQPLAIN.
Context `{Buffer.Memory} `{Buffer.FloatOps}.

(** [AMQPLAIN.encode]: the items of [{ LOGIN: user, PASSWORD: password }]
    written by a growable writer and turned into a string. *)
Definition AMQPLAIN_encode (user password : string) : Errors.res string :=
  let writer :=
    BufferWriter.new
      (23 + Buffer.byteLength user + Buffer.byteLength password) true in
  writer ← BufferWriter.tableitems
             [("LOGIN"%string, Js.VString user);
              ("PASSWORD"%string, Js.VString password)] writer;
  Errors.Ok (Buffer.toString (BufferWriter._buffer writer) 0
               (BufferWriter._offset writer)).

(** [AMQPLAIN.decode]: [reader.tableitems("$")] on [Buffer.from(value)] and
    the properties [LOGIN] and [PASSWORD] of the result; a missing property
    is [undefined], here [None]. *)
Definition AMQPLAIN_decode (value : string)
    : Errors.res (option Js.value * option Js.value) :=
  let reader := BufferReader.new (Buffer.octets_of_string value) in
  '(fields, _) ← BufferReader.tableitems None reader;
  Errors.Ok (Js.object_get fields "LOGIN", Js.object_get fields "PASSWORD").

End AMQPLAIN.

End Sasl.

(** ** [writeBody] ([proto/codec.ts]) *)
Module BodyFrames.
Import Errors BufferWriter.

Section BodyFrames.
Context `{Buffer.Memory}.



End BodyFrames.
End BodyFrames.

(** ** Statements about the reader used by the theorems *)
Module ReaderSpec.
Import Errors.

(** The octets in front of the cursor of [R]. *)
Definition unread (R : BufferReader.t) : Z :=
  Z.max 0 (Buffer.length (BufferReader._buffer R) - BufferReader._offset R).

(** A result of a method called on [R]: an exception that the code throws,
    or a value together with the reader at least [least] octets further in
    the same buffer, [least] octets having been in front of the cursor.
    Running out of fuel is neither. *)
Definition advances {A} (R : BufferReader.t) (least : Z)
    (r : res (A * BufferReader.t)) : Prop :=
  match r with
  | Ok (_, R') =>
      BufferReader._buffer R' = BufferReader._buffer R /\
      BufferReader._offset R + least <= BufferReader._offset R' /\
      least <= unread R
  | Err e => e <> PlainError "out of fuel"
  end.

End ReaderSpec.

(** ** The content header in the generated code ([proto/api.ts]) *)
Module Api.
Import Errors Js Codec.



Section Publish.
Context `{Buffer.Memory} `{Buffer.FloatOps}.

(** One statement of [publish_header]:
    [if (key in value) { flag = flag | bit; writer.method(path, value.key); }]. *)
Definition write_property (value : list (string * value)) (key : string)
    (bit : Z) (method : Method) (state : Z * BufferWriter.t)
    : res (Z * BufferWriter.t) :=
  let (flag, writer) := state in
  match object_get value key with
  | Some v =>
      writer ← BufferWriter.call method v writer;
      Ok (Z.lor flag bit, writer)
  | None => Ok (flag, writer)
  end.

(** [API.publish_header(socket, channel, value, body_size)]: the octets
    handed to the socket, or [None] when the function returns without
    calling [writeSocket]. *)
Definition publish_header (channel : Z) (value : list (string * value))
    (body_size : Z) : res (option (list Z)) :=
  let writer := BufferWriter.new frame_min_size true in
  writer ← BufferWriter.headerstart channel 60 body_size writer;
  let flag_offset := BufferWriter._offset writer in
  writer ← BufferWriter.uint16 0 writer;
  if Z.of_nat (List.length value) =? 0 then Ok None
  else
    state ← write_property value "content_type" 32768 Mshortstr (0, writer);
    state ← write_property value "content_encoding" 16384 Mshortstr state;
    state ← write_property value "headers" 8192 Mtable state;
    state ← write_property value "delivery_mode" 4096 Muint8 state;
    state ← write_property value "priority" 2048 Muint8 state;
    state ← write_property value "correlation_id" 1024 Mshortstr state;
    state ← write_property value "reply_to" 512 Mshortstr state;
    state ← write_property value "expiration" 256 Mshortstr state;
    state ← write_property value "message_id" 128 Mshortstr state;
    state ← write_property value "timestamp" 64 Mtimestamp state;
    state ← write_property value "type" 32 Mshortstr state;
    state ← write_property value "user_id" 16 Mshortstr state;
    state ← write_property value "app_id" 8 Mshortstr state;
    b ← Buffer.writeUIntBE (BufferWriter._buffer (snd state)) (fst state)
          flag_offset 2;
    let writer := BufferWriter.with_buffer (snd state) b in
    writer ← BufferWriter.frameend writer;
    writer ← BufferWriter.setframelength writer;
    Ok (Some (BufferWriter.socket_octets writer)).

End Publish.










End Api.

(** ** [CloneArray], [CloneObject] and [MergeObjects] ([lib/utils.ts]) *)
Module Utils.
Import Errors Js.

(** The property names of [Object.prototype], which [key in result] finds
    in every object made by [{}]. *)
Definition OBJECT_PROTOTYPE : list string :=
  ["constructor"; "__defineGetter__"; "__defineSetter__"; "hasOwnProperty";
   "__lookupGetter__"; "__lookupSetter__"; "isPrototypeOf";
   "propertyIsEnumerable"; "toString"; "valueOf"; "__proto__";
   "toLocaleString"]%string.

(** [key in result] for a plain object. *)
Definition key_in (key : string) (result : list (string * value)) : bool :=
  object_has result key || existsb (String.eqb key) OBJECT_PROTOTYPE.

(** What [CloneArray], [CloneObject] and [MergeObjects] store for an
    element or a property value: [CloneArray(value)] for an array,
    [CloneObject(value)] for any other object ([new Date(...)] for a date,
    a copy for a buffer, a new object filled by assignment otherwise), the
    value itself when [typeof value] is not ['object'] or the value is
    [null]. *)
Fixpoint clone (v : value) : value :=
  match v with
  | VArray items => VArray (map clone items)
  | VObject fields =>
      VObject
        ((fix loop (fields : list (string * value))
              (result : list (string * value)) : list (string * value) :=
            match fields with
            | [] => result
            | (key, x) :: rest => loop rest (object_set result key (clone x))
            end) fields [])
  | VDate ms => VDate ms
  | VBuffer octets => VBuffer octets
  | _ => v
  end.

Definition CloneArray (arr : list value) : list value := map clone arr.

(** [CloneObject(source)] for a plain object. *)
Definition CloneObject (source : list (string * value)) : list (string * value) :=
  fold_left (fun result field => object_set result (fst field) (clone (snd field)))
    source [].

(** One round of the outer loop of [MergeObjects]: the properties of
    [object] that [result] does not have. *)
Definition merge_into (result object : list (string * value))
    : list (string * value) :=
  fold_left (fun result field =>
               if key_in (fst field) result then result
               else object_set result (fst field) (clone (snd field)))
    object result.

(** [MergeObjects(...objects)] for plain objects: the last one is cloned,
    the others are merged in from the last but one down to the first. *)
Definition MergeObjects (objects : list (list (string * value)))
    : res (list (string * value)) :=
  if Z.of_nat (List.length objects) <? 2 then
    Err (PlainError "Invalid use, required at least two object for merge")
  else
    let result := CloneObject (List.last objects []) in
    Ok (fold_left merge_into (rev (removelast objects)) result).

(** The first value found. *)
Fixpoint first_some {A} (l : list (option A)) : option A :=
  match l with
  | [] => None
  | Some a :: _ => Some a
  | None :: rest => first_some rest
  end.

(** An object as the list of its own properties: no name twice. *)
Definition plain (object : list (string * value)) : Prop :=
  List.NoDup (map fst object).

(** The values made of plain objects none of which has an own property
    [__proto__], at any depth. *)
Fixpoint proper (v : value) : Prop :=
  match v with
  | VArray items =>
      (fix all (items : list value) : Prop :=
         match items with
         | [] => True
         | x :: rest => proper x /\ all rest
         end) items
  | VObject fields =>
      plain fields /\ object_get fields "__proto__" = None /\
      (fix all (fields : list (string * value)) : Prop :=
         match fields with
         | [] => True
         | field :: rest => proper (snd field) /\ all rest
         end) fields
  | _ => True
  end.

End Utils.

(* ===================================================================== *)
(** * Part II: theorems                                                   *)
(* ===================================================================== *)

(** ** UniqueFactory *)

Lemma generate_keeps_factory (f : UniqueFactory.t) (now : Z) :
  snd (UniqueFactory.generate f now) = f.
Proof. reflexivity. Qed.

(** C7. Two successive calls of [generate()] within one millisecond return
    ids that compare equal, whatever the factory holds: the stored
    [last_id] is never refreshed, so the second id is not greater than the
    first. *)
Theorem generate_same_ms_compare_zero (f : UniqueFactory.t) (now : Z) :
  let (id1, f1) := UniqueFactory.generate f now in
  let (id2, _) := UniqueFactory.generate f1 now in
  UniqueId.compare id1 id2 = 0 /\ ~ UniqueId.compare id1 id2 < 0.
Proof.
  unfold UniqueFactory.generate, UniqueId.compare; cbn.
  destruct (now =? _); cbn; rewrite Z.sub_diag; cbn; lia.
Qed.

(** ** Insertion-ordered maps *)
Section JsMapFacts.
Context {V : Type}.
Implicit Types (m : list (Z * V)) (k : Z) (v : V).

Lemma JsMap_has_In m k : JsMap.has m k = true <-> In k (JsMap.keys m).
Proof.
  unfold JsMap.has. induction m as [|[k' v'] m IH]; cbn.
  - split; [discriminate | tauto].
  - destruct (Z.eqb_spec k' k) as [->|Hne].
    + split; auto.
    + rewrite IH. split; [auto | intros [?|?]; [congruence | auto]].
Qed.

Lemma JsMap_has_false m k : JsMap.has m k = false <-> ~ In k (JsMap.keys m).
Proof.
  rewrite <- JsMap_has_In. destruct (JsMap.has m k); split; congruence.
Qed.

Lemma JsMap_keys_set m k v :
  JsMap.keys (JsMap.set m k v) =
  if JsMap.has m k then JsMap.keys m else JsMap.keys m ++ [k].
Proof.
  unfold JsMap.has, JsMap.keys.
  induction m as [|[k' v'] m IH]; cbn; [reflexivity|].
  destruct (Z.eqb_spec k' k) as [->|Hne]; cbn; [reflexivity|].
  rewrite IH. destruct (JsMap.get m k); reflexivity.
Qed.


Lemma JsMap_get_set m k v k' :
  JsMap.get (JsMap.set m k v) k' = if k =? k' then Some v else JsMap.get m k'.
Proof.
  induction m as [|[k0 v0] m IH]; cbn.
  - destruct (k =? k'); reflexivity.
  - destruct (Z.eqb_spec k0 k) as [->|Hne]; cbn.
    + destruct (k =? k'); reflexivity.
    + rewrite IH. destruct (Z.eqb_spec k0 k') as [->|Hne'].
      * destruct (Z.eqb_spec k k'); [congruence | reflexivity].
      * reflexivity.
Qed.

Lemma JsMap_get_Some_In m k v : JsMap.get m k = Some v -> In k (JsMap.keys m).
Proof.
  intros H. apply JsMap_has_In. unfold JsMap.has. rewrite H. reflexivity.
Qed.

Lemma JsMap_keys_delete_incl m k x :
  In x (JsMap.keys (JsMap.delete m k)) -> In x (JsMap.keys m).
Proof.
  induction m as [|[k' v'] m IH]; cbn; [tauto|].
  destruct (k' =? k); cbn; intuition.
Qed.

Lemma JsMap_keys_delete_NoDup m k :
  List.NoDup (JsMap.keys m) -> List.NoDup (JsMap.keys (JsMap.delete m k)).
Proof.
  induction m as [|[k' v'] m IH]; cbn; [auto|].
  intros H. inversion H as [|? ? Hnin Hnd]; subst.
  destruct (k' =? k); cbn; [assumption|].
  constructor; [|auto].
  intros Hin. apply Hnin. eapply JsMap_keys_delete_incl; eauto.
Qed.

Lemma JsMap_keys_set_NoDup m k v :
  List.NoDup (JsMap.keys m) -> List.NoDup (JsMap.keys (JsMap.set m k v)).
Proof.
  intros H. rewrite JsMap_keys_set.
  destruct (JsMap.has m k) eqn:E; [assumption|].
  apply JsMap_has_false in E.
  apply NoDup_ListNoDup, NoDup_app. split_and!.
  - by apply NoDup_ListNoDup.
  - intros x Hx Hx'. apply list_elem_of_In in Hx.
    apply list_elem_of_singleton in Hx'. congruence.
  - apply NoDup_singleton.
Qed.

End JsMapFacts.


Section ArraySort.
Context {A : Type} (str : A -> string).

Lemma sort_insert_length x l :
  length (Js.sort_insert str x l) = S (length l).
Proof.
  induction l as [|y ys IH]; cbn; [reflexivity|].
  destruct (Js.string_lt _ _); cbn; congruence.
Qed.

Lemma Array_sort_cons x l :
  Js.Array_sort str (x :: l) = Js.sort_insert str x (Js.Array_sort str l).
Proof. reflexivity. Qed.

Lemma Array_sort_length l : length (Js.Array_sort str l) = length l.
Proof.
  induction l as [|x l IH]; [reflexivity|].
  rewrite Array_sort_cons, sort_insert_length. cbn. f_equal. exact IH.
Qed.

Lemma sort_insert_In x l y :
  In y (Js.sort_insert str x l) <-> y = x \/ In y l.
Proof.
  induction l as [|z zs IH]; cbn; [intuition|].
  destruct (Js.string_lt _ _); cbn; [rewrite IH|]; intuition.
Qed.

Lemma Array_sort_In l y : In y (Js.Array_sort str l) <-> In y l.
Proof.
  induction l as [|x l IH]; [cbn; tauto|].
  rewrite Array_sort_cons, sort_insert_In, IH. cbn. intuition.
Qed.


End ArraySort.

(** ** Connection: channel allocation *)
Section ChannelAllocation.
Import Connection Errors ChannelIds.

Example sort_ten : Js.Array_sort Js.ToString [1;2;3;4;5;6;7;8;9;10] = [1;10;2;3;4;5;6;7;8;9].
Proof. vm_compute. reflexivity. Qed.

Example choose_id_gap : choose_id [(1, 0%nat); (4, 3%nat)] = 3.
Proof. vm_compute. reflexivity. Qed.

(** *** Counting ids in a range *)

Lemma ids_in_range_incl (l : list Z) (M : Z) :
  Forall (fun k => 1 <= k <= M) l ->
  incl l (map Z.of_nat (seq 1 (Z.to_nat M))).
Proof.
  intros HF k Hk. rewrite List.Forall_forall in HF. specialize (HF k Hk).
  apply in_map_iff. exists (Z.to_nat k). split; [lia|].
  apply in_seq. lia.
Qed.

Lemma ids_in_range_length (l : list Z) (M : Z) :
  0 <= M -> List.NoDup l -> Forall (fun k => 1 <= k <= M) l ->
  Z.of_nat (length l) <= M.
Proof.
  intros HM Hnd HF.
  pose proof (NoDup_incl_length Hnd (ids_in_range_incl l M HF)) as H.
  rewrite length_map, length_seq in H. lia.
Qed.

Lemma ids_in_range_full (l : list Z) (M : Z) :
  List.NoDup l -> Forall (fun k => 1 <= k <= M) l ->
  M <= Z.of_nat (length l) -> no_gap l M.
Proof.
  intros Hnd HF Hlen k Hk.
  apply (NoDup_length_incl Hnd (l' := map Z.of_nat (seq 1 (Z.to_nat M)))).
  - rewrite length_map, length_seq. lia.
  - apply ids_in_range_incl, HF.
  - apply in_map_iff. exists (Z.to_nat k). split; [lia|]. apply in_seq. lia.
Qed.

Lemma max_id_ge (l : list Z) (x : Z) : In x l -> x <= max_id l.
Proof.
  induction l as [|y l IH]; cbn; [tauto|].
  intros [->|H]; [lia|]. specialize (IH H). fold (max_id l). lia.
Qed.

Lemma max_id_nonneg (l : list Z) : 0 <= max_id l.
Proof. induction l as [|y l IH]; cbn; [lia|]. fold (max_id l). lia. Qed.

Lemma max_id_In (l : list Z) :
  l <> [] -> Forall (fun k => 1 <= k) l -> In (max_id l) l.
Proof.
  induction l as [|y l IH]; [congruence|]. intros _ HF.
  inversion HF as [|? ? Hy HF']; subst. cbn. fold (max_id l).
  destruct l as [|z l'].
  - left. cbn. lia.
  - destruct (Z.max_spec y (max_id (z :: l'))) as [[? ->]|[? ->]].
    + right. apply IH; [congruence | assumption].
    + left. reflexivity.
Qed.

(** *** The downward search *)

Lemma find_free_spec (chs : list (Z * nat)) (i : nat) (id : Z) :
  let r := find_free chs i id in
  (1 <= r <= Z.of_nat i /\ ~ In r (JsMap.keys chs) /\
   forall j, r < j <= Z.of_nat i -> In j (JsMap.keys chs))
  \/ (r = id /\ forall j, 1 <= j <= Z.of_nat i -> In j (JsMap.keys chs)).
Proof.
  induction i as [|i IH]; cbn [find_free].
  - right. split; [reflexivity | lia].
  - destruct (JsMap.has chs (Z.of_nat (S i))) eqn:E; cbn [negb].
    + apply JsMap_has_In in E.
      destruct IH as [(Hr & Hn & Hj)|[Hr Hj]].
      * left. split; [lia|]. split; [assumption|].
        intros j Hjr. destruct (Z.eq_dec j (Z.of_nat (S i))) as [->|]; [assumption|].
        apply Hj. lia.
      * right. split; [assumption|].
        intros j Hjr. destruct (Z.eq_dec j (Z.of_nat (S i))) as [->|]; [assumption|].
        apply Hj. lia.
    + apply JsMap_has_false in E. left. split; [lia|]. split; [assumption|]. lia.
Qed.

(** *** Invariant of the reachable states *)

Lemma last_In {A} (l : list A) (d : A) : l <> [] -> In (List.last l d) l.
Proof.
  induction l as [|x l IH]; [congruence|]. intros _.
  destruct l as [|y l']; [left; reflexivity|].
  right. apply IH. congruence.
Qed.

Lemma choose_id_range (chs : list (Z * nat)) (cm : Z) :
  List.NoDup (JsMap.keys chs) ->
  Forall (fun k => 1 <= k <= cm) (JsMap.keys chs) ->
  0 <= cm -> JsMap.size chs <> cm ->
  1 <= choose_id chs <= cm.
Proof.
  intros Hnd HF Hcm Hsz. unfold choose_id, JsMap.size in *.
  pose proof (ids_in_range_length _ _ Hcm Hnd HF) as Hlen.
  assert (Hkl : length (JsMap.keys chs) = length chs) by apply length_map.
  rewrite Array_sort_length, Hkl.
  destruct (Z.eqb_spec (Z.of_nat (length chs)) 0) as [E|E]; cbn [negb]; [lia|].
  set (ids := Js.Array_sort Js.ToString (JsMap.keys chs)).
  assert (Hlast : In (List.last ids 0) (JsMap.keys chs)).
  { apply (Array_sort_In Js.ToString), last_In. intros Hnil.
    apply (f_equal (@length Z)) in Hnil. unfold ids in Hnil.
    rewrite Array_sort_length, Hkl in Hnil. cbn in Hnil. lia. }
  rewrite List.Forall_forall in HF. pose proof (HF _ Hlast) as Hl.
  destruct (Z.gtb_spec (List.last ids 0) (Z.of_nat (length chs))).
  - destruct (find_free_spec chs (Z.to_nat (List.last ids 0 - 1)) 1)
      as [(Hr & _)|[Hr _]]; lia.
  - lia.
Qed.

Lemma reachable_inv (cm : Z) (c : Connection.t) :
  reachable cm c ->
  channel_max c = cm /\ 0 <= cm /\ List.NoDup (JsMap.keys (channels c)) /\
  Forall (fun k => 1 <= k <= cm) (JsMap.keys (channels c)).
Proof.
  induction 1 as [Hcm|c id c' Hr IH Hop|c k Hr IH|c b Hr IH].
  - cbn. repeat split; [assumption | constructor | constructor].
  - destruct IH as (Hm & Hcm & Hnd & HF).
    unfold channel_open in Hop.
    destruct (negb (opened c) || destroyed c || blocked c); [discriminate|].
    destruct (Z.eqb_spec (JsMap.size (channels c)) (channel_max c)) as [|Hsz];
      [discriminate|].
    injection Hop as <- <-. cbn [channels channel_max]. rewrite Hm in Hsz.
    pose proof (choose_id_range _ _ Hnd HF Hcm Hsz) as Hid.
    repeat split; [assumption.. | apply JsMap_keys_set_NoDup; assumption |].
    rewrite JsMap_keys_set. destruct (JsMap.has _ _); [assumption|].
    apply List.Forall_app. split; [assumption|]. constructor; [lia | constructor].
  - destruct IH as (Hm & Hcm & Hnd & HF).
    unfold channel_destroyed; cbn [channels channel_max].
    repeat split; [assumption.. | apply JsMap_keys_delete_NoDup; assumption |].
    rewrite List.Forall_forall in *. intros x Hx.
    apply HF. eapply JsMap_keys_delete_incl; eassumption.
  - exact IH.
Qed.

Lemma open_many_reachable (cm : Z) (n : nat) (c : Connection.t) :
  reachable cm c -> reachable cm (open_many n c).
Proof.
  intros Hc. induction n as [|n IH]; cbn; [assumption|].
  destruct (channel_open (open_many n c)) as [[id c2]|e] eqn:E; [|assumption].
  eapply reach_channel_open; eassumption.
Qed.

(** *** When the default sort agrees with the numeric order *)

Lemma digit_string_lt (a b : Z) :
  1 <= a <= 9 -> 1 <= b <= 9 ->
  Js.string_lt (Js.ToString a) (Js.ToString b) = (a <? b).
Proof.
  intros Ha Hb.
  assert (Ea : a = 1 \/ a = 2 \/ a = 3 \/ a = 4 \/ a = 5 \/ a = 6 \/ a = 7 \/
               a = 8 \/ a = 9) by lia.
  assert (Eb : b = 1 \/ b = 2 \/ b = 3 \/ b = 4 \/ b = 5 \/ b = 6 \/ b = 7 \/
               b = 8 \/ b = 9) by lia.
  repeat (destruct Ea as [->|Ea]);
    repeat (destruct Eb as [->|Eb]); subst; reflexivity.
Qed.

Lemma sort_insert_sorted (x : Z) (l : list Z) :
  StronglySorted Z.le l ->
  (forall y, In y l -> Js.string_lt (Js.ToString y) (Js.ToString x) = (y <? x)) ->
  StronglySorted Z.le (Js.sort_insert Js.ToString x l).
Proof.
  induction 1 as [|y ys Hs IH Hy]; intros Hlt; cbn.
  - repeat constructor.
  - rewrite (Hlt y) by (left; reflexivity).
    rewrite List.Forall_forall in Hy.
    destruct (Z.ltb_spec y x).
    + constructor.
      * apply IH. intros z Hz. apply Hlt. right. assumption.
      * apply List.Forall_forall. intros z Hz.
        apply sort_insert_In in Hz. destruct Hz as [->|Hz]; [lia | auto].
    + constructor; [constructor; [assumption | apply List.Forall_forall; assumption]|].
      constructor; [assumption|].
      apply List.Forall_forall. intros z Hz. specialize (Hy z Hz). lia.
Qed.

Lemma Array_sort_digits_sorted (l : list Z) :
  Forall (fun k => 1 <= k <= 9) l ->
  StronglySorted Z.le (Js.Array_sort Js.ToString l).
Proof.
  induction 1 as [|x l Hx HF IH]; [constructor|].
  rewrite Array_sort_cons. apply sort_insert_sorted; [assumption|].
  intros y Hy. apply Array_sort_In in Hy.
  rewrite List.Forall_forall in HF. apply digit_string_lt; auto.
Qed.

Lemma max_id_le (l : list Z) (m : Z) :
  0 <= m -> (forall x, In x l -> x <= m) -> max_id l <= m.
Proof.
  intros Hm. induction l as [|y l IH]; cbn; [lia|]. intros H.
  fold (max_id l). specialize (IH (fun x Hx => H x (or_intror Hx))).
  specialize (H y (or_introl eq_refl)). lia.
Qed.

Lemma sorted_last_max (l : list Z) :
  StronglySorted Z.le l -> Forall (fun k => 1 <= k) l ->
  List.last l 0 = max_id l.
Proof.
  induction 1 as [|x l Hs IH Hx]; intros HF; [reflexivity|].
  inversion HF as [|? ? Hx1 HF']; subst.
  destruct l as [|y l']; [cbn; lia|].
  change (List.last (x :: y :: l') 0) with (List.last (y :: l') 0).
  rewrite (IH HF'). cbn [max_id fold_right]. fold (max_id (y :: l')).
  inversion Hx as [|? ? Hxy _]; subst.
  pose proof (max_id_ge (y :: l') y (or_introl eq_refl)). lia.
Qed.

(** Connections that only hold one-digit ids are sorted numerically. *)
Lemma digits_sort_last_max (l : list Z) :
  Forall (fun k => 1 <= k <= 9) l ->
  List.last (Js.Array_sort Js.ToString l) 0 = max_id l.
Proof.
  intros HF. rewrite sorted_last_max.
  - apply Z.le_antisymm; apply max_id_le; try apply max_id_nonneg;
      intros x Hx; apply max_id_ge.
    + apply (Array_sort_In Js.ToString). exact Hx.
    + apply (proj2 (Array_sort_In Js.ToString l x)). exact Hx.
  - apply Array_sort_digits_sorted, HF.
  - rewrite List.Forall_forall in *. intros x Hx.
    apply Array_sort_In in Hx. specialize (HF x Hx). lia.
Qed.

(** *** The claims *)

(** C2. After ten channels have been opened on a connection that allows
    2047 of them, the ids in use are 1..10, the default sort puts 9 last, and
    the next [channel_open] answers 10 again: the entry of the live channel
    10 is overwritten by the new channel object. *)
Theorem channel_open_reallocates_live_id :
  let c := open_many 10 (after_open 2047) in
  reachable 2047 c /\
  JsMap.keys (channels c) = [1; 2; 3; 4; 5; 6; 7; 8; 9; 10] /\
  exists c', channel_open c = Ok (10, c') /\
             In 10 (JsMap.keys (channels c)) /\
             JsMap.get (channels c) 10 = Some 9%nat /\
             JsMap.get (channels c') 10 = Some 10%nat /\
             JsMap.keys (channels c') = JsMap.keys (channels c).
Proof.
  cbv zeta. split; [|split].
  - apply open_many_reachable, reach_open. lia.
  - vm_compute. reflexivity.
  - eexists. split; [vm_compute; reflexivity|].
    split; [vm_compute; tauto|]. repeat split; vm_compute; reflexivity.
Qed.

(** C3, counterexample. With channels 1 and 4 open (2 and 3 were destroyed)
    [channel_open] answers 3 although 2 is unused: the claim that the lowest
    unused id is chosen fails. *)
Lemma channel_open_not_lowest_unused :
  ~ (forall c id c', reachable 2047 c -> channel_open c = Ok (id, c') ->
                     lowest_unused (JsMap.keys (channels c)) id).
Proof.
  intros H.
  specialize (H (channel_destroyed (channel_destroyed
                   (open_many 4 (after_open 2047)) 2) 3) 3).
  edestruct H as (_ & _ & Hlow).
  - do 2 apply reach_channel_destroyed.
    apply open_many_reachable, reach_open. lia.
  - vm_compute. reflexivity.
  - specialize (Hlow 2 ltac:(lia)). vm_compute in Hlow.
    destruct Hlow as [Hl|[Hl|[]]]; discriminate Hl.
Qed.

(** C3, amended. On a reachable connection whose ids the default sort
    leaves with the numerically largest one last (every set of one-digit ids
    is such), a successful [channel_open] chooses an unused id of
    [1..=channel_max]: the successor of the largest id when the ids in use
    are exactly [1..max], and otherwise the highest unused id below the
    largest one. *)
Theorem channel_open_chooses_by_design (cm : Z) (c c' : Connection.t) (id : Z) :
  reachable cm c ->
  List.last (Js.Array_sort Js.ToString (JsMap.keys (channels c))) 0
    = max_id (JsMap.keys (channels c)) ->
  channel_open c = Ok (id, c') ->
  1 <= id <= cm /\ ~ In id (JsMap.keys (channels c)) /\
  (no_gap (JsMap.keys (channels c)) (max_id (JsMap.keys (channels c))) ->
     id = max_id (JsMap.keys (channels c)) + 1) /\
  (~ no_gap (JsMap.keys (channels c)) (max_id (JsMap.keys (channels c))) ->
     highest_unused_below (JsMap.keys (channels c))
       (max_id (JsMap.keys (channels c))) id).
Proof.
  intros Hr Hsort Hop.
  destruct (reachable_inv _ _ Hr) as (Hm & Hcm & Hnd & HF).
  unfold channel_open in Hop.
  destruct (negb (opened c) || destroyed c || blocked c); [discriminate|].
  destruct (Z.eqb_spec (JsMap.size (channels c)) (channel_max c)) as [|Hsz];
    [discriminate|].
  injection Hop as <- _. rewrite Hm in Hsz.
  split; [apply choose_id_range; assumption|].
  set (S := JsMap.keys (channels c)) in *. set (M := max_id S) in *.
  assert (HM : forall x, In x S -> 1 <= x <= M).
  { intros x Hx. rewrite List.Forall_forall in HF.
    split; [apply (HF x Hx) | apply max_id_ge, Hx]. }
  assert (HFM : Forall (fun k => 1 <= k <= M) S)
    by (apply List.Forall_forall; exact HM).
  pose proof (ids_in_range_length S M (max_id_nonneg S) Hnd HFM) as Hlen.
  unfold choose_id. fold S. rewrite Array_sort_length, Hsort. fold M.
  destruct (Z.eqb_spec (Z.of_nat (length S)) 0) as [E|E]; cbn [negb].
  - assert (S = []) as HS by (destruct S; [reflexivity | cbn in E; lia]).
    assert (M = 0) as HM0 by (unfold M; rewrite HS; reflexivity).
    rewrite HS, HM0. split; [cbn; tauto|]. split; [reflexivity|].
    intros Hgap. exfalso. apply Hgap. intros k Hk. lia.
  - destruct (Z.gtb_spec M (Z.of_nat (length S))) as [Hgt|Hle].
    + assert (Hgap : ~ no_gap S M).
      { intros Hgap.
        assert (incl (map Z.of_nat (seq 1 (Z.to_nat M))) S) as Hincl.
        { intros k Hk. apply in_map_iff in Hk. destruct Hk as (n & <- & Hn).
          apply in_seq in Hn. apply Hgap. lia. }
        apply NoDup_incl_length in Hincl.
        - rewrite length_map, length_seq in Hincl. lia.
        - apply Finite.Injective_map_NoDup; [|apply seq_NoDup].
          intros a b Hab. lia. }
      assert (HMin : In M S).
      { apply max_id_In; [|apply List.Forall_forall; intros x Hx; apply HM, Hx].
        intros HS. rewrite HS in E. cbn in E. lia. }
      destruct (find_free_spec (channels c) (Z.to_nat (M - 1)) 1)
        as [(Hr1 & Hn & Hj)|[_ Hall]].
      * fold S in Hn, Hj. split; [assumption|]. split; [tauto|].
        intros _. split; [lia|]. split; [assumption|].
        intros j Hjr. apply Hj. lia.
      * exfalso. apply Hgap. intros k Hk. fold S in Hall.
        destruct (Z.eq_dec k M) as [->|]; [assumption|]. apply Hall. lia.
    + assert (Hgap : no_gap S M) by (apply ids_in_range_full; assumption || lia).
      split.
      * intros Hin. specialize (HM _ Hin). lia.
      * split; [reflexivity | tauto].
Qed.

(** The theorem applies to the connection with channels 1 and 4. *)
Lemma channel_open_chooses_by_design_witness :
  let c := channel_destroyed (channel_destroyed
             (open_many 4 (after_open 2047)) 2) 3 in
  exists c', channel_open c = Ok (3, c') /\
  1 <= 3 <= 2047 /\ ~ In 3 (JsMap.keys (channels c)) /\
  (no_gap (JsMap.keys (channels c)) (max_id (JsMap.keys (channels c))) ->
     3 = max_id (JsMap.keys (channels c)) + 1) /\
  (~ no_gap (JsMap.keys (channels c)) (max_id (JsMap.keys (channels c))) ->
     highest_unused_below (JsMap.keys (channels c))
       (max_id (JsMap.keys (channels c))) 3).
Proof.
  cbv zeta. eexists. split; [vm_compute; reflexivity|].
  eapply (channel_open_chooses_by_design 2047).
  - do 2 apply reach_channel_destroyed.
    apply open_many_reachable, reach_open. lia.
  - vm_compute. reflexivity.
  - vm_compute. reflexivity.
Defined.

End ChannelAllocation.

(** ** Channels: waiters and their callbacks *)
Section ChannelFacts.
Import Channel Errors.

Implicit Types (this : Channel.t) (w : nat) (m : Z).

(** Two overlapping calls on the same reply id, then two replies. *)
Example two_waiters_fifo :
  let c0 := new IsChild 1 [] (UniqueFactory.mk (UniqueId.new 0)) in
  let c := run c0 [ACallApi [7] (SendOther 1); ACallApi [7] (SendOther 2);
                   ARunTick 5; ARunTick 5;
                   AHandleMethod 7 Js.VNull; ARunTick 6;
                   AHandleMethod 7 Js.VUndefined; ARunTick 6] in
  log c = [Sent (SendOther 1); Sent (SendOther 2);
           Called 0 (Ok (mkResponse 7 Js.VNull));
           Settled 0 (Ok (mkResponse 7 Js.VNull));
           Called 1 (Ok (mkResponse 7 Js.VUndefined));
           Settled 1 (Ok (mkResponse 7 Js.VUndefined))].
Proof. vm_compute. reflexivity. Qed.

(** *** Lists of closures *)

Lemma existsb_eqb_In (w : nat) (l : list nat) :
  existsb (Nat.eqb w) l = true <-> In w l.
Proof.
  rewrite existsb_exists. split.
  - intros (x & Hx & E). apply Nat.eqb_eq in E. subst. assumption.
  - intros H. exists w. split; [assumption | apply Nat.eqb_refl].
Qed.

Lemma existsb_eqb_notIn (w : nat) (l : list nat) :
  existsb (Nat.eqb w) l = false <-> ~ In w l.
Proof.
  rewrite <- existsb_eqb_In. destruct (existsb _ _); split; congruence.
Qed.

Lemma In_without (ws l : list nat) (x : nat) :
  In x (without ws l) <-> In x l /\ ~ In x ws.
Proof.
  unfold without. rewrite filter_In, negb_true_iff, existsb_eqb_notIn. tauto.
Qed.

Lemma without_cons (ws : list nat) (x : nat) (l : list nat) :
  without ws (x :: l) =
  if existsb (Nat.eqb x) ws then without ws l else x :: without ws l.
Proof. unfold without. cbn. destruct (existsb _ _); reflexivity. Qed.

Lemma without_nil_r (ws : list nat) : without ws [] = [].
Proof. reflexivity. Qed.

Lemma without_without (ws1 ws2 l : list nat) :
  without ws2 (without ws1 l) = without (ws1 ++ ws2) l.
Proof.
  unfold without. induction l as [|x l IH]; cbn; [reflexivity|].
  rewrite existsb_app.
  destruct (existsb (Nat.eqb x) ws1); cbn; [exact IH|].
  destruct (existsb (Nat.eqb x) ws2); cbn; [exact IH | f_equal; exact IH].
Qed.

Lemma without_notin (ws l : list nat) :
  (forall x, In x ws -> ~ In x l) -> without ws l = l.
Proof.
  intros H. unfold without. induction l as [|x l IH]; cbn; [reflexivity|].
  destruct (existsb (Nat.eqb x) ws) eqn:E; cbn.
  - apply existsb_eqb_In in E. exfalso. apply (H x E). left. reflexivity.
  - f_equal. apply IH. intros y Hy Hin. apply (H y Hy). right. assumption.
Qed.

Lemma without_nil (l : list nat) : without [] l = l.
Proof. apply without_notin. intros x []. Qed.

Lemma without_sorted (ws l : list nat) :
  StronglySorted Nat.lt l -> StronglySorted Nat.lt (without ws l).
Proof.
  induction 1 as [|x l Hs IH Hx]; [constructor|].
  rewrite without_cons. destruct (existsb _ _); [exact IH|].
  constructor; [exact IH|].
  rewrite List.Forall_forall in *. intros y Hy.
  apply In_without in Hy. apply Hx, Hy.
Qed.

Lemma sorted_NoDup (l : list nat) : StronglySorted Nat.lt l -> List.NoDup l.
Proof.
  induction 1 as [|x l Hs IH Hx]; constructor; [|exact IH].
  rewrite List.Forall_forall in Hx. intros Hin. specialize (Hx x Hin). lia.
Qed.

Lemma callbacks_delete_without (l : list nat) (w : nat) :
  StronglySorted Nat.lt l -> callbacks_delete l w = without [w] l.
Proof.
  induction 1 as [|x l Hs IH Hx]; [reflexivity|].
  cbn [callbacks_delete]. rewrite without_cons. cbn [existsb].
  rewrite orb_false_r. destruct (Nat.eqb_spec x w) as [->|Hne].
  - symmetry. apply without_notin. intros y [<-|[]] Hin.
    rewrite List.Forall_forall in Hx. specialize (Hx _ Hin). lia.
  - f_equal. exact IH.
Qed.

Lemma callbacks_set_fresh (l : list nat) (w : nat) :
  ~ In w l -> callbacks_set l w = l ++ [w].
Proof.
  intros H. unfold callbacks_set.
  apply existsb_eqb_notIn in H. rewrite H. reflexivity.
Qed.

Lemma callbacks_set_present (l : list nat) (w : nat) :
  In w l -> callbacks_set l w = l.
Proof.
  intros H. unfold callbacks_set.
  apply existsb_eqb_In in H. rewrite H. reflexivity.
Qed.

Lemma sorted_snoc (l : list nat) (w : nat) :
  StronglySorted Nat.lt l -> (forall x, In x l -> (x < w)%nat) ->
  StronglySorted Nat.lt (l ++ [w]).
Proof.
  induction 1 as [|x l Hs IH Hx]; intros Hlt; cbn.
  - repeat constructor.
  - constructor.
    + apply IH. intros y Hy. apply Hlt. right. assumption.
    + apply List.Forall_app. split; [assumption|].
      constructor; [|constructor]. apply Hlt. left. reflexivity.
Qed.

Lemma without_idem (ws l : list nat) : without ws (without ws l) = without ws l.
Proof.
  apply without_notin. intros x Hx Hin. apply In_without in Hin. tauto.
Qed.

Lemma In_callbacks_set (l : list nat) (w x : nat) :
  In x (callbacks_set l w) <-> In x l \/ x = w.
Proof.
  unfold callbacks_set. destruct (existsb (Nat.eqb w) l) eqn:E.
  - apply existsb_eqb_In in E. split; [auto | intros [?| ->]; assumption].
  - rewrite in_app_iff. cbn. intuition.
Qed.

Lemma callbacks_set_idem (l : list nat) (w : nat) :
  callbacks_set (callbacks_set l w) w = callbacks_set l w.
Proof. apply callbacks_set_present, In_callbacks_set. right. reflexivity. Qed.

(** *** [clear] and [register] on the registry *)

Lemma clear_spec (rs : list Z) (w : nat) (rc : list (Z * list nat)) :
  inner_sorted rc ->
  inner_sorted (clear rc rs w) /\
  JsMap.keys (clear rc rs w) = JsMap.keys rc /\
  forall m, JsMap.get (clear rc rs w) m =
            option_map (fun c => if existsb (Z.eqb m) rs then without [w] c else c)
                       (JsMap.get rc m).
Proof.
  revert rc. induction rs as [|m0 rest IH]; intros rc Hs; cbn [clear].
  - split; [assumption|]. split; [reflexivity|].
    intros m. cbn. destruct (JsMap.get rc m); reflexivity.
  - set (rc' := match JsMap.get rc m0 with
                | Some callbacks => JsMap.set rc m0 (callbacks_delete callbacks w)
                | None => rc
                end).
    assert (Hget : forall m, JsMap.get rc' m =
              option_map (fun c => if m0 =? m then without [w] c else c)
                         (JsMap.get rc m)).
    { intros m. unfold rc'. destruct (JsMap.get rc m0) as [c0|] eqn:E0.
      - rewrite JsMap_get_set. destruct (Z.eqb_spec m0 m) as [<-|Hne].
        + rewrite E0. cbn. f_equal. apply callbacks_delete_without, (Hs m0), E0.
        + destruct (JsMap.get rc m); reflexivity.
      - destruct (Z.eqb_spec m0 m) as [<-|Hne].
        + rewrite E0. reflexivity.
        + destruct (JsMap.get rc m); reflexivity. }
    assert (Hs' : inner_sorted rc').
    { intros m c Hc. rewrite Hget in Hc.
      destruct (JsMap.get rc m) as [c1|] eqn:E1; [|discriminate].
      cbn in Hc. injection Hc as <-.
      destruct (m0 =? m); [apply without_sorted|]; apply (Hs m), E1. }
    assert (Hk' : JsMap.keys rc' = JsMap.keys rc).
    { unfold rc'. destruct (JsMap.get rc m0) as [c0|] eqn:E0; [|reflexivity].
      rewrite JsMap_keys_set. unfold JsMap.has. rewrite E0. reflexivity. }
    destruct (IH rc' Hs') as (H1 & H2 & H3).
    split; [assumption|]. split; [congruence|].
    intros m. rewrite H3, Hget. cbn [existsb].
    rewrite (Z.eqb_sym m m0).
    destruct (JsMap.get rc m) as [c|]; [|reflexivity]. cbn. f_equal.
    destruct (m0 =? m), (existsb (Z.eqb m) rest); cbn;
      rewrite ?without_idem; reflexivity.
Qed.

Lemma register_spec (rs : list Z) (w : nat) (rc : list (Z * list nat)) (m : Z) :
  JsMap.get (register rc rs w) m =
  if existsb (Z.eqb m) rs then Some (callbacks_set (pending_of rc m) w)
  else JsMap.get rc m.
Proof.
  revert rc. induction rs as [|m0 rest IH]; intros rc; cbn [register existsb].
  - reflexivity.
  - rewrite IH. unfold pending_of at 1. rewrite !JsMap_get_set.
    rewrite (Z.eqb_sym m m0). fold (pending_of rc m0).
    destruct (Z.eqb_spec m0 m) as [->|Hne]; cbn [orb].
    + rewrite callbacks_set_idem. destruct (existsb _ _); reflexivity.
    + reflexivity.
Qed.

(** *** One invocation of a callback *)

Lemma wf_pending this w m :
  wf this -> In w (pending this m) ->
  exists x, waiters this !! w = Some x /\ w_called x = false /\
            In m (w_responses x).
Proof.
  intros [H1 _] Hin. unfold pending, pending_of in Hin.
  destruct (JsMap.get (request_callbacks this) m) as [c|] eqn:E; [|destruct Hin].
  apply (H1 m c E), Hin.
Qed.

Lemma wf_inner_sorted this : wf this -> inner_sorted (request_callbacks this).
Proof. intros [H1 _] m c E. apply (H1 m c E). Qed.

Lemma lookup_set_called_ne (ws : list Waiter) (w w' : nat) :
  w <> w' -> set_called ws w !! w' = ws !! w'.
Proof.
  intros Hne. unfold set_called. destruct (ws !! w); [|reflexivity].
  apply list_lookup_insert_ne. assumption.
Qed.

Lemma lookup_set_called_eq (ws : list Waiter) (w : nat) (x : Waiter) :
  ws !! w = Some x ->
  set_called ws w !! w = Some (mkWaiter (w_id x) (w_responses x) true).
Proof.
  intros E. unfold set_called. rewrite E.
  apply list_lookup_insert_eq. apply lookup_lt_Some in E. assumption.
Qed.

Lemma callback_spec this w (o : res Response) :
  wf this ->
  wf (callback this w o) /\ same_flags this (callback this w o) /\
  (forall m, pending (callback this w o) m = without [w] (pending this m)) /\
  exists seg, log (callback this w o) = log this ++ Called w o :: seg /\
              (seg = [] \/ seg = [Settled w o]) /\
              ((exists m, In w (pending this m)) -> seg = [Settled w o]).
Proof.
  intros Hwf.
  assert (Hnot : forall x, waiters this !! w = Some x -> w_called x = true ->
                 forall m, without [w] (pending this m) = pending this m).
  { intros x Ex Hc m. apply without_notin. intros y [<-|[]] Hin.
    destruct (wf_pending _ _ _ Hwf Hin) as (x' & Ex' & Hc' & _). congruence. }
  assert (Hnone : waiters this !! w = None ->
                 forall m, without [w] (pending this m) = pending this m).
  { intros Ex m. apply without_notin. intros y [<-|[]] Hin.
    destruct (wf_pending _ _ _ Hwf Hin) as (x' & Ex' & _). congruence. }
  unfold callback. destruct this as [k ch rc hs d cl sd ws f q lg].
  cbn [emit waiters with_waiters with_callbacks request_callbacks log kind
       channel handlers destroyed closed socket_destroyed factory ticks] in *.
  destruct (ws !! w) as [x|] eqn:Ex.
  - destruct (w_called x) eqn:Hc.
    + split; [exact Hwf|]. split; [repeat split|].
      split; [intros m; symmetry; apply (Hnot x eq_refl Hc m)|].
      exists []. split; [reflexivity|]. split; [left; reflexivity|].
      intros [m Hin].
      destruct (wf_pending _ _ _ Hwf Hin) as (x' & Ex' & Hc' & _).
      cbn in Ex'. congruence.
    + destruct (clear_spec (w_responses x) w rc (wf_inner_sorted _ Hwf))
        as (Hs' & Hk' & Hg').
      assert (Hp : forall m, pending_of (clear rc (w_responses x) w) m
                             = without [w] (pending_of rc m)).
      { intros m. unfold pending_of. rewrite Hg'.
        destruct (JsMap.get rc m) as [c|] eqn:E; cbn [option_map]; [|reflexivity].
        destruct (existsb (Z.eqb m) (w_responses x)) eqn:Em; [reflexivity|].
        symmetry. apply without_notin. intros y [<-|[]] Hin.
        destruct Hwf as [H1 _]. destruct (H1 m c E) as [_ H1'].
        destruct (H1' _ Hin) as (x' & Ex' & _ & Hm). cbn in Ex'.
        assert (x' = x) by congruence. subst x'.
        assert (existsb (Z.eqb m) (w_responses x) = true); [|congruence].
        apply existsb_exists. exists m. split; [assumption | apply Z.eqb_refl]. }
      split; [|split; [|split]].
      * destruct Hwf as [H1 H2]. split.
        -- intros m c' E'. cbn in E'. rewrite Hg' in E'.
           destruct (JsMap.get rc m) as [c|] eqn:E; [|discriminate].
           cbn in E'. injection E' as <-.
           destruct (H1 m c E) as [Hsc Hmem]. split.
           ++ destruct (existsb _ _); [apply without_sorted|]; assumption.
           ++ intros w' Hw'.
              assert (Hin : In w' c /\ w' <> w).
              { destruct (existsb (Z.eqb m) (w_responses x)) eqn:Em.
                - apply In_without in Hw'. cbn in Hw'. intuition.
                - split; [assumption|]. intros ->.
                  destruct (Hmem _ Hw') as (x' & Ex' & _ & Hm). cbn in Ex'.
                  assert (x' = x) by congruence. subst x'.
                  assert (existsb (Z.eqb m) (w_responses x) = true); [|congruence].
                  apply existsb_exists. exists m.
                  split; [assumption | apply Z.eqb_refl]. }
              destruct Hin as [Hin Hne].
              destruct (Hmem _ Hin) as (x' & Ex' & Hc' & Hm).
              exists x'. cbn. rewrite lookup_set_called_ne by congruence.
              auto.
        -- intros w' x' Ex' Hc' m Hm. cbn in Ex'. unfold pending. cbn.
           destruct (Nat.eq_dec w w') as [<-|Hne].
           ++ rewrite (lookup_set_called_eq _ _ _ Ex) in Ex'.
              injection Ex' as <-. discriminate.
           ++ rewrite lookup_set_called_ne in Ex' by assumption.
              rewrite Hp. apply In_without. split.
              ** apply (H2 w' x' Ex' Hc' m Hm).
              ** cbn. intuition.
      * repeat split. cbn. symmetry. exact Hk'.
      * intros m. unfold pending. cbn. apply Hp.
      * exists [Settled w o]. cbn. rewrite <- app_assoc. cbn. auto.
  - split; [exact Hwf|]. split; [repeat split|].
    split; [intros m; symmetry; apply (Hnone eq_refl m)|].
    exists []. split; [reflexivity|]. split; [left; reflexivity|].
    intros [m Hin].
    destruct (wf_pending _ _ _ Hwf Hin) as (x' & Ex' & _). cbn in Ex'. congruence.
Qed.

(** *** Registration *)

Lemma wf_registered_lt this w m :
  wf this -> In w (pending this m) -> (w < length (waiters this))%nat.
Proof.
  intros Hwf Hin. destruct (wf_pending _ _ _ Hwf Hin) as (x & Ex & _).
  apply lookup_lt_Some in Ex. exact Ex.
Qed.

Lemma call_api_tick_spec this (rs : list Z) (send : Send) (now : Z) :
  wf this ->
  let w := length (waiters this) in
  wf (call_api_tick this rs send now) /\
  (forall m, pending (call_api_tick this rs send now) m =
             if existsb (Z.eqb m) rs then pending this m ++ [w]
             else pending this m) /\
  log (call_api_tick this rs send now) = log this ++ [Sent send] /\
  destroyed (call_api_tick this rs send now) = destroyed this /\
  ticks (call_api_tick this rs send now) = ticks this.
Proof.
  intros Hwf w.
  assert (Hfresh : forall m, ~ In w (pending this m)).
  { intros m Hin. apply wf_registered_lt in Hin; [|assumption]. unfold w in Hin. lia. }
  unfold call_api_tick.
  destruct (UniqueFactory.generate (factory this) now) as [id f'].
  destruct this as [k ch rc hs d cl sd ws f q lg].
  cbn [emit waiters with_waiters with_callbacks with_factory request_callbacks
       log kind channel handlers destroyed closed socket_destroyed factory
       ticks] in *.
  fold w.
  assert (Hp : forall m, pending_of (register rc rs w) m =
                         if existsb (Z.eqb m) rs then pending_of rc m ++ [w]
                         else pending_of rc m).
  { intros m. unfold pending_of at 1. rewrite register_spec.
    destruct (existsb _ _); [|reflexivity].
    apply callbacks_set_fresh. apply (Hfresh m). }
  split; [|split; [exact Hp | repeat split]].
  destruct Hwf as [H1 H2]. split.
  - intros m c' E'. cbn in E'. rewrite register_spec in E'.
    destruct (existsb (Z.eqb m) rs) eqn:Em.
    + injection E' as <-. rewrite callbacks_set_fresh by apply (Hfresh m).
      assert (Hold : forall w', In w' (pending_of rc m) ->
                exists x, ws !! w' = Some x /\ w_called x = false /\
                          In m (w_responses x)).
      { intros w' Hw'. unfold pending_of in Hw'.
        destruct (JsMap.get rc m) as [c|] eqn:E; [|destruct Hw'].
        apply (H1 m c E), Hw'. }
      split.
      * apply sorted_snoc.
        -- unfold pending_of. destruct (JsMap.get rc m) as [c|] eqn:E;
             [apply (H1 m c E) | constructor].
        -- intros w' Hw'. destruct (Hold _ Hw') as (x & Ex & _).
           apply lookup_lt_Some in Ex. exact Ex.
      * intros w' Hw'. apply in_app_iff in Hw'. destruct Hw' as [Hw'|[<-|[]]].
        -- destruct (Hold _ Hw') as (x & Ex & Hx). exists x. cbn.
           split; [|exact Hx]. rewrite lookup_app_l; [exact Ex|].
           apply lookup_lt_Some in Ex. exact Ex.
        -- eexists. cbn. split; [apply list_lookup_middle; reflexivity|].
           cbn. split; [reflexivity|].
           apply existsb_exists in Em. destruct Em as (m' & Hm' & E).
           apply Z.eqb_eq in E. subst. assumption.
    + destruct (H1 m c' E') as [Hs Hmem]. split; [assumption|].
      intros w' Hw'. destruct (Hmem _ Hw') as (x & Ex & Hx). exists x. cbn.
      split; [|exact Hx]. rewrite lookup_app_l; [exact Ex|].
      apply lookup_lt_Some in Ex. exact Ex.
  - intros w' x' Ex' Hc' m Hm. cbn in Ex'. unfold pending. cbn. rewrite Hp.
    destruct (Nat.lt_ge_cases w' w) as [Hlt|Hge].
    + rewrite lookup_app_l in Ex' by exact Hlt.
      specialize (H2 w' x' Ex' Hc' m Hm). unfold pending in H2. cbn in H2.
      destruct (existsb _ _); [apply in_app_iff; left|]; assumption.
    + assert (w' = w) as ->.
      { apply lookup_lt_Some in Ex'. rewrite length_app in Ex'. cbn in Ex'.
        unfold w in *. lia. }
      rewrite list_lookup_middle in Ex' by reflexivity.
      injection Ex' as <-. cbn in Hm.
      assert (existsb (Z.eqb m) rs = true) as ->.
      { apply existsb_exists. exists m. split; [assumption | apply Z.eqb_refl]. }
      apply in_app_iff. right. left. reflexivity.
Qed.

(** *** Replies *)


Lemma handle_method_tick_wf this m (args : Js.value) :
  wf this -> wf (handle_method_tick this m args).
Proof.
  intros Hwf. unfold handle_method_tick.
  destruct (destroyed this); [assumption|].
  assert (He : forall e, wf (emit this e)) by (intros e; exact Hwf).
  destruct (JsMap.get (request_callbacks this) m) as [[|w0 rest]|].
  - destruct (existsb _ _); apply He.
  - destruct (Nat.eqb _ _); [apply callback_spec, Hwf|].
    destruct (Js.Array_sort _ _); [assumption | apply callback_spec, Hwf].
  - destruct (existsb _ _); apply He.
Qed.

(** *** Rejecting the registered callbacks *)

Lemma same_flags_refl this : same_flags this this.
Proof. repeat split. Qed.

Lemma same_flags_trans (a b c : Channel.t) :
  same_flags a b -> same_flags b c -> same_flags a c.
Proof.
  unfold same_flags. intros (?&?&?&?&?&?&?&?&?) (?&?&?&?&?&?&?&?&?).
  repeat split; congruence.
Qed.

Lemma registered_in_spec (rc : list (Z * list nat)) (ms : list Z) (w : nat) :
  registered_in rc ms w = true <-> exists m, In m ms /\ In w (pending_of rc m).
Proof.
  unfold registered_in. rewrite existsb_exists.
  split; intros (m & Hm & H); exists m; (split; [assumption|]);
    apply existsb_eqb_In; assumption.
Qed.

Lemma reject_callbacks_spec (snapshot : list nat) this m (e : Error) :
  wf this -> List.NoDup snapshot ->
  (forall w, In w snapshot -> In w (pending this m)) ->
  wf (reject_callbacks this m snapshot e) /\
  same_flags this (reject_callbacks this m snapshot e) /\
  (forall m', pending (reject_callbacks this m snapshot e) m'
              = without snapshot (pending this m')) /\
  log (reject_callbacks this m snapshot e)
    = log this ++ flat_map (rejection e) snapshot.
Proof.
  revert this. induction snapshot as [|w rest IH]; intros this Hwf Hnd Hin.
  - cbn. split; [assumption|]. split; [apply same_flags_refl|].
    split; [intros; symmetry; apply without_nil | symmetry; apply app_nil_r].
  - cbn [reject_callbacks].
    assert (Hw : In w (pending this m)) by (apply Hin; left; reflexivity).
    assert (Hpres : match JsMap.get (request_callbacks this) m with
                    | Some callbacks => existsb (Nat.eqb w) callbacks
                    | None => false
                    end = true).
    { unfold pending, pending_of in Hw.
      destruct (JsMap.get (request_callbacks this) m); [|destruct Hw].
      apply existsb_eqb_In, Hw. }
    rewrite Hpres.
    destruct (callback_spec this w (Err e) Hwf)
      as (Hwf1 & Hf1 & Hp1 & seg & Hl1 & _ & Hseg).
    rewrite (Hseg (ex_intro _ m Hw)) in Hl1.
    inversion Hnd as [|? ? Hnotin Hnd']; subst.
    destruct (IH (callback this w (Err e)) Hwf1 Hnd') as (Hwf2 & Hf2 & Hp2 & Hl2).
    { intros w' Hw'. rewrite Hp1. apply In_without. split.
      - apply Hin. right. assumption.
      - intros [->|[]]. contradiction. }
    split; [assumption|]. split; [eapply same_flags_trans; eassumption|].
    split.
    + intros m'. rewrite Hp2, Hp1, without_without. reflexivity.
    + rewrite Hl2, Hl1. cbn. rewrite <- app_assoc. reflexivity.
Qed.

Lemma reject_all_spec (ms : list Z) this (e : Error) :
  wf this ->
  exists vs,
    wf (reject_all this ms e) /\ same_flags this (reject_all this ms e) /\
    List.NoDup vs /\
    (forall w, In w vs <-> registered_in (request_callbacks this) ms w = true) /\
    (forall m', pending (reject_all this ms e) m' = without vs (pending this m')) /\
    log (reject_all this ms e) = log this ++ flat_map (rejection e) vs.
Proof.
  revert this. induction ms as [|m rest IH]; intros this Hwf.
  - exists []. cbn. split; [assumption|]. split; [apply same_flags_refl|].
    split; [constructor|]. split; [intros w; split; [intros [] | discriminate]|].
    split; [intros; symmetry; apply without_nil | symmetry; apply app_nil_r].
  - cbn [reject_all]. fold (pending_of (request_callbacks this) m).
    fold (pending this m).
    assert (Hnd1 : List.NoDup (pending this m)).
    { unfold pending, pending_of.
      destruct (JsMap.get (request_callbacks this) m) as [c|] eqn:E;
        [|constructor].
      apply sorted_NoDup, (wf_inner_sorted _ Hwf m c E). }
    destruct (reject_callbacks_spec (pending this m) this m e Hwf Hnd1
                (fun w H => H)) as (Hwf1 & Hf1 & Hp1 & Hl1).
    set (this1 := reject_callbacks this m (pending this m) e) in *.
    destruct (IH this1 Hwf1) as (vs2 & Hwf2 & Hf2 & Hnd2 & Hin2 & Hp2 & Hl2).
    assert (Hvs2 : forall w, In w vs2 <->
              registered_in (request_callbacks this) rest w = true /\
              ~ In w (pending this m)).
    { intros w. rewrite Hin2, !registered_in_spec. split.
      - intros (m' & Hm' & Hw). fold (pending this1 m') in Hw.
        rewrite Hp1 in Hw. apply In_without in Hw. destruct Hw as [Hw Hn].
        split; [exists m'; split; assumption | assumption].
      - intros [(m' & Hm' & Hw) Hn]. exists m'. split; [assumption|].
        fold (pending this1 m'). rewrite Hp1. apply In_without.
        split; assumption. }
    exists (pending this m ++ vs2).
    split; [assumption|]. split; [eapply same_flags_trans; eassumption|].
    split; [|split; [|split]].
    + apply NoDup_ListNoDup, NoDup_app. split_and!.
      * apply NoDup_ListNoDup, Hnd1.
      * intros w Hw Hw'. apply list_elem_of_In in Hw, Hw'.
        apply Hvs2 in Hw'. tauto.
      * apply NoDup_ListNoDup, Hnd2.
    + intros w. rewrite in_app_iff, Hvs2.
      unfold registered_in at 2. cbn [existsb]. fold (registered_in (request_callbacks this) rest w).
      fold (pending this m). rewrite orb_true_iff, existsb_eqb_In.
      destruct (in_dec Nat.eq_dec w (pending this m)); tauto.
    + intros m'. rewrite Hp2, Hp1, without_without. reflexivity.
    + rewrite Hl2, Hl1, flat_map_app, app_assoc. reflexivity.
Qed.

Lemma count_called_app (w : nat) (l1 l2 : list Event) :
  count_called w (l1 ++ l2) = (count_called w l1 + count_called w l2)%nat.
Proof.
  induction l1 as [|ev l1 IH]; cbn; [reflexivity|].
  destruct ev; rewrite IH; lia.
Qed.

Lemma count_called_rejections (e : Error) (w : nat) (vs : list nat) :
  List.NoDup vs ->
  count_called w (flat_map (rejection e) vs) = if in_dec Nat.eq_dec w vs then 1%nat else 0%nat.
Proof.
  induction 1 as [|v vs Hnotin Hnd IH]; cbn [flat_map]; [reflexivity|].
  rewrite count_called_app, IH. cbn [rejection count_called].
  destruct (Nat.eqb_spec v w) as [->|Hne].
  - destruct (in_dec Nat.eq_dec w vs) as [Hin|Hn]; [contradiction|].
    destruct (in_dec Nat.eq_dec w (w :: vs)) as [_|Hn']; [reflexivity|].
    exfalso. apply Hn'. left. reflexivity.
  - destruct (in_dec Nat.eq_dec w vs) as [Hin|Hn];
      destruct (in_dec Nat.eq_dec w (v :: vs)) as [Hin'|Hn']; cbn; try reflexivity.
    + exfalso. apply Hn'. right. assumption.
    + destruct Hin' as [<-|Hin']; contradiction.
Qed.

Lemma In_rejections (e : Error) (vs : list nat) (ev : Event) :
  In ev (flat_map (rejection e) vs) <->
  exists w, In w vs /\ (ev = Called w (Err e) \/ ev = Settled w (Err e)).
Proof.
  rewrite in_flat_map. unfold rejection. cbn.
  split; intros (w & Hw & H); exists w; split; try assumption; intuition.
Qed.

(** *** The invariant holds in every state of a channel *)

Lemma wf_same this this' :
  request_callbacks this' = request_callbacks this ->
  waiters this' = waiters this -> wf this -> wf this'.
Proof. unfold wf, pending. intros -> ->. tauto. Qed.

Lemma wf_new (k : Kind) (ch : Z) (hs : list Z) (f : UniqueFactory.t) :
  wf (new k ch hs f).
Proof.
  split.
  - intros m c E. discriminate.
  - intros w x E. discriminate.
Qed.

Lemma call_api_same this (rs : list Z) (send : Send) :
  request_callbacks (call_api this rs send) = request_callbacks this /\
  waiters (call_api this rs send) = waiters this /\
  destroyed (call_api this rs send) = destroyed this /\
  exists seg, log (call_api this rs send) = log this ++ seg /\
              forall w, count_called w seg = 0%nat /\
                        forall o, ~ In (Called w o) seg.
Proof.
  unfold call_api. destruct rs; cbn.
  - repeat split. exists [Sent send]. split; [reflexivity|].
    intros w. split; [reflexivity|]. intros o [H|[]]. discriminate.
  - repeat split. exists []. split; [symmetry; apply app_nil_r|].
    intros w. split; [reflexivity|]. intros o [].
Qed.

Lemma call_close_same this (error : option Error) :
  request_callbacks (call_close this error) = request_callbacks this /\
  waiters (call_close this error) = waiters this /\
  destroyed (call_close this error) = destroyed this /\
  log (call_close this error) = log this.
Proof.
  unfold call_close. destruct (destroyed this || closed this); [tauto|].
  destruct (kind this); cbn; tauto.
Qed.

Lemma without_all (vs l : list nat) :
  (forall x, In x l -> In x vs) -> without vs l = [].
Proof.
  intros H. destruct (without vs l) as [|x r] eqn:E; [reflexivity|].
  assert (Hx : In x (without vs l)) by (rewrite E; left; reflexivity).
  apply In_without in Hx. destruct Hx as [Hx Hn]. elim Hn. auto.
Qed.

Lemma destroy_abstract_spec this (error : option Error) :
  wf this ->
  let reject_error := match error with
                      | Some e => e
                      | None => default_reject_error
                      end in
  exists vs,
    wf (destroy_abstract this error) /\
    destroyed (destroy_abstract this error) = destroyed this /\
    List.NoDup vs /\
    (forall w, In w vs <-> is_pending this w) /\
    (forall m, pending (destroy_abstract this error) m = []) /\
    log (destroy_abstract this error)
      = log this ++ flat_map (rejection reject_error) vs.
Proof.
  intros Hwf reject_error. unfold destroy_abstract. fold reject_error.
  set (this0 := if negb (socket_destroyed this) && negb (destroyed this)
                then call_close this error else this).
  assert (H0 : request_callbacks this0 = request_callbacks this /\
               waiters this0 = waiters this /\
               destroyed this0 = destroyed this /\ log this0 = log this).
  { unfold this0. destruct (_ && _); [apply call_close_same | tauto]. }
  destruct H0 as (Hrc & Hws & Hd & Hl).
  assert (Hwf0 : wf this0) by (eapply wf_same; eassumption).
  destruct (reject_all_spec (JsMap.keys (request_callbacks this0)) this0
              reject_error Hwf0) as (vs & Hwf1 & Hf1 & Hnd & Hin & Hp & Hlog).
  assert (Hvs : forall w, In w vs <-> is_pending this w).
  { intros w. rewrite Hin, registered_in_spec, Hrc. unfold is_pending, pending.
    split.
    - intros (m & _ & Hw). exists m. exact Hw.
    - intros (m & Hw). exists m. split; [|exact Hw].
      unfold pending_of in Hw.
      destruct (JsMap.get (request_callbacks this) m) as [c|] eqn:E;
        [|destruct Hw].
      eapply JsMap_get_Some_In, E. }
  exists vs. split; [assumption|].
  split; [destruct Hf1 as (_&_&_&Hd1&_); congruence|].
  split; [assumption|]. split; [assumption|]. split.
  - intros m. rewrite Hp. apply without_all. intros x Hx. apply Hvs.
    exists m. unfold pending in *. rewrite <- Hrc. exact Hx.
  - rewrite Hlog, Hl. reflexivity.
Qed.

Lemma wf_act this (a : Action) : wf this -> wf (act this a).
Proof.
  intros Hwf. destruct a as [rs send|m args|now|w e|error]; cbn [act].
  - destruct (call_api_same this rs send) as (H1 & H2 & _).
    eapply wf_same; eassumption.
  - exact Hwf.
  - unfold run_tick. destruct (ticks this) as [|[rs send|m args] q] eqn:E.
    + assumption.
    + apply call_api_tick_spec. exact Hwf.
    + apply handle_method_tick_wf. exact Hwf.
  - apply callback_spec, Hwf.
  - destruct (destroy_abstract_spec this error Hwf) as (vs & H & _).
    exact H.
Qed.

Lemma wf_run (actions : list Action) this : wf this -> wf (run this actions).
Proof.
  revert this. induction actions as [|a rest IH]; intros this Hwf; cbn.
  - assumption.
  - apply IH, wf_act, Hwf.
Qed.

Lemma destroyed_act this (a : Action) :
  wf this -> destroyed this = true -> destroyed (act this a) = true.
Proof.
  intros Hwf Hd. destruct a as [rs send|m args|now|w e|error]; cbn [act].
  - destruct (call_api_same this rs send) as (_ & _ & H & _). congruence.
  - exact Hd.
  - unfold run_tick. destruct (ticks this) as [|[rs send|m args] q] eqn:E.
    + assumption.
    + destruct (call_api_tick_spec (with_ticks this q) rs send now)
        as (_ & _ & _ & H & _); [exact Hwf|]. rewrite H. exact Hd.
    + unfold handle_method_tick. cbn [destroyed with_ticks]. rewrite Hd.
      exact Hd.
  - destruct (callback_spec this w (Err e) Hwf) as (_ & Hf & _).
    destruct Hf as (_&_&_&H&_). unfold send_failed. congruence.
  - reflexivity.
Qed.

Lemma destroyed_run (actions : list Action) this :
  wf this -> destroyed this = true -> destroyed (run this actions) = true.
Proof.
  revert this. induction actions as [|a rest IH]; intros this Hwf Hd; cbn.
  - assumption.
  - apply IH; [apply wf_act | apply destroyed_act]; assumption.
Qed.

(** *** The claims *)



(** C10. In every state a channel object can reach, [destroy(error)]
    invokes the callback of each registered waiter exactly once, with
    [error] or with the default [connection_forced] error when none is
    given, and rejects its promise; it invokes no other callback, leaves no
    waiter registered and marks the channel destroyed. From then on the
    function that [handle_method] queues returns at once, whatever else
    happens to the channel in between. *)
Theorem destroy_rejects_pending_waiters_once
    (k : Kind) (ch : Z) (hs : list Z) (f : UniqueFactory.t)
    (actions : list Action) (error : option Error) :
  let this := run (new k ch hs f) actions in
  let reject_error := match error with
                      | Some e => e
                      | None => default_reject_error
                      end in
  (exists seg,
     log (destroy this error) = log this ++ seg /\
     (forall w, is_pending this w ->
        count_called w seg = 1%nat /\
        In (Called w (Err reject_error)) seg /\
        In (Settled w (Err reject_error)) seg) /\
     (forall w o, In (Called w o) seg ->
        is_pending this w /\ o = Err reject_error)) /\
  (forall m, pending (destroy this error) m = []) /\
  destroyed (destroy this error) = true /\
  (forall later m args,
     handle_method_tick (run (destroy this error) later) m args
       = run (destroy this error) later).
Proof.
  intros this reject_error.
  assert (Hwf : wf this) by apply wf_run, wf_new.
  destruct (destroy_abstract_spec this error Hwf)
    as (vs & Hwf' & Hd & Hnd & Hvs & Hp & Hl).
  fold reject_error in Hl.
  split; [|split; [|split]].
  - exists (flat_map (rejection reject_error) vs).
    split; [exact Hl|]. split.
    + intros w Hw. apply Hvs in Hw. split; [|split].
      * rewrite count_called_rejections by assumption.
        destruct (in_dec Nat.eq_dec w vs); [reflexivity | contradiction].
      * apply In_rejections. exists w. auto.
      * apply In_rejections. exists w. auto.
    + intros w o Hin. apply In_rejections in Hin.
      destruct Hin as (w' & Hw' & [E|E]); [|discriminate].
      injection E as -> ->. split; [apply Hvs, Hw' | reflexivity].
  - exact Hp.
  - reflexivity.
  - intros later m args. unfold handle_method_tick.
    rewrite destroyed_run; [reflexivity | exact Hwf' | reflexivity].
Qed.

(** Two waiters, one of them expecting either of two replies, are rejected
    once each by [destroy]; the close request it queues registers a new
    waiter afterwards, and the reply to it is ignored. *)
Example destroy_two_waiters :
  let c := run (new IsChild 1 [] (UniqueFactory.mk (UniqueId.new 0)))
               [ACallApi [7; 8] (SendOther 1); ACallApi [8] (SendOther 2);
                ARunTick 5; ARunTick 5;
                ADestroy None; ARunTick 6;
                AHandleMethod METHODS_channel_close_ok Js.VNull; ARunTick 7] in
  log c = [Sent (SendOther 1); Sent (SendOther 2);
           Called 0 (Err default_reject_error);
           Settled 0 (Err default_reject_error);
           Called 1 (Err default_reject_error);
           Settled 1 (Err default_reject_error);
           Sent (SendClose METHODS_channel_close (mkClose 0 200 "buy!"))] /\
  pending c METHODS_channel_close_ok = [2%nat] /\ destroyed c = true.
Proof. vm_compute. repeat split. Qed.

End ChannelFacts.

(** ** The frame demuxer *)
Section DecodeStreamFacts.
Import DecodeStream.
Variable DECODERS :
  Z -> option (BufferReader.t -> Errors.res (Js.value * BufferReader.t)).

(** C1. A body frame of four octets for channel 1 is dispatched when it
    arrives in one chunk. When the socket delivers its first nine octets
    and then the last three, nothing is dispatched: the loop of [_decode]
    is not entered, the statement after it stores a cache only when the
    reader is at the end of the buffer, so the nine octets are dropped, and
    the last three wait in the cache for a frame start that never comes.
    The same happens to a frame that follows a heartbeat in its chunk. *)
Theorem decode_split_frame_is_dropped :
  let frame := [3; 0; 1; 0; 0; 0; 4; 1; 2; 3; 4; 206] in
  let beat := [8; 0; 0; 0; 0; 0; 0; 206] in
  let stream := new [(1, ChannelConsume)] in
  let whole := receive DECODERS [frame] stream in
  let split := receive DECODERS [take 9 frame; drop 9 frame] stream in
  let whole2 := receive DECODERS [beat ++ frame] stream in
  let split2 := receive DECODERS [beat ++ take 9 frame; drop 9 frame] stream in
  (dispatched whole = [handle_body 1 [1; 2; 3; 4]] /\
   cache whole = None /\ failed whole = None) /\
  (dispatched split = [] /\ cache split = Some [3; 4; 206] /\
   failed split = None) /\
  (dispatched whole2 = [handle_heartbeat 0; handle_body 1 [1; 2; 3; 4]] /\
   dispatched split2 = [handle_heartbeat 0] /\
   cache split2 = Some [3; 4; 206] /\ failed split2 = None).
Proof. cbv zeta. repeat split; vm_compute; reflexivity. Qed.

End DecodeStreamFacts.

(** ** The consumer *)
Section ConsumerFacts.
Import Consumer Errors.

(** *** ChannelConsume: the tag check *)





(** *** ConsumeStream: content assembly *)

Import Assembly.

Lemma total_length_nil : total_length [] = 0.
Proof. reflexivity. Qed.

Lemma total_length_cons (b : list Z) (bs : list (list Z)) :
  total_length (b :: bs) = Buffer.length b + total_length bs.
Proof. reflexivity. Qed.

Lemma total_length_nonneg (bs : list (list Z)) : 0 <= total_length bs.
Proof.
  induction bs as [|b bs IH]; [rewrite total_length_nil; lia|].
  rewrite total_length_cons. unfold Buffer.length. lia.
Qed.








Lemma feed_app (a b : list ConsumeChunk) (this : ConsumeStream) :
  feed (a ++ b) this =
  match feed a this with
  | (this', None) => feed b this'
  | (this', Some e) => (this', Some e)
  end.
Proof.
  revert this. induction a as [|c a IH]; intros this; cbn; [reflexivity|].
  destruct (_writeAsync c this); [apply IH | reflexivity].
Qed.






End ConsumerFacts.

(** ** Buffers *)
Section BufferFacts.
Import Octets Errors.

Lemma be_octets_length (n : nat) (v : Z) : length (Buffer.be_octets n v) = n.
Proof. induction n as [|n IH]; cbn; [reflexivity | f_equal; exact IH]. Qed.

Lemma be_octets_octets (n : nat) (v : Z) : octets (Buffer.be_octets n v).
Proof.
  induction n as [|n IH]; cbn; constructor; [|exact IH].
  apply Z.mod_pos_bound. lia.
Qed.

Lemma be_value_fold (n : nat) (v acc : Z) :
  fold_left (fun acc x => acc * 256 + x) (Buffer.be_octets n v) acc
  = acc * 256 ^ Z.of_nat n + v mod 256 ^ Z.of_nat n.
Proof.
  revert acc. induction n as [|n IH]; intros acc.
  - cbn. rewrite Z.mod_1_r. lia.
  - cbn [Buffer.be_octets fold_left]. rewrite IH.
    rewrite Nat2Z.inj_succ, Z.pow_succ_r by lia.
    assert (Hp : 0 < 256 ^ Z.of_nat n) by (apply Z.pow_pos_nonneg; lia).
    rewrite (Z.mul_comm 256 (256 ^ Z.of_nat n)).
    rewrite (Z.rem_mul_r v (256 ^ Z.of_nat n) 256) by lia. lia.
Qed.

Lemma be_value_octets (n : nat) (v : Z) :
  0 <= v < 256 ^ Z.of_nat n -> Buffer.be_value (Buffer.be_octets n v) = v.
Proof.
  intros Hv. unfold Buffer.be_value. rewrite be_value_fold.
  rewrite Z.mod_small by exact Hv. lia.
Qed.

Lemma pow_256 (n : nat) : 2 ^ (8 * Z.of_nat n) = 256 ^ Z.of_nat n.
Proof. rewrite Z.pow_mul_r by lia. reflexivity. Qed.


(** *** [holds] *)

Lemma holds_app (B : list Z) (o : Z) (x y : list Z) :
  holds B o (x ++ y) <-> holds B o x /\ holds B (o + Buffer.length x) y.
Proof.
  unfold holds, Buffer.length. rewrite length_app. split.
  - intros (Ho & Hb & H). repeat split; try lia.
    + intros j Hj. rewrite H by lia. apply lookup_app_l. exact Hj.
    + intros j Hj.
      replace (Z.to_nat (o + Z.of_nat (length x)) + j)%nat
        with (Z.to_nat o + (length x + j))%nat by lia.
      rewrite H by lia. rewrite lookup_app_r by lia. f_equal. lia.
  - intros [(Ho & Hb & H) (_ & Hb' & H')]. repeat split; try lia.
    intros j Hj. destruct (Nat.lt_ge_cases j (length x)) as [Hlt|Hge].
    + rewrite lookup_app_l by exact Hlt. apply H. exact Hlt.
    + rewrite lookup_app_r by exact Hge.
      rewrite <- (H' (j - length x)%nat) by lia. f_equal. lia.
Qed.

Lemma holds_nil (B : list Z) (o : Z) :
  0 <= o <= Buffer.length B -> holds B o [].
Proof.
  intros Ho. unfold holds. split; [lia|].
  split; [unfold Buffer.length in *; cbn; lia|].
  intros j Hj. cbn in Hj. lia.
Qed.

Lemma holds_take_drop (B : list Z) (o : Z) (bs : list Z) :
  holds B o bs -> take (length bs) (drop (Z.to_nat o) B) = bs.
Proof.
  intros (Ho & Hb & H). apply list_eq. intros j.
  destruct (Nat.lt_ge_cases j (length bs)) as [Hlt|Hge].
  - rewrite lookup_take_lt by exact Hlt. rewrite lookup_drop. apply H, Hlt.
  - rewrite lookup_take_ge by exact Hge. symmetry.
    apply lookup_ge_None_2. exact Hge.
Qed.

Lemma read_octets_holds (B : list Z) (o : Z) (bs : list Z) :
  holds B o bs -> Buffer.read_octets B o (length bs) = Ok bs.
Proof.
  intros Hh. pose proof Hh as (Ho & Hb & _). unfold Buffer.read_octets.
  unfold Buffer.length in Hb.
  destruct (Z.leb_spec 0 o); [|lia].
  destruct (Z.leb_spec (o + Z.of_nat (length bs)) (Buffer.length B));
    [|unfold Buffer.length in *; lia].
  cbn. f_equal. apply holds_take_drop, Hh.
Qed.

Lemma subarray_holds (B : list Z) (o : Z) (bs : list Z) :
  holds B o bs -> Buffer.subarray B o (o + Buffer.length bs) = bs.
Proof.
  intros Hh. pose proof Hh as (Ho & _). unfold Buffer.subarray, Buffer.length.
  replace (Z.to_nat (o + Z.of_nat (length bs)) - Z.to_nat o)%nat
    with (length bs) by lia.
  apply holds_take_drop, Hh.
Qed.

Lemma readUIntBE_holds (B : list Z) (o : Z) (n : nat) (v : Z) :
  holds B o (Buffer.be_octets n v) -> 0 <= v < 256 ^ Z.of_nat n ->
  Buffer.readUIntBE B o n = Ok v.
Proof.
  intros Hh Hv. unfold Buffer.readUIntBE.
  rewrite <- (be_octets_length n v) at 1.
  rewrite (read_octets_holds _ _ _ Hh). cbn.
  rewrite be_value_octets by exact Hv. reflexivity.
Qed.

Lemma readIntBE_holds (B : list Z) (o : Z) (n : nat) (v : Z) :
  (0 < n)%nat ->
  holds B o (Buffer.be_octets n (v mod 2 ^ (8 * Z.of_nat n))) ->
  - 2 ^ (8 * Z.of_nat n - 1) <= v < 2 ^ (8 * Z.of_nat n - 1) ->
  Buffer.readIntBE B o n = Ok v.
Proof.
  intros Hn Hh Hv. unfold Buffer.readIntBE.
  assert (Hp : 2 ^ (8 * Z.of_nat n) = 2 * 2 ^ (8 * Z.of_nat n - 1)).
  { rewrite <- Z.pow_succ_r by lia. f_equal. lia. }
  assert (Hpos : 0 < 2 ^ (8 * Z.of_nat n - 1)) by (apply Z.pow_pos_nonneg; lia).
  rewrite (readUIntBE_holds _ _ _ _ Hh).
  - cbn. f_equal.
    destruct (Z.ltb_spec (v mod 2 ^ (8 * Z.of_nat n)) (2 ^ (8 * Z.of_nat n - 1)))
      as [Hlt|Hge].
    + destruct (Z.lt_ge_cases v 0) as [Hneg|Hnn].
      * rewrite <- (Z.mod_add v 1) in Hlt by lia.
        rewrite Z.mod_small in Hlt by lia. lia.
      * apply Z.mod_small. lia.
    + destruct (Z.lt_ge_cases v 0) as [Hneg|Hnn].
      * rewrite <- (Z.mod_add v 1) by lia. rewrite Z.mod_small by lia. lia.
      * rewrite Z.mod_small in Hge by lia. lia.
  - rewrite <- pow_256. apply Z.mod_pos_bound. lia.
Qed.

(** *** [Buffer.write_octets] *)

Lemma write_octets_spec (b : list Z) (o : Z) (x b' : list Z) :
  Buffer.write_octets b o x = Ok b' ->
  0 <= o /\ o + Buffer.length x <= Buffer.length b /\
  length b' = length b /\
  (forall i, (i < Z.to_nat o)%nat -> b' !! i = b !! i) /\
  (forall j, (j < length x)%nat -> b' !! (Z.to_nat o + j)%nat = x !! j) /\
  (forall i, (Z.to_nat o + length x <= i)%nat -> b' !! i = b !! i).
Proof.
  unfold Buffer.write_octets, Buffer.length.
  destruct (Z.leb_spec 0 o); [|discriminate].
  destruct (Z.leb_spec (o + Z.of_nat (length x)) (Z.of_nat (length b)));
    [|discriminate].
  cbn. intros [= <-].
  assert (Ht : length (take (Z.to_nat o) b) = Z.to_nat o)
    by (rewrite length_take; lia).
  repeat split; try lia.
  - rewrite !length_app, Ht, length_drop. lia.
  - intros i Hi. rewrite lookup_app_l by lia. apply lookup_take_lt. exact Hi.
  - intros j Hj. rewrite lookup_app_r by lia. rewrite Ht.
    replace (Z.to_nat o + j - Z.to_nat o)%nat with j by lia.
    apply lookup_app_l. exact Hj.
  - intros i Hi. rewrite lookup_app_r by lia. rewrite Ht.
    rewrite lookup_app_r by lia. rewrite lookup_drop. f_equal. lia.
Qed.

Lemma write_octets_ok (b : list Z) (o : Z) (x : list Z) :
  0 <= o -> o + Buffer.length x <= Buffer.length b ->
  exists b', Buffer.write_octets b o x = Ok b'.
Proof.
  intros Ho Hb. unfold Buffer.write_octets.
  destruct (Z.leb_spec 0 o); [|lia].
  destruct (Z.leb_spec (o + Buffer.length x) (Buffer.length b)); [|lia].
  eexists. reflexivity.
Qed.

End BufferFacts.

(** ** The writer *)
Section WriterFacts.
Context `{Buffer.Memory}.
Import BufferWriter WriterSpec Errors Octets.

Lemma allocUnsafe_length (n : Z) :
  length (Buffer.allocUnsafe n) = Z.to_nat n.
Proof. unfold Buffer.allocUnsafe. rewrite length_map, length_seq. reflexivity. Qed.

Lemma octets_of_string_length (s : string) :
  length (Buffer.octets_of_string s) = String.length s.
Proof.
  unfold Buffer.octets_of_string. rewrite length_map.
  induction s as [|c s IH]; cbn; [reflexivity | f_equal; exact IH].
Qed.

Lemma byteLength_octets (s : string) :
  Buffer.byteLength s = Buffer.length (Buffer.octets_of_string s).
Proof.
  unfold Buffer.byteLength, Buffer.length. rewrite octets_of_string_length.
  reflexivity.
Qed.

(** *** [puts] *)

Lemma write_octets_puts (b : list Z) (o : Z) (x b' : list Z) :
  Buffer.write_octets b o x = Ok b' -> puts o x b b'.
Proof. intros Hw. apply write_octets_spec in Hw. exact Hw. Qed.

Lemma puts_nil (o : Z) (b : list Z) :
  0 <= o <= Buffer.length b -> puts o [] b b.
Proof.
  intros Ho. unfold puts, Buffer.length in *. cbn.
  repeat split; try lia.
Qed.

Lemma puts_app (o : Z) (x y b b1 b2 : list Z) :
  puts o x b b1 -> puts (o + Buffer.length x) y b1 b2 -> puts o (x ++ y) b b2.
Proof.
  unfold puts, Buffer.length. rewrite length_app.
  intros (Ho & Hb & Hl & Hlo & Hmid & Hhi) (_ & Hb' & Hl' & Hlo' & Hmid' & Hhi').
  split; [lia|]. split; [lia|]. split; [lia|]. split; [|split].
  - intros i Hi. rewrite Hlo' by lia. apply Hlo. exact Hi.
  - intros j Hj. destruct (Nat.lt_ge_cases j (length x)) as [Hlt|Hge].
    + rewrite lookup_app_l by exact Hlt. rewrite Hlo' by lia. apply Hmid, Hlt.
    + rewrite lookup_app_r by exact Hge.
      rewrite <- (Hmid' (j - length x)%nat) by lia. f_equal. lia.
  - intros i Hi. rewrite Hhi' by lia. apply Hhi. lia.
Qed.

(** *** [wrote] *)

Lemma wrote_refl (W : BufferWriter.t) : wrote W W [].
Proof.
  unfold wrote, Buffer.length. cbn. repeat split; auto; try lia.
Qed.

Lemma wrote_trans (W W1 W2 : BufferWriter.t) (a b : list Z) :
  0 <= _offset W -> wrote W W1 a -> wrote W1 W2 b -> wrote W W2 (a ++ b).
Proof.
  unfold wrote, Buffer.length. rewrite length_app.
  intros Ho (Hd & Hoff & Hbd & Hlen & Hpre & Hat)
         (Hd' & Hoff' & Hbd' & Hlen' & Hpre' & Hat').
  split; [congruence|]. split; [lia|]. split; [|split; [lia|split]].
  - destruct b as [|y b'].
    + destruct Hbd as [->|Hbd]; [left; reflexivity|]. right. cbn in *. lia.
    + right. destruct Hbd' as [Hbd'|Hbd']; [discriminate | exact Hbd'].
  - intros i Hi Hi'. rewrite Hpre' by lia. apply Hpre; assumption.
  - intros j Hj. destruct (Nat.lt_ge_cases j (length a)) as [Hlt|Hge].
    + rewrite lookup_app_l by exact Hlt.
      assert (Hne : a <> []) by (intros ->; cbn in Hlt; lia).
      destruct Hbd as [Hbd|Hbd]; [contradiction|].
      rewrite Hpre' by lia. apply Hat, Hlt.
    + rewrite lookup_app_r by exact Hge.
      rewrite <- (Hat' (j - length a)%nat) by lia. f_equal. lia.
Qed.

Lemma room_wrote (W W' : BufferWriter.t) (bs : list Z) :
  room W -> wrote W W' bs -> room W'.
Proof.
  unfold room, wrote, Buffer.length.
  intros (Hd & Ho & Hr) (Hd' & Hoff & Hbd & Hlen & _).
  split; [congruence|]. split; [lia|].
  destruct Hbd as [->|Hbd]; cbn in *; lia.
Qed.

Lemma tight_room (W : BufferWriter.t) : tight W -> room W.
Proof. unfold tight, room. intros (Hd & Ho & Hl). repeat split; lia || assumption. Qed.

Lemma tight_wrote (W W' : BufferWriter.t) (bs : list Z) :
  room W -> wrote W W' bs -> bs <> [] -> tight W'.
Proof.
  unfold room, wrote, tight, Buffer.length.
  intros (Hd & Ho & Hr) (Hd' & Hoff & Hbd & Hlen & _) Hne.
  destruct Hbd as [Hbd|Hbd]; [contradiction|].
  split; [congruence|]. split; lia.
Qed.

Lemma tight_wrote_tight (W W' : BufferWriter.t) (bs : list Z) :
  tight W -> wrote W W' bs -> tight W'.
Proof.
  unfold wrote, tight, Buffer.length.
  intros (Hd & Ho & Hr) (Hd' & Hoff & Hbd & Hlen & _).
  split; [congruence|]. split; [lia|].
  destruct Hbd as [->|Hbd]; cbn in *; lia.
Qed.

Lemma wrote_offset_nonneg (W W' : BufferWriter.t) (bs : list Z) :
  0 <= _offset W -> wrote W W' bs -> 0 <= _offset W'.
Proof. unfold wrote, Buffer.length. intros Ho (_ & Hoff & _). lia. Qed.

(** *** [safewrite] on a growable writer *)

Lemma safewrite_wrote (size : Z) (callback : BufferWriter.t -> res BufferWriter.t)
    (bs : list Z) (P : Prop) (W W' : BufferWriter.t) :
  room W -> size = Buffer.length bs -> stores callback bs P ->
  safewrite size callback W = Ok W' -> P /\ wrote W W' bs.
Proof.
  intros (Hd & Ho & Hr) Hsize Hst. unfold safewrite. rewrite Hd.
  unfold safewritedynamic.
  set (X := if _offset W + size >? Buffer.length (_buffer W)
            then with_buffer W
                   (_buffer W ++ Buffer.allocUnsafe (size + Codec.BUFFER_INC))
            else W).
  assert (HX : _offset X = _offset W /\ dynamic X = dynamic W /\
               _offset W + size <= Buffer.length (_buffer X) /\
               (length (_buffer W) <= length (_buffer X))%nat /\
               forall i, (i < length (_buffer W))%nat ->
                         _buffer X !! i = _buffer W !! i).
  { unfold X. destruct (Z.gtb_spec (_offset W + size) (Buffer.length (_buffer W))).
    - cbn. unfold Buffer.length in *. rewrite length_app, allocUnsafe_length.
      unfold Codec.BUFFER_INC. repeat split; try lia.
      intros i Hi. apply lookup_app_l. exact Hi.
    - repeat split; try lia. }
  destruct HX as (HXo & HXd & HXb & HXl & HXp).
  destruct (callback X) as [X'|e] eqn:Ecb; [|discriminate].
  cbn. intros [= <-].
  destruct (Hst X X') as (HP & b' & -> & Hputs); [lia | lia | exact Ecb |].
  split; [exact HP|].
  destruct Hputs as (_ & Hb & Hl & Hlo & Hmid & Hhi).
  unfold wrote. cbn. unfold Buffer.length in *.
  split; [congruence|]. split; [lia|]. split; [right; lia|]. split; [lia|].
  split.
  - intros i Hi Hi'. rewrite Hlo by lia. apply HXp. exact Hi'.
  - intros j Hj. rewrite <- HXo. apply Hmid. exact Hj.
Qed.

Lemma stores_put_uint (n : nat) (v : Z) :
  stores (put_uint n v) (Buffer.be_octets n v) (0 <= v < 2 ^ (8 * Z.of_nat n)).
Proof.
  intros X X' _ _. unfold put_uint, Buffer.writeUIntBE.
  destruct (Z.leb_spec 0 v); [|discriminate].
  destruct (Z.ltb_spec v (2 ^ (8 * Z.of_nat n))); [|discriminate].
  cbn [andb].
  destruct (Buffer.write_octets _ _ _) as [b'|] eqn:E; [|discriminate].
  cbn. intros [= <-]. split; [lia|]. exists b'.
  split; [reflexivity | apply write_octets_puts, E].
Qed.

Lemma stores_put_int (n : nat) (v : Z) :
  stores (put_int n v) (Buffer.be_octets n (v mod 2 ^ (8 * Z.of_nat n)))
    (- 2 ^ (8 * Z.of_nat n - 1) <= v < 2 ^ (8 * Z.of_nat n - 1)).
Proof.
  intros X X' _ _. unfold put_int, Buffer.writeIntBE.
  destruct (Z.leb_spec (- 2 ^ (8 * Z.of_nat n - 1)) v); [|discriminate].
  destruct (Z.ltb_spec v (2 ^ (8 * Z.of_nat n - 1))); [|discriminate].
  cbn [andb].
  destruct (Buffer.write_octets _ _ _) as [b'|] eqn:E; [|discriminate].
  cbn. intros [= <-]. split; [lia|]. exists b'.
  split; [reflexivity | apply write_octets_puts, E].
Qed.

Lemma uint_wrote (n : nat) (size v : Z) (W W' : BufferWriter.t) :
  size = Z.of_nat n -> room W -> safewrite size (put_uint n v) W = Ok W' ->
  0 <= v < 2 ^ (8 * Z.of_nat n) /\ wrote W W' (Buffer.be_octets n v).
Proof.
  intros Hs Hr Hw. eapply safewrite_wrote; [exact Hr | | apply stores_put_uint | exact Hw].
  unfold Buffer.length. rewrite be_octets_length. exact Hs.
Qed.

Lemma int_wrote (n : nat) (size v : Z) (W W' : BufferWriter.t) :
  size = Z.of_nat n -> room W -> safewrite size (put_int n v) W = Ok W' ->
  - 2 ^ (8 * Z.of_nat n - 1) <= v < 2 ^ (8 * Z.of_nat n - 1) /\
  wrote W W' (Buffer.be_octets n (v mod 2 ^ (8 * Z.of_nat n))).
Proof.
  intros Hs Hr Hw. eapply safewrite_wrote; [exact Hr | | apply stores_put_int | exact Hw].
  unfold Buffer.length. rewrite be_octets_length. exact Hs.
Qed.

(** A length prefix of [k] octets followed by the octets of a string. *)
Lemma stores_string (k : nat) (s : string) :
  stores (fun this : BufferWriter.t =>
            b ← Buffer.writeUIntBE (_buffer this) (Buffer.byteLength s)
                  (_offset this) k;
            b ← Buffer.write b s (_offset this + Z.of_nat k);
            Ok (with_buffer this b))
         (Buffer.be_octets k (Buffer.byteLength s) ++ Buffer.octets_of_string s)
         (0 <= Buffer.byteLength s < 2 ^ (8 * Z.of_nat k)).
Proof.
  intros X X' Ho Hroom. unfold Buffer.writeUIntBE.
  destruct (Z.leb_spec 0 (Buffer.byteLength s)); [|discriminate].
  destruct (Z.ltb_spec (Buffer.byteLength s) (2 ^ (8 * Z.of_nat k))); [|discriminate].
  cbn [andb].
  destruct (Buffer.write_octets _ _ _) as [b1|] eqn:E1; [|discriminate].
  cbn [mbind res_bind Errors.bind].
  apply write_octets_puts in E1.
  assert (Hl1 : length b1 = length (_buffer X)) by apply E1.
  unfold Buffer.length in Hroom. rewrite length_app, be_octets_length in Hroom.
  unfold Buffer.write.
  destruct (Buffer.octets_of_string s) as [|c cs] eqn:Es.
  - cbn. intros [= <-]. split; [lia|]. exists b1. split; [reflexivity|].
    rewrite app_nil_r. exact E1.
  - destruct (Z.leb_spec 0 (_offset X + Z.of_nat k)); [|lia].
    destruct (Z.leb_spec (_offset X + Z.of_nat k) (Buffer.length b1));
      [|unfold Buffer.length in *; lia].
    cbn [andb].
    rewrite take_ge by (unfold Buffer.length in *; cbn in *; lia).
    destruct (Buffer.write_octets b1 _ _) as [b2|] eqn:E2; [|discriminate].
    cbn. intros [= <-]. split; [lia|]. exists b2. split; [reflexivity|].
    apply write_octets_puts in E2.
    eapply puts_app; [exact E1|].
    unfold Buffer.length at 1. rewrite be_octets_length. exact E2.
Qed.

Lemma shortstr_wrote (s : string) (W W' : BufferWriter.t) :
  room W -> shortstr s W = Ok W' ->
  0 <= Buffer.byteLength s < 256 /\
  wrote W W' (Buffer.be_octets 1 (Buffer.byteLength s) ++ Buffer.octets_of_string s).
Proof.
  intros Hr Hw. unfold shortstr in Hw.
  eapply (safewrite_wrote _ _ _ _ _ _ Hr) in Hw; [exact Hw| |apply (stores_string 1)].
  unfold Buffer.length. rewrite length_app, be_octets_length, octets_of_string_length.
  unfold Buffer.byteLength. lia.
Qed.

Lemma longstr_wrote (s : string) (W W' : BufferWriter.t) :
  room W -> longstr s W = Ok W' ->
  0 <= Buffer.byteLength s < 4294967296 /\
  wrote W W' (Buffer.be_octets 4 (Buffer.byteLength s) ++ Buffer.octets_of_string s).
Proof.
  intros Hr Hw. unfold longstr in Hw.
  eapply (safewrite_wrote _ _ _ _ _ _ Hr) in Hw; [exact Hw| |apply (stores_string 4)].
  unfold Buffer.length. rewrite length_app, be_octets_length, octets_of_string_length.
  unfold Buffer.byteLength. lia.
Qed.

Lemma binary_wrote (value : list Z) (W W' : BufferWriter.t) :
  room W -> binary value W = Ok W' ->
  Buffer.length value < 4294967296 /\
  wrote W W' (Buffer.be_octets 4 (Buffer.length value) ++ value).
Proof.
  intros Hr. unfold binary.
  destruct (Z.eqb_spec (Buffer.length value) 0) as [E|E]; cbn [negb].
  - intros Hw. apply (uint_wrote 4 4 0 W W' eq_refl Hr) in Hw.
    destruct value; [|discriminate]. rewrite E, app_nil_r.
    split; [lia | apply Hw].
  - intros Hw.
    eapply (safewrite_wrote _ _ (Buffer.be_octets 4 (Buffer.length value) ++ value)
              (0 <= Buffer.length value < 2 ^ (8 * Z.of_nat 4)) _ _ Hr) in Hw.
    + destruct Hw as [Hrange Hw]. split; [cbn in Hrange; lia | exact Hw].
    + unfold Buffer.length. rewrite length_app, be_octets_length. lia.
    + intros X X' Ho Hroom. unfold Buffer.writeUIntBE.
      destruct (Z.leb_spec 0 (Buffer.length value)); [|discriminate].
      destruct (Z.ltb_spec (Buffer.length value) (2 ^ (8 * Z.of_nat 4)));
        [|discriminate].
      cbn [andb].
      destruct (Buffer.write_octets _ _ _) as [b1|] eqn:E1; [|discriminate].
      cbn [mbind res_bind Errors.bind]. unfold Buffer.set.
      destruct (Buffer.write_octets b1 _ _) as [b2|] eqn:E2; [|discriminate].
      cbn [mbind res_bind Errors.bind]. intros [= <-].
      split; [lia|]. exists b2. split; [reflexivity|].
      apply write_octets_puts in E1, E2.
      eapply puts_app; [exact E1|].
      unfold Buffer.length at 1. rewrite be_octets_length. exact E2.
Qed.

End WriterFacts.

(** ** Frames *)
Section FrameFacts.
Context `{Buffer.Memory}.
Import BufferWriter WriterSpec Errors Octets Frame.

Lemma be_length (n : nat) (v : Z) :
  Buffer.length (Buffer.be_octets n v) = Z.of_nat n.
Proof. unfold Buffer.length. rewrite be_octets_length. reflexivity. Qed.

Lemma puts_app_at (o o' : Z) (x y b b1 b2 : list Z) :
  puts o x b b1 -> o' = o + Buffer.length x -> puts o' y b1 b2 ->
  puts o (x ++ y) b b2.
Proof. intros H1 -> H2. eapply puts_app; eassumption. Qed.

Lemma puts_length (o : Z) (bs b b' : list Z) :
  puts o bs b b' -> Buffer.length b' = Buffer.length b.
Proof. intros (_ & _ & Hl & _). unfold Buffer.length. rewrite Hl. reflexivity. Qed.

Lemma puts_holds (o : Z) (bs b b' : list Z) : puts o bs b b' -> holds b' o bs.
Proof.
  intros (Ho & Hb & Hl & _ & Hmid & _). unfold holds, Buffer.length in *.
  rewrite Hl. auto.
Qed.

Lemma puts_keeps (o : Z) (bs b b' : list Z) (o' : Z) (x : list Z) :
  puts o bs b b' -> holds b o' x ->
  o' + Buffer.length x <= o \/ o + Buffer.length bs <= o' ->
  holds b' o' x.
Proof.
  intros (Ho & Hb & Hl & Hlo & _ & Hhi) (Ho' & Hb' & Hx) Hd.
  unfold holds, Buffer.length in *. rewrite Hl.
  split; [exact Ho'|]. split; [exact Hb'|].
  intros j Hj. rewrite <- (Hx j Hj).
  destruct Hd; [apply Hlo | apply Hhi]; lia.
Qed.

Lemma holds_all (B bs : list Z) :
  holds B 0 bs -> length B = length bs -> B = bs.
Proof.
  intros (_ & _ & Hh) Hl. apply list_eq. intros j.
  destruct (Nat.lt_ge_cases j (length bs)) as [Hlt|Hge].
  - apply (Hh j Hlt).
  - rewrite !lookup_ge_None_2 by lia. reflexivity.
Qed.

Lemma writeUIntBE_puts (b : list Z) (v o : Z) (n : nat) (b' : list Z) :
  Buffer.writeUIntBE b v o n = Ok b' ->
  0 <= v < 2 ^ (8 * Z.of_nat n) /\ puts o (Buffer.be_octets n v) b b'.
Proof.
  unfold Buffer.writeUIntBE.
  destruct (Z.leb_spec 0 v); [|discriminate].
  destruct (Z.ltb_spec v (2 ^ (8 * Z.of_nat n))); [|discriminate].
  cbn [andb]. intros Hw. split; [lia | apply write_octets_puts, Hw].
Qed.

Lemma writeUIntBE_ok (b : list Z) (v o : Z) (n : nat) :
  0 <= v < 2 ^ (8 * Z.of_nat n) -> 0 <= o ->
  o + Z.of_nat n <= Buffer.length b ->
  exists b', Buffer.writeUIntBE b v o n = Ok b'.
Proof.
  intros Hv Ho Hb. unfold Buffer.writeUIntBE.
  destruct (Z.leb_spec 0 v); [|lia].
  destruct (Z.ltb_spec v (2 ^ (8 * Z.of_nat n))); [|lia].
  cbn [andb]. apply write_octets_ok; [exact Ho|]. rewrite be_length. exact Hb.
Qed.

(** *** [framestart] and [methodstart] *)

Lemma framestart_inv (frame_type channel size : Z) (W W' : BufferWriter.t) :
  framestart frame_type channel size W = Ok W' ->
  (0 <= frame_type < 256 /\ 0 <= channel < 65536 /\ 0 <= size < 4294967296) /\
  exists b', W' = mk b' 7 (dynamic W) /\
    puts 0 (Buffer.be_octets 1 frame_type ++ Buffer.be_octets 2 channel
              ++ Buffer.be_octets 4 size) (_buffer W) b'.
Proof.
  unfold framestart.
  destruct (Buffer.writeUIntBE (_buffer W) _ 0 1) as [b1|] eqn:E1; [|discriminate].
  cbn [mbind res_bind Errors.bind].
  destruct (Buffer.writeUIntBE b1 _ 1 2) as [b2|] eqn:E2; [|discriminate].
  cbn [mbind res_bind Errors.bind].
  destruct (Buffer.writeUIntBE b2 _ 3 4) as [b3|] eqn:E3; [|discriminate].
  cbn [mbind res_bind Errors.bind]. intros [= <-].
  apply writeUIntBE_puts in E1, E2, E3.
  destruct E1 as [R1 P1], E2 as [R2 P2], E3 as [R3 P3].
  split; [cbn in R1, R2, R3; lia|]. exists b3. split; [reflexivity|].
  eapply puts_app_at; [exact P1 | rewrite be_length; reflexivity |].
  eapply puts_app_at; [exact P2 | rewrite be_length; reflexivity | exact P3].
Qed.

Lemma framestart_ok (frame_type channel size : Z) (W : BufferWriter.t) :
  0 <= frame_type < 256 -> 0 <= channel < 65536 -> 0 <= size < 4294967296 ->
  7 <= Buffer.length (_buffer W) ->
  exists W', framestart frame_type channel size W = Ok W'.
Proof.
  intros R1 R2 R3 Hl. unfold framestart.
  destruct (writeUIntBE_ok (_buffer W) frame_type 0 1) as [b1 E1];
    [cbn; lia | lia | cbn; lia |].
  rewrite E1. cbn [mbind res_bind Errors.bind].
  apply writeUIntBE_puts in E1. destruct E1 as [_ P1]. apply puts_length in P1.
  destruct (writeUIntBE_ok b1 channel 1 2) as [b2 E2];
    [cbn; lia | lia | cbn; lia |].
  rewrite E2. cbn [mbind res_bind Errors.bind].
  apply writeUIntBE_puts in E2. destruct E2 as [_ P2]. apply puts_length in P2.
  destruct (writeUIntBE_ok b2 size 3 4) as [b3 E3];
    [cbn; lia | lia | cbn; lia |].
  rewrite E3. cbn [mbind res_bind Errors.bind]. eexists. reflexivity.
Qed.

Lemma methodstart_inv (channel size method_id : Z) (W W' : BufferWriter.t) :
  methodstart channel size method_id W = Ok W' ->
  (0 <= channel < 65536 /\ 0 <= size < 4294967296 /\
   0 <= method_id < 4294967296) /\
  exists b', W' = mk b' 11 (dynamic W) /\
    puts 0 (Buffer.be_octets 1 Codec.frame_method ++ Buffer.be_octets 2 channel
              ++ Buffer.be_octets 4 size ++ Buffer.be_octets 4 method_id)
         (_buffer W) b'.
Proof.
  unfold methodstart.
  destruct (framestart _ _ _ W) as [W1|] eqn:E1; [|discriminate].
  cbn [mbind res_bind Errors.bind].
  apply framestart_inv in E1. destruct E1 as [(_ & R2 & R3) (b1 & -> & P1)].
  cbn [_buffer dynamic].
  destruct (Buffer.writeUIntBE b1 _ 7 4) as [b2|] eqn:E2; [|discriminate].
  cbn [mbind res_bind Errors.bind]. intros [= <-].
  apply writeUIntBE_puts in E2. destruct E2 as [R4 P2].
  split; [cbn in R4; lia|]. exists b2. split; [reflexivity|].
  replace (Buffer.be_octets 1 Codec.frame_method ++ Buffer.be_octets 2 channel
             ++ Buffer.be_octets 4 size ++ Buffer.be_octets 4 method_id)
    with ((Buffer.be_octets 1 Codec.frame_method ++ Buffer.be_octets 2 channel
             ++ Buffer.be_octets 4 size) ++ Buffer.be_octets 4 method_id)
    by (rewrite <- !app_assoc; reflexivity).
  eapply puts_app_at; [exact P1 | | exact P2].
  unfold Buffer.length. rewrite !length_app, !be_octets_length. reflexivity.
Qed.

Lemma methodstart_ok (channel size method_id : Z) (W : BufferWriter.t) :
  0 <= channel < 65536 -> 0 <= size < 4294967296 ->
  0 <= method_id < 4294967296 -> 11 <= Buffer.length (_buffer W) ->
  exists W', methodstart channel size method_id W = Ok W'.
Proof.
  intros R1 R2 R3 Hl. unfold methodstart.
  destruct (framestart_ok Codec.frame_method channel size W) as [W1 E1];
    [unfold Codec.frame_method; lia | lia | lia | lia |].
  rewrite E1. cbn [mbind res_bind Errors.bind].
  apply framestart_inv in E1. destruct E1 as [_ (b1 & -> & P1)].
  apply puts_length in P1. cbn [_buffer dynamic].
  destruct (writeUIntBE_ok b1 method_id 7 4) as [b2 E2];
    [cbn; lia | lia | cbn; lia |].
  rewrite E2. eexists. reflexivity.
Qed.

(** *** [frameend] on a writer of fixed size *)

Lemma frameend_static_inv (W W' : BufferWriter.t) :
  dynamic W = false -> frameend W = Ok W' ->
  exists b', W' = mk b' (_offset W + 1) false /\
    puts (_offset W) [Codec.frame_end] (_buffer W) b'.
Proof.
  intros Hd. unfold frameend, uint8, safewrite. rewrite Hd.
  unfold safewritestatic, put_uint.
  destruct (Buffer.writeUIntBE _ _ _ _) as [b1|] eqn:E1; [|discriminate].
  cbn [mbind res_bind Errors.bind]. intros [= <-].
  apply writeUIntBE_puts in E1. destruct E1 as [_ P1].
  exists b1. split; [|exact P1].
  unfold with_offset, with_buffer. cbn. rewrite Hd. reflexivity.
Qed.

Lemma frameend_static_ok (W : BufferWriter.t) :
  dynamic W = false -> 0 <= _offset W ->
  _offset W + 1 <= Buffer.length (_buffer W) ->
  exists W', frameend W = Ok W'.
Proof.
  intros Hd Ho Hl. unfold frameend, uint8, safewrite. rewrite Hd.
  unfold safewritestatic, put_uint.
  destruct (writeUIntBE_ok (_buffer W) Codec.frame_end (_offset W) 1) as [b1 E1];
    [unfold Codec.frame_end; cbn; lia | lia | cbn; lia |].
  rewrite E1. eexists. reflexivity.
Qed.

(** *** The envelope *)

Lemma holds_self (bs : list Z) : holds bs 0 bs.
Proof.
  unfold holds, Buffer.length. split; [lia|]. split; [lia|].
  intros j Hj. reflexivity.
Qed.

Lemma holds_inside (x y z : list Z) : holds (x ++ y ++ z) (Buffer.length x) y.
Proof.
  pose proof (holds_self (x ++ y ++ z)) as Hs.
  apply holds_app in Hs. destruct Hs as [_ Hs].
  apply holds_app in Hs. destruct Hs as [Hs _]. exact Hs.
Qed.

Lemma envelope_sized (frame_type channel : Z) (payload : list Z) :
  Buffer.length payload < 4294967296 ->
  sized (envelope frame_type channel payload)
        (Buffer.length payload) (8 + Buffer.length payload).
Proof.
  intros Hp. unfold sized, envelope. split; [|split].
  - apply readUIntBE_holds;
      [|rewrite <- pow_256; unfold Buffer.length in *; cbn; lia].
    pose proof (holds_inside ([frame_type] ++ Buffer.be_octets 2 channel)
                  (Buffer.be_octets 4 (Buffer.length payload))
                  (payload ++ [Codec.frame_end])) as Hi.
    rewrite <- app_assoc in Hi.
    replace (Buffer.length ([frame_type] ++ Buffer.be_octets 2 channel))
      with 3 in Hi; [exact Hi|].
    unfold Buffer.length. rewrite length_app, be_octets_length. reflexivity.
  - unfold Buffer.length. rewrite !length_app, !be_octets_length. cbn. lia.
  - rewrite !app_assoc. apply last_last.
Qed.

(** *** The helpers that write a frame of fixed size *)

Lemma writeVoid_inv (method_id channel : Z) (out : list Z) :
  writeVoid method_id channel = Ok out ->
  0 <= channel < 65536 /\ 0 <= method_id < 4294967296.
Proof.
  unfold writeVoid.
  destruct (methodstart _ _ _ _) as [W1|] eqn:E1; [|discriminate].
  apply methodstart_inv in E1. intros _. split; apply E1.
Qed.

Lemma writeVoid_frame (method_id channel : Z) :
  0 <= channel < 65536 -> 0 <= method_id < 4294967296 ->
  writeVoid method_id channel
  = Ok (envelope Codec.frame_method channel (Buffer.be_octets 4 method_id)).
Proof.
  intros R1 R2. unfold writeVoid.
  set (W0 := new Codec.EMPTY_FRAME_METHOD_SIZE false).
  assert (Hl0 : length (_buffer W0) = 12%nat) by apply allocUnsafe_length.
  destruct (methodstart_ok channel Codec.EMPTY_FRAME_METHOD_PAYLOAD_SIZE
              method_id W0) as [W1 E1];
    [lia | unfold Codec.EMPTY_FRAME_METHOD_PAYLOAD_SIZE; lia | lia
    | unfold Buffer.length; lia |].
  rewrite E1. cbn [mbind res_bind Errors.bind].
  apply methodstart_inv in E1. destruct E1 as [_ (b1 & -> & P1)].
  change (dynamic W0) with false.
  pose proof (puts_length _ _ _ _ P1) as L1. unfold Buffer.length in L1.
  destruct (frameend_static_ok (mk b1 11 false)) as [W2 E2];
    [reflexivity | cbn; lia | cbn; unfold Buffer.length; lia |].
  rewrite E2. cbn [mbind res_bind Errors.bind].
  apply frameend_static_inv in E2; [|reflexivity].
  destruct E2 as (b2 & -> & P2). cbn [_buffer _offset] in P2.
  unfold socket_octets. cbn [dynamic _buffer]. f_equal.
  pose proof (puts_length _ _ _ _ P2) as L2. unfold Buffer.length in L2.
  assert (P : puts 0 (envelope Codec.frame_method channel
                        (Buffer.be_octets 4 method_id)) (_buffer W0) b2).
  { unfold envelope. rewrite be_length.
    replace ([Codec.frame_method] ++ Buffer.be_octets 2 channel
               ++ Buffer.be_octets 4 (Z.of_nat 4)
               ++ Buffer.be_octets 4 method_id ++ [Codec.frame_end])
      with ((Buffer.be_octets 1 Codec.frame_method ++ Buffer.be_octets 2 channel
               ++ Buffer.be_octets 4 Codec.EMPTY_FRAME_METHOD_PAYLOAD_SIZE
               ++ Buffer.be_octets 4 method_id) ++ [Codec.frame_end])
      by (rewrite <- !app_assoc; reflexivity).
    eapply puts_app_at; [exact P1 | | exact P2].
    unfold Buffer.length. rewrite !length_app, !be_octets_length. reflexivity. }
  apply holds_all; [apply (puts_holds _ _ _ _ P)|].
  unfold envelope. rewrite !length_app, !be_octets_length. cbn. lia.
Qed.

Lemma writeBodyOne_inv (channel : Z) (body out : list Z) :
  writeBodyOne channel body = Ok out ->
  0 <= channel < 65536 /\ Buffer.length body < 4294967296.
Proof.
  unfold writeBodyOne.
  destruct (framestart _ _ _ _) as [W1|] eqn:E1; [|discriminate].
  apply framestart_inv in E1. intros _. split; apply E1.
Qed.

Lemma writeBodyOne_frame (channel : Z) (body : list Z) :
  0 <= channel < 65536 -> Buffer.length body < 4294967296 ->
  writeBodyOne channel body = Ok (envelope Codec.frame_body channel body).
Proof.
  intros R1 R2. unfold writeBodyOne.
  set (W0 := new (Codec.EMPTY_FRAME_SIZE + Buffer.length body) false).
  assert (Hl0 : length (_buffer W0) = (8 + length body)%nat).
  { unfold W0, new. cbn [_buffer]. rewrite allocUnsafe_length.
    unfold Codec.EMPTY_FRAME_SIZE, Buffer.length. lia. }
  destruct (framestart_ok Codec.frame_body channel (Buffer.length body) W0)
    as [W1 E1];
    [unfold Codec.frame_body; lia | lia | unfold Buffer.length in *; lia
    | unfold Buffer.length; lia |].
  rewrite E1. cbn [mbind res_bind Errors.bind].
  apply framestart_inv in E1. destruct E1 as [_ (b1 & -> & P1)].
  change (dynamic W0) with false.
  pose proof (puts_length _ _ _ _ P1) as L1. unfold Buffer.length in L1.
  cbn [_buffer _offset]. unfold Buffer.set.
  destruct (write_octets_ok b1 7 body) as [b2 E2];
    [lia | unfold Buffer.length; lia |].
  rewrite E2. cbn [mbind res_bind Errors.bind].
  apply write_octets_puts in E2.
  pose proof (puts_length _ _ _ _ E2) as L2. unfold Buffer.length in L2.
  destruct (writeUIntBE_ok b2 Codec.frame_end (7 + Buffer.length body) 1)
    as [b3 E3];
    [unfold Codec.frame_end; cbn; lia | unfold Buffer.length; lia
    | unfold Buffer.length; lia |].
  rewrite E3. cbn [mbind res_bind Errors.bind].
  apply writeUIntBE_puts in E3. destruct E3 as [_ P3].
  pose proof (puts_length _ _ _ _ P3) as L3. unfold Buffer.length in L3.
  unfold socket_octets. cbn [dynamic with_buffer _buffer]. f_equal.
  assert (P : puts 0 (envelope Codec.frame_body channel body) (_buffer W0) b3).
  { unfold envelope.
    replace ([Codec.frame_body] ++ Buffer.be_octets 2 channel
               ++ Buffer.be_octets 4 (Buffer.length body) ++ body
               ++ [Codec.frame_end])
      with (((Buffer.be_octets 1 Codec.frame_body ++ Buffer.be_octets 2 channel
               ++ Buffer.be_octets 4 (Buffer.length body)) ++ body)
               ++ Buffer.be_octets 1 Codec.frame_end)
      by (rewrite <- !app_assoc; reflexivity).
    eapply puts_app_at; [| |exact P3].
    - eapply puts_app_at; [exact P1 | | exact E2].
      unfold Buffer.length. rewrite !length_app, !be_octets_length. reflexivity.
    - unfold Buffer.length. rewrite !length_app, !be_octets_length. lia. }
  apply holds_all; [apply (puts_holds _ _ _ _ P)|].
  unfold envelope. rewrite !length_app, !be_octets_length. cbn. lia.
Qed.

Lemma writeHeartbeat_frame :
  writeHeartbeat = Ok (envelope Codec.frame_heartbeat 0 []).
Proof.
  unfold writeHeartbeat, heartbeat.
  set (W0 := new Codec.EMPTY_FRAME_SIZE false).
  assert (Hl0 : length (_buffer W0) = 8%nat) by apply allocUnsafe_length.
  destruct (framestart_ok Codec.frame_heartbeat 0 0 W0) as [W1 E1];
    [unfold Codec.frame_heartbeat; lia | lia | lia | unfold Buffer.length; lia |].
  rewrite E1. cbn [mbind res_bind Errors.bind].
  apply framestart_inv in E1. destruct E1 as [_ (b1 & -> & P1)].
  change (dynamic W0) with false.
  pose proof (puts_length _ _ _ _ P1) as L1. unfold Buffer.length in L1.
  destruct (frameend_static_ok (mk b1 7 false)) as [W2 E2];
    [reflexivity | cbn; lia | cbn; unfold Buffer.length; lia |].
  rewrite E2. cbn [mbind res_bind Errors.bind].
  apply frameend_static_inv in E2; [|reflexivity].
  destruct E2 as (b2 & -> & P2). cbn [_buffer _offset] in P2.
  unfold socket_octets. cbn [dynamic _buffer]. f_equal.
  pose proof (puts_length _ _ _ _ P2) as L2. unfold Buffer.length in L2.
  assert (P : puts 0 (envelope Codec.frame_heartbeat 0 []) (_buffer W0) b2).
  { change (envelope Codec.frame_heartbeat 0 [])
      with ((Buffer.be_octets 1 Codec.frame_heartbeat ++ Buffer.be_octets 2 0
               ++ Buffer.be_octets 4 0) ++ [Codec.frame_end]).
    eapply puts_app_at; [exact P1 | | exact P2]. reflexivity. }
  apply holds_all; [apply (puts_holds _ _ _ _ P)|].
  cbn. lia.
Qed.

(** *** Frames of variable size *)

Lemma wrote_holds (W W' : BufferWriter.t) (bs : list Z) :
  0 <= _offset W -> bs <> [] -> wrote W W' bs ->
  holds (_buffer W') (_offset W) bs.
Proof.
  intros Ho Hne (_ & Hoff & Hbd & _ & _ & Hat).
  destruct Hbd as [Hbd|Hbd]; [contradiction|].
  unfold holds. split; [exact Ho|]. split; [lia | exact Hat].
Qed.

Lemma wrote_keeps (W W' : BufferWriter.t) (bs : list Z) (o : Z) (x : list Z) :
  wrote W W' bs -> holds (_buffer W) o x -> o + Buffer.length x <= _offset W ->
  holds (_buffer W') o x.
Proof.
  intros (_ & _ & _ & Hlen & Hpre & _) (Ho & Hb & Hx) Hle.
  unfold holds, Buffer.length in *.
  split; [exact Ho|]. split; [lia|].
  intros j Hj. rewrite Hpre by lia. apply Hx, Hj.
Qed.

Lemma frameend_wrote (W W' : BufferWriter.t) :
  room W -> frameend W = Ok W' -> wrote W W' [Codec.frame_end].
Proof.
  intros Hr Hw. apply (uint_wrote 1 1 Codec.frame_end W W' eq_refl Hr) in Hw.
  apply Hw.
Qed.

Lemma setframelength_inv (W W' : BufferWriter.t) :
  setframelength W = Ok W' ->
  0 <= _offset W - 8 < 4294967296 /\
  exists b', W' = with_buffer W b' /\
    puts 3 (Buffer.be_octets 4 (_offset W - 8)) (_buffer W) b'.
Proof.
  unfold setframelength, Codec.EMPTY_FRAME_SIZE.
  destruct (Buffer.writeUIntBE _ _ _ _) as [b'|] eqn:E; [|discriminate].
  cbn [mbind res_bind Errors.bind]. intros [= <-].
  apply writeUIntBE_puts in E. destruct E as [R P].
  split; [cbn in R; lia|]. exists b'. split; [reflexivity | exact P].
Qed.

(** A growable writer that holds the type and the channel of a frame and
    the first octets [pre] of its payload, to which [args] is appended and
    which is finished by [frameend] and [setframelength]. *)
Lemma finished_frame (frame_type channel : Z) (pre args : list Z)
    (W1 W2 W3 W4 : BufferWriter.t) :
  room W1 -> _offset W1 = 7 + Buffer.length pre ->
  holds (_buffer W1) 0 ([frame_type] ++ Buffer.be_octets 2 channel) ->
  holds (_buffer W1) 7 pre ->
  wrote W1 W2 args -> frameend W2 = Ok W3 -> setframelength W3 = Ok W4 ->
  Buffer.length (pre ++ args) < 4294967296 /\
  socket_octets W4 = envelope frame_type channel (pre ++ args).
Proof.
  intros Hr1 Ho1 Hhead Hpre Hw12 He Hs.
  pose proof Hr1 as (Hd1 & Hpos1 & _).
  pose proof (room_wrote _ _ _ Hr1 Hw12) as Hr2.
  pose proof (frameend_wrote _ _ Hr2 He) as Hw23.
  pose proof (wrote_trans _ _ _ _ _ Hpos1 Hw12 Hw23) as Hw13.
  pose proof (room_wrote _ _ _ Hr1 Hw13) as (Hd3 & _ & _).
  assert (Ho3 : _offset W3 = 8 + Buffer.length (pre ++ args)).
  { destruct Hw13 as (_ & Hoff & _). rewrite Hoff, Ho1.
    unfold Buffer.length. rewrite !length_app. cbn. lia. }
  apply setframelength_inv in Hs. destruct Hs as [R (b4 & -> & P4)].
  rewrite Ho3 in R, P4.
  replace (8 + Buffer.length (pre ++ args) - 8)
    with (Buffer.length (pre ++ args)) in P4 by lia.
  split; [lia|].
  assert (H0 : holds (_buffer W3) 0 ([frame_type] ++ Buffer.be_octets 2 channel)).
  { apply (wrote_keeps _ _ _ _ _ Hw13 Hhead).
    unfold Buffer.length. rewrite length_app, be_octets_length. cbn.
    unfold Buffer.length in Ho1. lia. }
  assert (H7 : holds (_buffer W3) 7 (pre ++ args ++ [Codec.frame_end])).
  { apply holds_app. split.
    - apply (wrote_keeps _ _ _ _ _ Hw13 Hpre). lia.
    - rewrite <- Ho1. apply (wrote_holds _ _ _ Hpos1); [|exact Hw13].
      intros E. apply app_eq_nil in E. destruct E as [_ E]. discriminate E. }
  assert (Hall : holds b4 0 (envelope frame_type channel (pre ++ args))).
  { unfold envelope. rewrite app_assoc. apply holds_app. split.
    - apply (puts_keeps _ _ _ _ _ _ P4 H0). left.
      unfold Buffer.length. rewrite length_app, be_octets_length. cbn. lia.
    - replace (0 + Buffer.length ([frame_type] ++ Buffer.be_octets 2 channel))
        with 3
        by (unfold Buffer.length; rewrite length_app, be_octets_length;
            reflexivity).
      apply holds_app. split; [apply (puts_holds _ _ _ _ P4)|].
      rewrite be_length. rewrite <- app_assoc.
      apply (puts_keeps _ _ _ _ _ _ P4 H7). right. rewrite be_length. lia. }
  unfold socket_octets. cbn [dynamic with_buffer _buffer _offset].
  rewrite Hd3.
  replace (_offset W3)
    with (0 + Buffer.length (envelope frame_type channel (pre ++ args))).
  - apply subarray_holds, Hall.
  - rewrite Ho3. unfold envelope, Buffer.length.
    rewrite !length_app, !be_octets_length. cbn. lia.
Qed.

Lemma method_frame_envelope (size channel method_id : Z)
    (arguments : BufferWriter.t -> res BufferWriter.t) (out : list Z) :
  appends arguments ->
  method_frame size channel method_id arguments = Ok out ->
  exists args, Buffer.length (Buffer.be_octets 4 method_id ++ args) < 4294967296 /\
    out = envelope Codec.frame_method channel (Buffer.be_octets 4 method_id ++ args).
Proof.
  intros Ha. unfold method_frame.
  destruct (methodstart _ _ _ _) as [W1|] eqn:E1; [|discriminate].
  cbn [mbind res_bind Errors.bind].
  destruct (arguments W1) as [W2|] eqn:E2; [|discriminate].
  cbn [mbind res_bind Errors.bind].
  destruct (frameend W2) as [W3|] eqn:E3; [|discriminate].
  cbn [mbind res_bind Errors.bind].
  destruct (setframelength W3) as [W4|] eqn:E4; [|discriminate].
  cbn [mbind res_bind Errors.bind]. intros [= <-].
  apply methodstart_inv in E1. destruct E1 as [_ (b1 & -> & P1)].
  cbn [new dynamic] in *.
  pose proof (puts_holds _ _ _ _ P1) as H1.
  change (Buffer.be_octets 1 Codec.frame_method) with [Codec.frame_method] in H1.
  assert (Hr1 : room (mk b1 11 true)).
  { destruct H1 as (_ & Hb & _). unfold room. cbn.
    unfold Buffer.length in *. rewrite !length_app, !be_octets_length in Hb.
    cbn in Hb. lia. }
  assert (Ht1 : tight (mk b1 11 true)).
  { destruct H1 as (_ & Hb & _). unfold tight. cbn.
    unfold Buffer.length in *. rewrite !length_app, !be_octets_length in Hb.
    cbn in Hb. lia. }
  destruct (Ha _ _ Ht1 E2) as [args Hw].
  exists args.
  apply (finished_frame Codec.frame_method channel (Buffer.be_octets 4 method_id)
           args _ W2 W3 W4 Hr1); try assumption.
  - cbn [_offset]. rewrite be_length. reflexivity.
  - cbn [_buffer]. rewrite app_assoc in H1. apply holds_app in H1. apply H1.
  - cbn [_buffer].
    replace ([Codec.frame_method] ++ Buffer.be_octets 2 channel
               ++ Buffer.be_octets 4 0 ++ Buffer.be_octets 4 method_id)
      with (([Codec.frame_method] ++ Buffer.be_octets 2 channel
               ++ Buffer.be_octets 4 0) ++ Buffer.be_octets 4 method_id) in H1
      by (rewrite <- !app_assoc; reflexivity).
    apply holds_app in H1. destruct H1 as [_ H1].
    replace (0 + Buffer.length ([Codec.frame_method] ++ Buffer.be_octets 2 channel
                                  ++ Buffer.be_octets 4 0)) with 7 in H1;
      [exact H1|].
    unfold Buffer.length. rewrite !length_app, !be_octets_length. reflexivity.
Qed.

Lemma header_frame_envelope (size channel class_id body_size : Z)
    (properties : BufferWriter.t -> res BufferWriter.t) (out : list Z) :
  appends properties ->
  header_frame size channel class_id body_size properties = Ok out ->
  exists payload, Buffer.length payload < 4294967296 /\
    out = envelope Codec.frame_header channel payload.
Proof.
  intros Ha. unfold header_frame, headerstart.
  destruct (framestart _ _ _ _) as [W0|] eqn:E0; [|discriminate].
  cbn [mbind res_bind Errors.bind].
  destruct (uint16 class_id W0) as [Wa|] eqn:Ea; [|discriminate].
  cbn [mbind res_bind Errors.bind].
  destruct (uint16 0 Wa) as [Wb|] eqn:Eb; [|discriminate].
  cbn [mbind res_bind Errors.bind].
  destruct (uint64 body_size Wb) as [W1|] eqn:E1; [|discriminate].
  cbn [mbind res_bind Errors.bind].
  destruct (properties W1) as [W2|] eqn:E2; [|discriminate].
  cbn [mbind res_bind Errors.bind].
  destruct (frameend W2) as [W3|] eqn:E3; [|discriminate].
  cbn [mbind res_bind Errors.bind].
  destruct (setframelength W3) as [W4|] eqn:E4; [|discriminate].
  cbn [mbind res_bind Errors.bind]. intros [= <-].
  apply framestart_inv in E0. destruct E0 as [_ (b0 & -> & P0)].
  cbn [new dynamic] in *.
  pose proof (puts_holds _ _ _ _ P0) as H0.
  change (Buffer.be_octets 1 Codec.frame_header) with [Codec.frame_header] in H0.
  assert (Hl0 : 7 <= Buffer.length b0).
  { destruct H0 as (_ & Hb & _).
    unfold Buffer.length in *. rewrite !length_app, !be_octets_length in Hb.
    cbn in Hb. lia. }
  assert (Hr0 : room (mk b0 7 true)) by (unfold room; cbn; lia).
  apply (uint_wrote 2 2 _ _ _ eq_refl Hr0) in Ea. destruct Ea as [_ Wa'].
  pose proof (room_wrote _ _ _ Hr0 Wa') as Hra.
  apply (uint_wrote 2 2 _ _ _ eq_refl Hra) in Eb. destruct Eb as [_ Wb'].
  pose proof (room_wrote _ _ _ Hra Wb') as Hrb.
  apply (uint_wrote 8 8 _ _ _ eq_refl Hrb) in E1. destruct E1 as [_ W1'].
  assert (Ht1 : tight W1).
  { apply (tight_wrote _ _ _ Hrb W1'). discriminate. }
  destruct (Ha _ _ Ht1 E2) as [props Hw].
  pose proof (wrote_trans _ _ _ _ _ (proj1 (proj2 Hr0)) Wa' Wb') as T1.
  pose proof (wrote_trans _ _ _ _ _ (proj1 (proj2 Hr0)) T1 W1') as T2.
  pose proof (wrote_trans _ _ _ _ _ (proj1 (proj2 Hr0)) T2 Hw) as T3.
  assert (Hhead : holds b0 0 ([Codec.frame_header] ++ Buffer.be_octets 2 channel)).
  { rewrite app_assoc in H0. apply holds_app in H0. apply H0. }
  assert (Hnil : holds b0 7 []) by (apply holds_nil; lia).
  eexists.
  exact (finished_frame Codec.frame_header channel [] _ _ W2 W3 W4 Hr0 eq_refl
           Hhead Hnil T3 E3 E4).
Qed.

(** C8, amended. Every frame emitted by [writeVoid], [writeBodyOne],
    [writeHeartbeat] and by the encoders of variable size that finish with
    [frameend] and [setframelength] is a frame envelope: the octet of the
    type, two octets of channel, four octets that hold the length of the
    payload, the payload and the frame end 0xCE. It is 8 + payload_size
    octets long (7 in front of the payload and 1 behind it), the field at
    offset 3 reads payload_size and the last octet is 0xCE. *)
Theorem emitted_frame_envelope (out : list Z) :
  emitted out ->
  exists frame_type channel payload,
    out = envelope frame_type channel payload /\
    sized out (Buffer.length payload) (8 + Buffer.length payload).
Proof.
  intros He.
  assert (Hx : exists frame_type channel payload,
             Buffer.length payload < 4294967296 /\
             out = envelope frame_type channel payload).
  { destruct He as [method_id channel out Hw | channel body out Hw | out Hw
                   | size channel method_id arguments out Ha Hw
                   | size channel class_id body_size properties out Ha Hw].
    - pose proof (writeVoid_inv _ _ _ Hw) as [R1 R2].
      rewrite (writeVoid_frame _ _ R1 R2) in Hw.
      exists Codec.frame_method, channel, (Buffer.be_octets 4 method_id).
      split; [rewrite be_length; lia | congruence].
    - pose proof (writeBodyOne_inv _ _ _ Hw) as [R1 R2].
      rewrite (writeBodyOne_frame _ _ R1 R2) in Hw.
      exists Codec.frame_body, channel, body.
      split; [exact R2 | congruence].
    - rewrite writeHeartbeat_frame in Hw.
      exists Codec.frame_heartbeat, 0, [].
      split; [reflexivity | congruence].
    - destruct (method_frame_envelope _ _ _ _ _ Ha Hw) as (args & Hl & ->).
      do 3 eexists. split; [exact Hl | reflexivity].
    - destruct (header_frame_envelope _ _ _ _ _ _ Ha Hw) as (payload & Hl & ->).
      do 3 eexists. split; [exact Hl | reflexivity]. }
  destruct Hx as (frame_type & channel & payload & Hl & ->).
  exists frame_type, channel, payload. split; [reflexivity|].
  apply envelope_sized, Hl.
Qed.

Lemma appends_shortstr (s : string) : appends (shortstr s).
Proof.
  intros W W' Ht Hw. eexists. apply (shortstr_wrote s W W' (tight_room _ Ht) Hw).
Qed.

End FrameFacts.

(** C8, counterexample. The heartbeat frame is 8 octets long and its size
    field reads 0: it is not 8 + payload_size + 1 octets long. *)
Lemma heartbeat_frame_is_eight_octets :
  ~ (forall (M : Buffer.Memory) (out : list Z),
       Frame.emitted out ->
       exists payload_size, Frame.sized out payload_size (8 + payload_size + 1)).
Proof.
  intros Hall.
  destruct (Hall Frame.zero_memory [8; 0; 0; 0; 0; 0; 0; 206])
    as (payload_size & Hsize & Hlen & _).
  - apply Frame.emitted_heartbeat. vm_compute. reflexivity.
  - vm_compute in Hsize. injection Hsize as <-. vm_compute in Hlen.
    discriminate Hlen.
Qed.

Lemma emitted_frame_envelope_witness :
  @Frame.emitted Frame.zero_memory
    [1; 0; 5; 0; 0; 0; 6; 0; 60; 0; 40; 1; 113; 206] /\
  exists frame_type channel payload,
    [1; 0; 5; 0; 0; 0; 6; 0; 60; 0; 40; 1; 113; 206]
      = Frame.envelope frame_type channel payload /\
    Frame.sized [1; 0; 5; 0; 0; 0; 6; 0; 60; 0; 40; 1; 113; 206]
      (Buffer.length payload) (8 + Buffer.length payload).
Proof.
  assert (He : @Frame.emitted Frame.zero_memory
                 [1; 0; 5; 0; 0; 0; 6; 0; 60; 0; 40; 1; 113; 206]).
  { apply (@Frame.emitted_method Frame.zero_memory 11 5 3932200
             (@BufferWriter.shortstr Frame.zero_memory "q")).
    - apply appends_shortstr.
    - vm_compute. reflexivity. }
  split; [exact He|].
  apply (emitted_frame_envelope (H := Frame.zero_memory) _ He).
Defined.

(** ** Reading back what the writer wrote *)
Section RoundTripFacts.
Context `{Buffer.Memory} `{Buffer.FloatOps}.
Import Js Codec Errors Octets WriterSpec Carried.

Lemma value_nested_ind (P : value -> Prop) :
  P VUndefined -> P VNull -> (forall b, P (VBoolean b)) ->
  (forall n, P (VNumber n)) -> (forall n, P (VBigInt n)) ->
  (forall s, P (VString s)) -> (forall octets, P (VBuffer octets)) ->
  (forall ms, P (VDate ms)) -> (forall bits, P (VFloat bits)) ->
  (forall items, Forall P items -> P (VArray items)) ->
  (forall fields, Forall (fun field => P (snd field)) fields -> P (VObject fields)) ->
  forall v, P v.
Proof.
  intros HU HN HB HNum HBig HS HBuf HD HF HA HO.
  fix IH 1. intros [ | | b | n | n | s | octets | ms | bits | items | fields].
  - exact HU.
  - exact HN.
  - apply HB.
  - apply HNum.
  - apply HBig.
  - apply HS.
  - apply HBuf.
  - apply HD.
  - apply HF.
  - apply HA. induction items as [|item items IHitems]; constructor;
      [apply IH | exact IHitems].
  - apply HO. induction fields as [|field fields IHfields]; constructor;
      [apply IH | exact IHfields].
Qed.

Lemma length_app_Z (a b : list Z) :
  Buffer.length (a ++ b) = Buffer.length a + Buffer.length b.
Proof. unfold Buffer.length. rewrite length_app. lia. Qed.

Lemma string_of_octets_of_string (s : string) :
  Buffer.string_of_octets (Buffer.octets_of_string s) = s.
Proof.
  unfold Buffer.string_of_octets, Buffer.octets_of_string.
  rewrite map_map.
  rewrite (map_ext _ (fun c => c)), map_id.
  - apply string_of_list_ascii_of_string.
  - intros c. rewrite N2Z.id. apply ascii_N_embedding.
Qed.

(** *** The reader on a buffer that holds given octets *)

Lemma reader_uint (n : nat) (B : list Z) (o v : Z) :
  holds B o (Buffer.be_octets n v) -> 0 <= v < 2 ^ (8 * Z.of_nat n) ->
  Buffer.readUIntBE B o n = Ok v.
Proof. intros Hh Hv. apply readUIntBE_holds; [exact Hh|]. rewrite <- pow_256. exact Hv. Qed.

Lemma reader_shortstr (B : list Z) (o : Z) (s : string) :
  holds B o (Buffer.be_octets 1 (Buffer.byteLength s) ++ Buffer.octets_of_string s) ->
  0 <= Buffer.byteLength s < 256 ->
  BufferReader.shortstr (BufferReader.mk B o)
  = Ok (s, BufferReader.mk B
             (o + Buffer.length (Buffer.be_octets 1 (Buffer.byteLength s)
                                   ++ Buffer.octets_of_string s))).
Proof.
  intros Hh Hl. apply holds_app in Hh. destruct Hh as [H1 H2].
  rewrite be_length in H2. change (Z.of_nat 1) with 1 in H2.
  unfold BufferReader.shortstr, BufferReader.uint8. cbn [BufferReader._buffer BufferReader._offset].
  rewrite (reader_uint 1 B o _ H1) by (cbn; lia).
  cbn [mbind res_bind Errors.bind BufferReader.advance BufferReader._buffer
       BufferReader._offset].
  unfold Buffer.toString. rewrite byteLength_octets.
  rewrite (subarray_holds _ _ _ H2), string_of_octets_of_string.
  rewrite length_app_Z, be_length. do 3 f_equal. lia.
Qed.

Lemma reader_longstr (B : list Z) (o : Z) (s : string) :
  holds B o (Buffer.be_octets 4 (Buffer.byteLength s) ++ Buffer.octets_of_string s) ->
  0 <= Buffer.byteLength s < 4294967296 ->
  BufferReader.longstr (BufferReader.mk B o)
  = Ok (s, BufferReader.mk B
             (o + Buffer.length (Buffer.be_octets 4 (Buffer.byteLength s)
                                   ++ Buffer.octets_of_string s))).
Proof.
  intros Hh Hl. apply holds_app in Hh. destruct Hh as [H1 H2].
  rewrite be_length in H2. change (Z.of_nat 4) with 4 in H2.
  unfold BufferReader.longstr, BufferReader.uint32. cbn [BufferReader._buffer BufferReader._offset].
  rewrite (reader_uint 4 B o _ H1) by (cbn; lia).
  cbn [mbind res_bind Errors.bind BufferReader.advance BufferReader._buffer
       BufferReader._offset].
  unfold Buffer.toString. rewrite byteLength_octets.
  rewrite (subarray_holds _ _ _ H2), string_of_octets_of_string.
  rewrite length_app_Z, be_length. do 3 f_equal. lia.
Qed.

Lemma reader_binary (B : list Z) (o : Z) (value : list Z) :
  holds B o (Buffer.be_octets 4 (Buffer.length value) ++ value) ->
  Buffer.length value < 4294967296 ->
  BufferReader.binary (BufferReader.mk B o)
  = Ok (value, BufferReader.mk B
                 (o + Buffer.length (Buffer.be_octets 4 (Buffer.length value)
                                       ++ value))).
Proof.
  intros Hh Hl. apply holds_app in Hh. destruct Hh as [H1 H2].
  rewrite be_length in H2. change (Z.of_nat 4) with 4 in H2.
  unfold BufferReader.binary, BufferReader.uint32. cbn [BufferReader._buffer BufferReader._offset].
  rewrite (reader_uint 4 B o _ H1)
    by (change (2 ^ (8 * Z.of_nat 4)) with 4294967296;
        unfold Buffer.length in *; lia).
  cbn [mbind res_bind Errors.bind BufferReader.advance BufferReader._buffer
       BufferReader._offset].
  rewrite length_app_Z, be_length.
  destruct (Z.eqb_spec (Buffer.length value) 0) as [E|E]; cbn [negb].
  - destruct value; [|discriminate]. do 2 f_equal.
  - rewrite (subarray_holds _ _ _ H2). do 3 f_equal. lia.
Qed.

(** *** The methods without recursion *)

Lemma uint_sound (n : nat) (size v : Z) (W W' : BufferWriter.t) :
  size = Z.of_nat n -> room W ->
  BufferWriter.safewrite size (BufferWriter.put_uint n v) W = Ok W' ->
  exists bs, wrote W W' bs /\ Buffer.length bs = Z.of_nat n /\
    forall B o, holds B o bs -> Buffer.readUIntBE B o n = Ok v.
Proof.
  intros Hs Hr Hw. apply (uint_wrote n size v W W' Hs Hr) in Hw.
  destruct Hw as [Hv Hw]. exists (Buffer.be_octets n v).
  split; [exact Hw|]. split; [apply be_length|].
  intros B o Hh. apply reader_uint; assumption.
Qed.

Lemma int_sound (n : nat) (size v : Z) (W W' : BufferWriter.t) :
  (0 < n)%nat -> size = Z.of_nat n -> room W ->
  BufferWriter.safewrite size (BufferWriter.put_int n v) W = Ok W' ->
  exists bs, wrote W W' bs /\ Buffer.length bs = Z.of_nat n /\
    forall B o, holds B o bs -> Buffer.readIntBE B o n = Ok v.
Proof.
  intros Hn Hs Hr Hw. apply (int_wrote n size v W W' Hs Hr) in Hw.
  destruct Hw as [Hv Hw]. eexists.
  split; [exact Hw|]. split; [apply be_length|].
  intros B o Hh. apply readIntBE_holds; assumption.
Qed.

Ltac same_reader :=
  unfold BufferReader.advance;
  cbn [BufferReader._buffer BufferReader._offset];
  do 3 apply f_equal;
  unfold Buffer.length; rewrite ?length_app, ?be_octets_length;
  cbn [List.length]; lia.

Ltac reader_number Hread Hlen :=
  intros B o Hh;
  unfold BufferReader.scalar, BufferReader.boolean, BufferReader.uint8,
    BufferReader.int8, BufferReader.uint16, BufferReader.int16,
    BufferReader.uint32, BufferReader.int32, BufferReader.uint64,
    BufferReader.int64;
  cbn [BufferReader._buffer BufferReader._offset];
  rewrite (Hread B o Hh);
  cbn [mbind res_bind Errors.bind BufferReader.advance BufferReader._buffer
       BufferReader._offset];
  rewrite Hlen; reflexivity.

Lemma scalar_sound (method : Method) (v : value) (W W' : BufferWriter.t) :
  room W -> storable_as method v = true ->
  method <> Mtable -> method <> Marray ->
  BufferWriter.scalar method v W = Ok W' ->
  exists bs, wrote W W' bs /\ reads_scalar method v bs.
Proof.
  intros Hr Hs Ht Ha.
  destruct method; try congruence;
    destruct v as [ | | b | n | n | s | payload | ms | bits | items | fields];
    try discriminate Hs;
    cbn [BufferWriter.scalar BufferWriter.as_number BufferWriter.as_bigint
         BufferWriter.as_string BufferWriter.as_buffer mbind res_bind
         Errors.bind]; intros Hw.
  - (* boolean *)
    unfold BufferWriter.boolean, BufferWriter.uint8 in Hw. cbn [truthy] in Hw.
    destruct (uint_sound 1 1 _ W W' eq_refl Hr Hw) as (bs & Hwr & Hlen & Hread).
    exists bs. split; [exact Hwr|].
    intros B o Hh.
    unfold BufferReader.scalar, BufferReader.boolean, BufferReader.uint8.
    cbn [BufferReader._buffer BufferReader._offset].
    rewrite (Hread B o Hh).
    cbn [mbind res_bind Errors.bind BufferReader.advance BufferReader._buffer
         BufferReader._offset].
    rewrite Hlen. destruct b; reflexivity.
  - destruct (int_sound 1 1 _ W W' ltac:(lia) eq_refl Hr Hw)
      as (bs & Hwr & Hlen & Hread).
    exists bs. split; [exact Hwr|]. reader_number Hread Hlen.
  - destruct (uint_sound 1 1 _ W W' eq_refl Hr Hw) as (bs & Hwr & Hlen & Hread).
    exists bs. split; [exact Hwr|]. reader_number Hread Hlen.
  - destruct (int_sound 2 2 _ W W' ltac:(lia) eq_refl Hr Hw)
      as (bs & Hwr & Hlen & Hread).
    exists bs. split; [exact Hwr|]. reader_number Hread Hlen.
  - destruct (uint_sound 2 2 _ W W' eq_refl Hr Hw) as (bs & Hwr & Hlen & Hread).
    exists bs. split; [exact Hwr|]. reader_number Hread Hlen.
  - destruct (int_sound 4 4 _ W W' ltac:(lia) eq_refl Hr Hw)
      as (bs & Hwr & Hlen & Hread).
    exists bs. split; [exact Hwr|]. reader_number Hread Hlen.
  - destruct (uint_sound 4 4 _ W W' eq_refl Hr Hw) as (bs & Hwr & Hlen & Hread).
    exists bs. split; [exact Hwr|]. reader_number Hread Hlen.
  - destruct (int_sound 8 8 _ W W' ltac:(lia) eq_refl Hr Hw)
      as (bs & Hwr & Hlen & Hread).
    exists bs. split; [exact Hwr|]. reader_number Hread Hlen.
  - (* decimal: only zero is written *)
    unfold BufferWriter.decimal in Hw.
    destruct (Z.gtb_spec n 0).
    { destruct (n >? MAX_UINT32); discriminate Hw. }
    destruct (Z.eqb_spec n 0) as [->|]; [|discriminate Hw].
    destruct (uint_sound 5 5 _ W W' eq_refl Hr Hw) as (bs & Hwr & Hlen & Hread).
    pose proof Hwr as Hwr'.
    apply (uint_wrote 5 5 0 W W' eq_refl Hr) in Hw. destruct Hw as [_ Hw].
    exists (Buffer.be_octets 5 0). split; [exact Hw|].
    intros B o Hh.
    change (Buffer.be_octets 5 0)
      with (Buffer.be_octets 1 0 ++ Buffer.be_octets 4 0) in Hh.
    apply holds_app in Hh. destruct Hh as [Hh1 Hh4].
    unfold BufferReader.scalar, BufferReader.decimal, BufferReader.uint8,
      BufferReader.uint32.
    cbn [BufferReader._buffer BufferReader._offset].
    rewrite (reader_uint 1 B o 0 Hh1) by (cbn; lia).
    cbn [mbind res_bind Errors.bind BufferReader.advance BufferReader._buffer
         BufferReader._offset].
    rewrite (reader_uint 4 B (o + 1) 0 Hh4) by (cbn; lia).
    cbn [mbind res_bind Errors.bind BufferReader.advance BufferReader._buffer
         BufferReader._offset].
    change (0 mod 10 ^ 0 =? 0) with true. cbn match.
    change (0 / 10 ^ 0) with 0. same_reader.
  - (* longstr *)
    destruct (longstr_wrote s W W' Hr Hw) as [Hl Hwr].
    eexists. split; [exact Hwr|].
    intros B o Hh. unfold BufferReader.scalar.
    rewrite (reader_longstr B o s Hh Hl). reflexivity.
  - (* void *)
    injection Hw as <-. exists []. split; [apply wrote_refl|].
    intros B o Hh. cbn [BufferReader.scalar]. same_reader.
  - (* binary *)
    destruct (binary_wrote payload W W' Hr Hw) as [Hl Hwr].
    eexists. split; [exact Hwr|].
    intros B o Hh. unfold BufferReader.scalar.
    rewrite (reader_binary B o payload Hh Hl). reflexivity.
  - (* shortstr *)
    destruct (shortstr_wrote s W W' Hr Hw) as [Hl Hwr].
    eexists. split; [exact Hwr|].
    intros B o Hh. unfold BufferReader.scalar.
    rewrite (reader_shortstr B o s Hh Hl). reflexivity.
  - destruct (uint_sound 8 8 _ W W' eq_refl Hr Hw) as (bs & Hwr & Hlen & Hread).
    exists bs. split; [exact Hwr|]. reader_number Hread Hlen.
Qed.

(** *** Unfolding the recursive methods *)

Lemma tableitem_eq (v : value) (W : BufferWriter.t) :
  BufferWriter.tableitem v W
  = (char_code ← BufferWriter.tableitem_char v;
     match CHAR_METHODS char_code with
     | None => Err (RangeError "Unknown char")
     | Some method =>
         this ← BufferWriter.uint8 char_code W;
         match v with
         | VObject fields =>
             this' ← BufferWriter.tableitems fields
                       (BufferWriter.with_offset this (BufferWriter._offset this + 4));
             BufferWriter.patch_length (BufferWriter._offset this)
               (BufferWriter._offset this + 4) this'
         | VArray items =>
             this' ← BufferWriter.array_items items
                       (BufferWriter.with_offset this (BufferWriter._offset this + 4));
             BufferWriter.patch_length (BufferWriter._offset this)
               (BufferWriter._offset this + 4) this'
         | _ => BufferWriter.scalar method v this
         end
     end).
Proof. destruct v; reflexivity. Qed.

Lemma tableitem_fuel_S (fuel : nat) (R : BufferReader.t) :
  BufferReader.tableitem_fuel (S fuel) R
  = ('(char, this) ← BufferReader.uint8 R;
     match CHAR_METHODS char with
     | None => Err (RangeError "Unknown table item char")
     | Some Mtable =>
         '(length, this) ← BufferReader.uint32 this;
         if length =? 0 then Ok (VObject [], this)
         else if BufferReader._offset this + length
                 >? Buffer.length (BufferReader._buffer this)
         then Err (SyntaxError "Table out of buffer end")
         else
           '(fields, this) ←
              BufferReader.tableitems_loop fuel
                (BufferReader._offset this + length) [] this;
           Ok (VObject fields, this)
     | Some Marray =>
         '(length, this) ← BufferReader.uint32 this;
         if length =? 0 then Ok (VArray [], this)
         else
           '(items, this) ←
              BufferReader.array_loop fuel
                (BufferReader._offset this + length) [] this;
           Ok (VArray items, this)
     | Some method => BufferReader.scalar method this
     end).
Proof. reflexivity. Qed.

Lemma tableitems_loop_S (fuel : nat) (end_ : Z) (result : list (string * value))
    (R : BufferReader.t) :
  BufferReader.tableitems_loop (S fuel) end_ result R
  = (if BufferReader._offset R <? end_ then
       '(key, this) ← BufferReader.shortstr R;
       if negb (RE_FieldName key) then Err (RangeError "Invalid field table key")
       else
         '(item, this) ← BufferReader.tableitem_fuel fuel this;
         BufferReader.tableitems_loop fuel end_ (object_set result key item) this
     else if negb (BufferReader._offset R =? end_)
     then Err (SyntaxError "Unexpected table end")
     else Ok (result, R)).
Proof. reflexivity. Qed.

Lemma array_loop_S (fuel : nat) (end_ : Z) (items : list value)
    (R : BufferReader.t) :
  BufferReader.array_loop (S fuel) end_ items R
  = (if BufferReader._offset R <? end_ then
       '(item, this) ← BufferReader.tableitem_fuel fuel R;
       BufferReader.array_loop fuel end_ (items ++ [item]) this
     else if negb (BufferReader._offset R =? end_)
     then Err (SyntaxError "Unexpected array end")
     else Ok (items, R)).
Proof. reflexivity. Qed.

(** *** The length prefix patched in by [table] and [array] *)

Lemma wrote_patch (W W1 W2 W3 : BufferWriter.t) (a c : list Z) :
  0 <= BufferWriter._offset W -> wrote W W1 a ->
  BufferWriter._offset W1 <= Buffer.length (BufferWriter._buffer W1) ->
  wrote (BufferWriter.with_offset W1 (BufferWriter._offset W1 + 4)) W2 c ->
  BufferWriter.patch_length (BufferWriter._offset W1)
    (BufferWriter._offset W1 + 4) W2 = Ok W3 ->
  Buffer.length c < 4294967296 /\
  wrote W W3 (a ++ Buffer.be_octets 4 (Buffer.length c) ++ c).
Proof.
  intros Ho (Hd1 & Ho1 & Hb1 & Hl1 & Hpre1 & Hat1) Ht1
         (Hd2 & Ho2 & Hb2 & Hl2 & Hpre2 & Hat2).
  cbn [BufferWriter.with_offset BufferWriter._buffer BufferWriter._offset
       BufferWriter.dynamic] in *.
  unfold BufferWriter.patch_length.
  destruct (Buffer.writeUIntBE _ _ _ _) as [b3|] eqn:E; [|discriminate].
  cbn [mbind res_bind Errors.bind]. intros [= <-].
  apply writeUIntBE_puts in E. destruct E as [R P].
  replace (BufferWriter._offset W2 - (BufferWriter._offset W1 + 4))
    with (Buffer.length c) in R, P by lia.
  split; [cbn in R; lia|].
  destruct P as (_ & Hpb & Hpl & Hplo & Hpmid & Hphi).
  rewrite be_length in Hpb.
  unfold wrote. cbn [BufferWriter.with_buffer BufferWriter._buffer
                     BufferWriter._offset BufferWriter.dynamic].
  unfold Buffer.length in *.
  rewrite be_octets_length in Hphi.
  rewrite !length_app, be_octets_length.
  split; [congruence|]. split; [lia|]. split; [|split; [lia|split]].
  - right. destruct Hb2 as [->|Hb2]; cbn in *; lia.
  - intros i Hi Hi'. rewrite Hplo by lia. rewrite Hpre2 by lia.
    apply Hpre1; assumption.
  - intros j Hj.
    destruct (Nat.lt_ge_cases j (length a)) as [Hlt|Hge].
    + rewrite lookup_app_l by exact Hlt.
      rewrite Hplo by lia. rewrite Hpre2 by lia. apply Hat1, Hlt.
    + rewrite lookup_app_r by exact Hge.
      destruct (Nat.lt_ge_cases (j - length a) 4) as [Hlt4|Hge4].
      * rewrite lookup_app_l by (rewrite be_octets_length; exact Hlt4).
        rewrite <- (Hpmid (j - length a)%nat)
          by (rewrite be_octets_length; exact Hlt4).
        f_equal. lia.
      * rewrite lookup_app_r by (rewrite be_octets_length; exact Hge4).
        rewrite be_octets_length. rewrite Hphi by lia.
        rewrite <- (Hat2 (j - length a - 4)%nat) by lia. f_equal. lia.
Qed.

(** *** Objects rebuilt by assignment *)

Lemma existsb_eqb_false (key : string) (keys : list string) :
  existsb (String.eqb key) keys = false -> ~ In key keys.
Proof.
  intros He Hin. apply Bool.not_true_iff_false in He. apply He.
  apply existsb_exists. exists key. split; [exact Hin | apply String.eqb_refl].
Qed.

Lemma distinct_NoDup (keys : list string) :
  distinct keys = true -> List.NoDup keys.
Proof.
  induction keys as [|key keys IH]; cbn [distinct]; intros Hd.
  - constructor.
  - apply andb_true_iff in Hd. destruct Hd as [Hn Hd].
    apply negb_true_iff in Hn. constructor.
    + apply existsb_eqb_false, Hn.
    + apply IH, Hd.
Qed.

Lemma object_define_fresh (fields : list (string * value)) (key : string)
    (v : value) :
  ~ In key (map fst fields) -> object_define fields key v = fields ++ [(key, v)].
Proof.
  induction fields as [|[k v'] fields IH]; cbn [object_define map fst In app];
    intros Hn.
  - reflexivity.
  - destruct (String.eqb_spec k key) as [->|Hne].
    + exfalso. apply Hn. left. reflexivity.
    + f_equal. apply IH. intros Hin. apply Hn. right. exact Hin.
Qed.

Lemma fold_object_set (fields acc : list (string * value)) :
  List.NoDup (map fst acc ++ map fst fields) ->
  ~ In "__proto__"%string (map fst fields) ->
  fold_left (fun result field => object_set result (fst field) (snd field))
    fields acc = acc ++ fields.
Proof.
  revert acc. induction fields as [|[k v] fields IH]; intros acc Hnd Hp.
  - cbn. rewrite app_nil_r. reflexivity.
  - cbn [fold_left fst snd map In] in *.
    unfold object_set at 2.
    destruct (String.eqb_spec k "__proto__") as [->|Hk].
    { exfalso. apply Hp. left. reflexivity. }
    rewrite object_define_fresh.
    + rewrite IH.
      * rewrite <- app_assoc. reflexivity.
      * rewrite map_app. cbn [map fst]. rewrite <- app_assoc. exact Hnd.
      * intros Hin. apply Hp. right. exact Hin.
    + apply List.NoDup_remove_2 in Hnd. intros Hin. apply Hnd.
      apply in_or_app. left. exact Hin.
Qed.

Lemma storable_object (fields : list (string * value)) :
  storable (VObject fields) = true ->
  forallb (fun field => storable (snd field)) fields = true /\
  fold_left (fun result field => object_set result (fst field) (snd field))
    fields [] = fields.
Proof.
  cbn [storable]. intros Hs.
  apply andb_true_iff in Hs. destruct Hs as [Hs Hp].
  apply andb_true_iff in Hs. destruct Hs as [Hs Hd].
  split; [exact Hs|].
  apply negb_true_iff in Hp.
  apply (fold_object_set fields []).
  - cbn [map app]. apply distinct_NoDup, Hd.
  - apply existsb_eqb_false, Hp.
Qed.

(** *** The loops of [array] and [tableitems] *)

Import ItemSpec.

Lemma nonempty_length (bs : list Z) : bs <> [] -> (0 < length bs)%nat.
Proof. destruct bs; [contradiction | cbn; lia]. Qed.

Lemma array_items_sound (items : list value) :
  Forall carries items -> forallb storable items = true ->
  forall W W', room W -> BufferWriter.array_items items W = Ok W' ->
    exists bs, wrote W W' bs /\ (bs = [] -> items = []) /\ reads_array items bs.
Proof.
  induction 1 as [|item items Hitem _ IH]; cbn [forallb]; intros Hs W W' Hr.
  - cbn [BufferWriter.array_items]. intros [= <-]. exists [].
    split; [apply wrote_refl|]. split; [reflexivity|].
    intros B o fuel acc Hh Hf. destruct fuel as [|fuel]; [cbn in Hf; lia|].
    rewrite array_loop_S. cbn [BufferReader._offset].
    change (Buffer.length []) with 0. rewrite Z.add_0_r.
    rewrite Z.ltb_irrefl, Z.eqb_refl. cbn [negb]. rewrite app_nil_r.
    reflexivity.
  - apply andb_true_iff in Hs. destruct Hs as [Hs1 Hs2].
    cbn [BufferWriter.array_items].
    destruct (BufferWriter.tableitem item W) as [W1|] eqn:E1; [|discriminate].
    cbn [mbind res_bind Errors.bind]. intros E2.
    destruct (Hitem Hs1 W W1 Hr E1) as (b1 & Hw1 & Hne1 & Hrd1).
    pose proof (room_wrote _ _ _ Hr Hw1) as Hr1.
    destruct (IH Hs2 W1 W' Hr1 E2) as (b2 & Hw2 & _ & Hrd2).
    exists (b1 ++ b2).
    split; [apply (wrote_trans _ _ _ _ _ (proj1 (proj2 Hr)) Hw1 Hw2)|].
    split.
    { intros E. apply app_eq_nil in E. destruct E as [E _]. contradiction. }
    intros B o fuel acc Hh Hf. apply holds_app in Hh. destruct Hh as [Hh1 Hh2].
    pose proof (nonempty_length _ Hne1) as Hpos.
    rewrite length_app in Hf.
    destruct fuel as [|fuel]; [lia|].
    rewrite array_loop_S. cbn [BufferReader._offset].
    rewrite length_app_Z.
    destruct (Z.ltb_spec o (o + (Buffer.length b1 + Buffer.length b2)));
      [|unfold Buffer.length in *; lia].
    rewrite (Hrd1 B o fuel Hh1) by lia.
    cbn [mbind res_bind Errors.bind].
    rewrite Z.add_assoc.
    rewrite (Hrd2 B (o + Buffer.length b1) fuel (acc ++ [item]) Hh2) by lia.
    rewrite <- app_assoc. reflexivity.
Qed.

Lemma tableitems_sound (fields : list (string * value)) :
  Forall (fun field => carries (snd field)) fields ->
  forallb (fun field => storable (snd field)) fields = true ->
  forall W W', room W -> BufferWriter.tableitems fields W = Ok W' ->
    exists bs, wrote W W' bs /\ (bs = [] -> fields = []) /\ reads_fields fields bs.
Proof.
  induction 1 as [|[key item] fields Hitem _ IH]; cbn [forallb snd];
    intros Hs W W' Hr.
  - cbn [BufferWriter.tableitems]. intros [= <-]. exists [].
    split; [apply wrote_refl|]. split; [reflexivity|].
    intros B o fuel acc Hh Hf. destruct fuel as [|fuel]; [cbn in Hf; lia|].
    rewrite tableitems_loop_S. cbn [BufferReader._offset].
    change (Buffer.length []) with 0. rewrite Z.add_0_r.
    rewrite Z.ltb_irrefl, Z.eqb_refl. reflexivity.
  - apply andb_true_iff in Hs. destruct Hs as [Hs1 Hs2].
    cbn [BufferWriter.tableitems].
    destruct (RE_FieldName key) eqn:Ekey; [|discriminate]. cbn [negb].
    destruct (BufferWriter.shortstr key W) as [W0|] eqn:E0; [|discriminate].
    cbn [mbind res_bind Errors.bind].
    destruct (BufferWriter.tableitem item W0) as [W1|] eqn:E1; [|discriminate].
    cbn [mbind res_bind Errors.bind]. intros E2.
    destruct (shortstr_wrote key W W0 Hr E0) as [Hl0 Hw0].
    pose proof (room_wrote _ _ _ Hr Hw0) as Hr0.
    cbn [snd] in Hitem.
    destruct (Hitem Hs1 W0 W1 Hr0 E1) as (b1 & Hw1 & Hne1 & Hrd1).
    pose proof (room_wrote _ _ _ Hr0 Hw1) as Hr1.
    destruct (IH Hs2 W1 W' Hr1 E2) as (b2 & Hw2 & _ & Hrd2).
    set (b0 := Buffer.be_octets 1 (Buffer.byteLength key)
                 ++ Buffer.octets_of_string key) in *.
    exists (b0 ++ b1 ++ b2).
    pose proof (wrote_trans _ _ _ _ _ (proj1 (proj2 Hr0)) Hw1 Hw2) as Hw12.
    split; [apply (wrote_trans _ _ _ _ _ (proj1 (proj2 Hr)) Hw0 Hw12)|].
    split.
    { intros E. apply app_eq_nil in E. destruct E as [E _]. discriminate E. }
    intros B o fuel acc Hh Hf.
    apply holds_app in Hh. destruct Hh as [Hh0 Hh12].
    apply holds_app in Hh12. destruct Hh12 as [Hh1 Hh2].
    pose proof (nonempty_length _ Hne1) as Hpos.
    rewrite !length_app in Hf.
    destruct fuel as [|fuel]; [lia|].
    rewrite tableitems_loop_S. cbn [BufferReader._offset].
    rewrite !length_app_Z.
    destruct (Z.ltb_spec o (o + (Buffer.length b0 + (Buffer.length b1
                                                      + Buffer.length b2))));
      [|unfold Buffer.length in *; lia].
    unfold b0 at 1. rewrite (reader_shortstr B o key Hh0 Hl0). fold b0.
    cbn [mbind res_bind Errors.bind]. rewrite Ekey. cbn [negb].
    rewrite (Hrd1 B (o + Buffer.length b0) fuel Hh1) by lia.
    cbn [mbind res_bind Errors.bind].
    replace (o + (Buffer.length b0 + (Buffer.length b1 + Buffer.length b2)))
      with (o + Buffer.length b0 + Buffer.length b1 + Buffer.length b2) by lia.
    rewrite (Hrd2 B (o + Buffer.length b0 + Buffer.length b1) fuel
               (object_set acc key item) Hh2) by lia.
    reflexivity.
Qed.

(** *** Table items *)

Lemma tag_sound (char : Z) (W W1 : BufferWriter.t) :
  room W -> BufferWriter.uint8 char W = Ok W1 ->
  wrote W W1 (Buffer.be_octets 1 char) /\ tight W1 /\
  forall B o, holds B o (Buffer.be_octets 1 char) ->
    BufferReader.uint8 (BufferReader.mk B o) = Ok (char, BufferReader.mk B (o + 1)).
Proof.
  intros Hr Hw. apply (uint_wrote 1 1 char W W1 eq_refl Hr) in Hw.
  destruct Hw as [Hv Hw]. split; [exact Hw|]. split.
  - apply (tight_wrote _ _ _ Hr Hw). discriminate.
  - intros B o Hh. unfold BufferReader.uint8.
    cbn [BufferReader._buffer BufferReader._offset].
    rewrite (reader_uint 1 B o char Hh Hv). reflexivity.
Qed.

Lemma scalar_item (char : Z) (method : Method) (v : value) :
  BufferWriter.tableitem_char v = Ok char ->
  CHAR_METHODS char = Some method ->
  (forall W, BufferWriter.tableitem v W
             = (this ← BufferWriter.uint8 char W;
                BufferWriter.scalar method v this)) ->
  storable_as method v = true -> method <> Mtable -> method <> Marray ->
  forall W W', room W -> BufferWriter.tableitem v W = Ok W' ->
    exists bs, wrote W W' bs /\ bs <> [] /\ reads v bs.
Proof.
  intros Hchar Hm Heq Hs Ht Ha W W' Hr. rewrite Heq.
  destruct (BufferWriter.uint8 char W) as [W1|] eqn:E1; [|discriminate].
  cbn [mbind res_bind Errors.bind]. intros E2.
  destruct (tag_sound char W W1 Hr E1) as (Hw1 & Ht1 & Hrd1).
  destruct (scalar_sound method v W1 W' (tight_room _ Ht1) Hs Ht Ha E2)
    as (b2 & Hw2 & Hrd2).
  exists (Buffer.be_octets 1 char ++ b2).
  split; [apply (wrote_trans _ _ _ _ _ (proj1 (proj2 Hr)) Hw1 Hw2)|].
  split; [discriminate|].
  intros B o fuel Hh Hf. apply holds_app in Hh. destruct Hh as [Hh1 Hh2].
  rewrite be_length in Hh2. change (Z.of_nat 1) with 1 in Hh2.
  destruct fuel as [|fuel]; [cbn in Hf; lia|].
  rewrite tableitem_fuel_S, (Hrd1 B o Hh1).
  cbn [mbind res_bind Errors.bind]. rewrite Hm.
  rewrite length_app_Z, be_length, Z.add_assoc.
  change (Z.of_nat 1) with 1.
  rewrite <- (Hrd2 B (o + 1) Hh2).
  destruct method; congruence.
Qed.

Ltac scalar_case char method Hc :=
  apply (scalar_item char method);
  [ exact Hc | reflexivity
  | intros ?; rewrite tableitem_eq, Hc; reflexivity
  | reflexivity | congruence | congruence ].

Lemma array_case (items : list value) :
  Forall carries items -> carries (VArray items).
Proof.
  intros IH Hs W W' Hr. cbn [storable] in Hs.
  rewrite tableitem_eq. cbn [BufferWriter.tableitem_char mbind res_bind Errors.bind].
  change (CHAR_METHODS 65) with (Some Marray). cbn match.
  destruct (BufferWriter.uint8 65 W) as [W1|] eqn:E1; [|discriminate].
  cbn [mbind res_bind Errors.bind].
  destruct (BufferWriter.array_items items _) as [W2|] eqn:E2; [|discriminate].
  cbn [mbind res_bind Errors.bind]. intros E3.
  destruct (tag_sound 65 W W1 Hr E1) as (Hw1 & Ht1 & Hrd1).
  assert (Hrs : room (BufferWriter.with_offset W1 (BufferWriter._offset W1 + 4))).
  { destruct Ht1 as (Hd & Ho & Hl). unfold room. cbn. repeat split; lia || assumption. }
  destruct (array_items_sound items IH Hs _ W2 Hrs E2) as (c & Hw2 & Hnil & Hrd2).
  destruct (wrote_patch W W1 W2 W' _ c (proj1 (proj2 Hr)) Hw1
              (proj2 (proj2 Ht1)) Hw2 E3) as [Hlen Hw].
  eexists. split; [exact Hw|]. split; [discriminate|].
  intros B o fuel Hh Hf. apply holds_app in Hh. destruct Hh as [Hh1 Hh2].
  apply holds_app in Hh2. destruct Hh2 as [Hh2 Hh3].
  rewrite !be_length in *. change (Z.of_nat 1) with 1 in *.
  change (Z.of_nat 4) with 4 in *.
  rewrite !length_app, !be_octets_length in Hf.
  destruct fuel as [|fuel]; [lia|].
  rewrite tableitem_fuel_S, (Hrd1 B o Hh1).
  cbn [mbind res_bind Errors.bind].
  change (CHAR_METHODS 65) with (Some Marray). cbn match.
  unfold BufferReader.uint32. cbn [BufferReader._buffer BufferReader._offset].
  rewrite (reader_uint 4 B (o + 1) (Buffer.length c) Hh2)
    by (change (2 ^ (8 * Z.of_nat 4)) with 4294967296;
        unfold Buffer.length in *; lia).
  cbn [mbind res_bind Errors.bind]. unfold BufferReader.advance.
  cbn [BufferReader._buffer BufferReader._offset].
  rewrite !length_app_Z, !be_length.
  destruct (Z.eqb_spec (Buffer.length c) 0) as [E|E].
  - assert (c = []) as -> by (destruct c; [reflexivity | discriminate E]).
    rewrite (Hnil eq_refl). same_reader.
  - rewrite (Hrd2 B (o + 1 + 4) fuel [] Hh3) by lia.
    cbn [mbind res_bind Errors.bind app]. same_reader.
Qed.

Lemma object_case (fields : list (string * value)) :
  Forall (fun field => carries (snd field)) fields -> carries (VObject fields).
Proof.
  intros IH Hs W W' Hr. apply storable_object in Hs. destruct Hs as [Hs Hfold].
  rewrite tableitem_eq. cbn [BufferWriter.tableitem_char mbind res_bind Errors.bind].
  change (CHAR_METHODS 70) with (Some Mtable). cbn match.
  destruct (BufferWriter.uint8 70 W) as [W1|] eqn:E1; [|discriminate].
  cbn [mbind res_bind Errors.bind].
  destruct (BufferWriter.tableitems fields _) as [W2|] eqn:E2; [|discriminate].
  cbn [mbind res_bind Errors.bind]. intros E3.
  destruct (tag_sound 70 W W1 Hr E1) as (Hw1 & Ht1 & Hrd1).
  assert (Hrs : room (BufferWriter.with_offset W1 (BufferWriter._offset W1 + 4))).
  { destruct Ht1 as (Hd & Ho & Hl). unfold room. cbn. repeat split; lia || assumption. }
  destruct (tableitems_sound fields IH Hs _ W2 Hrs E2) as (c & Hw2 & Hnil & Hrd2).
  destruct (wrote_patch W W1 W2 W' _ c (proj1 (proj2 Hr)) Hw1
              (proj2 (proj2 Ht1)) Hw2 E3) as [Hlen Hw].
  eexists. split; [exact Hw|]. split; [discriminate|].
  intros B o fuel Hh Hf. apply holds_app in Hh. destruct Hh as [Hh1 Hh2].
  apply holds_app in Hh2. destruct Hh2 as [Hh2 Hh3].
  rewrite !be_length in *. change (Z.of_nat 1) with 1 in *.
  change (Z.of_nat 4) with 4 in *.
  rewrite !length_app, !be_octets_length in Hf.
  destruct fuel as [|fuel]; [lia|].
  rewrite tableitem_fuel_S, (Hrd1 B o Hh1).
  cbn [mbind res_bind Errors.bind].
  change (CHAR_METHODS 70) with (Some Mtable). cbn match.
  unfold BufferReader.uint32. cbn [BufferReader._buffer BufferReader._offset].
  rewrite (reader_uint 4 B (o + 1) (Buffer.length c) Hh2)
    by (change (2 ^ (8 * Z.of_nat 4)) with 4294967296;
        unfold Buffer.length in *; lia).
  cbn [mbind res_bind Errors.bind]. unfold BufferReader.advance.
  cbn [BufferReader._buffer BufferReader._offset].
  rewrite !length_app_Z, !be_length.
  destruct (Z.eqb_spec (Buffer.length c) 0) as [E|E].
  - assert (c = []) as -> by (destruct c; [reflexivity | discriminate E]).
    rewrite (Hnil eq_refl). same_reader.
  - destruct (Z.gtb_spec (o + 1 + 4 + Buffer.length c) (Buffer.length B)) as [Hgt|_].
    { destruct Hh3 as (_ & Hb & _). lia. }
    rewrite (Hrd2 B (o + 1 + 4) fuel [] Hh3) by lia.
    cbn [mbind res_bind Errors.bind]. rewrite Hfold. same_reader.
Qed.

Lemma number_char (n : Z) :
  BufferWriter.tableitem_char (VNumber n)
  = Ok (if n <? 0
        then if n >? -129 then 98 else if n >? -32769 then 115
             else if n >? -2147483649 then 73 else 100
        else if n <? 256 then 66 else if n <? 65536 then 117
             else if n <? 4294967296 then 105 else 100).
Proof.
  cbn [BufferWriter.tableitem_char].
  repeat match goal with |- context [if ?c then _ else _] => destruct c end;
    reflexivity.
Qed.

Lemma carries_all (v : value) : carries v.
Proof.
  induction v as [ | | b | n | n | s | payload | ms | bits | items IH | fields IH]
    using value_nested_ind; try (intros Hs; discriminate Hs).
  - (* boolean *)
    intros _.
    scalar_case 116 Mboolean
      (eq_refl : BufferWriter.tableitem_char (VBoolean b) = Ok 116).
  - (* number *)
    intros Hs. cbn [storable] in Hs.
    apply andb_true_iff in Hs. destruct Hs as [Hlo Hhi].
    apply Z.leb_le in Hlo. apply Z.ltb_lt in Hhi.
    pose proof (number_char n) as Hc.
    destruct (n <? 0) eqn:E0.
    + destruct (n >? -129) eqn:E1; [scalar_case 98 Mint8 Hc|].
      destruct (n >? -32769) eqn:E2; [scalar_case 115 Mint16 Hc|].
      destruct (n >? -2147483649) eqn:E3; [scalar_case 73 Mint32 Hc|].
      rewrite Z.gtb_ltb in E3. apply Z.ltb_ge in E3. lia.
    + destruct (n <? 256) eqn:E1; [scalar_case 66 Muint8 Hc|].
      destruct (n <? 65536) eqn:E2; [scalar_case 117 Muint16 Hc|].
      destruct (n <? 4294967296) eqn:E3; [scalar_case 105 Muint32 Hc|].
      apply Z.ltb_ge in E3. lia.
  - (* bigint *)
    intros _.
    scalar_case 76 Mint64
      (eq_refl : BufferWriter.tableitem_char (VBigInt n) = Ok 76).
  - (* string *)
    intros _.
    scalar_case 83 Mlongstr
      (eq_refl : BufferWriter.tableitem_char (VString s) = Ok 83).
  - (* buffer *)
    intros _.
    scalar_case 120 Mbinary
      (eq_refl : BufferWriter.tableitem_char (VBuffer payload) = Ok 120).
  - apply array_case, IH.
  - apply object_case, IH.
Qed.

(** *** The octets handed to the socket *)

Lemma written_holds (W W' : BufferWriter.t) (bs : list Z) :
  tight W -> wrote W W' bs ->
  holds (BufferWriter.socket_octets W') (BufferWriter._offset W) bs /\
  BufferWriter._offset W' = BufferWriter._offset W + Buffer.length bs.
Proof.
  intros Ht Hw. pose proof (tight_wrote_tight _ _ _ Ht Hw) as (Hd' & Ho' & Hl').
  destruct Ht as (Hd & Ho & Hl).
  destruct Hw as (_ & Hoff & _ & _ & _ & Hat).
  split; [|exact Hoff].
  unfold BufferWriter.socket_octets, Buffer.subarray. rewrite Hd'.
  change (Z.to_nat 0) with 0%nat. rewrite drop_0, Nat.sub_0_r.
  unfold holds, Buffer.length in *. rewrite length_take.
  rewrite Nat.min_l by lia.
  split; [exact Ho|]. split; [lia|].
  intros j Hj. rewrite lookup_take_lt by lia. apply Hat, Hj.
Qed.



Lemma tableitem_round_trip (v : value) (W W' : BufferWriter.t) :
  tight W -> storable v = true -> BufferWriter.tableitem v W = Ok W' ->
  BufferReader.tableitem (read_back W W') = Ok (v, read_end W').
Proof.
  intros Ht Hs Hw.
  destruct (carries_all v Hs W W' (tight_room _ Ht) Hw) as (bs & Hwr & _ & Hrd).
  destruct (written_holds W W' bs Ht Hwr) as [Hh Hoff].
  unfold BufferReader.tableitem, read_back, read_end. rewrite Hoff.
  apply Hrd; [exact Hh|].
  unfold BufferReader.enough_fuel. cbn [BufferReader._buffer].
  destruct Hh as (Ho & Hb & _). unfold Buffer.length in Hb.
  destruct Ht as (_ & Ho' & _). lia.
Qed.


(** *** Properties, timestamps and decimals *)




(** The writer stores a date as its whole seconds. *)
Lemma timestamp_whole_seconds (ms : Z) (W W' : BufferWriter.t) :
  room W -> BufferWriter.timestamp ms W = Ok W' ->
  wrote W W' (Buffer.be_octets 8 (ms / 1000)).
Proof.
  intros Hr Hw. unfold BufferWriter.timestamp, BufferWriter.uint64 in Hw.
  apply (uint_wrote 8 8 _ W W' eq_refl Hr) in Hw. apply Hw.
Qed.

(** The reader never returns a date. *)
Lemma timestamp_is_never_read (R : BufferReader.t) :
  exists e, BufferReader.timestamp R = Err e.
Proof.
  unfold BufferReader.timestamp.
  destruct (BufferReader.uint64 R) as [[bytes R']|e]; cbn [mbind res_bind Errors.bind].
  - destruct (bytes >? MAX_SECOND); eexists; reflexivity.
  - eexists. reflexivity.
Qed.

(** The writer refuses every decimal but zero. *)
Lemma decimal_but_zero_is_refused (v : value) (W W' : BufferWriter.t) :
  BufferWriter.decimal v W = Ok W' -> v = VNumber 0.
Proof.
  unfold BufferWriter.decimal. destruct v; try discriminate.
  destruct (n >? 0); [destruct (n >? MAX_UINT32); discriminate|].
  destruct (Z.eqb_spec n 0) as [->|]; [reflexivity | discriminate].
Qed.


End RoundTripFacts.




(** ** Connection: what channel allocation keeps *)
Section ConnectionExtras.
Import Connection Errors ChannelIds.






End ConnectionExtras.

(** ** The frame demuxer: what arrives in pieces *)
Section DecodeStreamExtras.
Import DecodeStream Errors.
Variable DECODERS : Z -> option (BufferReader.t -> res (Js.value * BufferReader.t)).

(** X3. While fewer than 8 octets are at hand (the cache and the new chunk
    together) the stream only stores them: it dispatches nothing and does
    not fail, and the next chunk is decoded exactly as if both had arrived
    as one chunk. A chunk boundary within the first seven octets of a frame
    is harmless. *)
Theorem short_chunk_is_buffered (this : DecodeStream.t) (a b : list Z) :
  failed this = None ->
  Buffer.length (match cache this with Some c => c ++ a | None => a end) < 8 ->
  let held := _writevAsync DECODERS [a] this in
  dispatched held = dispatched this /\ failed held = None /\
  channels held = channels this /\
  cache held = Some (match cache this with Some c => c ++ a | None => a end) /\
  _writevAsync DECODERS [b] held = _writevAsync DECODERS [a ++ b] this.
Proof.
  intros Hf Hlen. cbv zeta. unfold _writevAsync. rewrite Hf.
  assert (Hlt : forall x, Buffer.length x < 8 ->
                          (Buffer.length x <? Codec.EMPTY_FRAME_SIZE) = true).
  { intros x Hx. apply Z.ltb_lt. exact Hx. }
  destruct (cache this) as [c|] eqn:Ec; cbn [concat]; rewrite ?app_nil_r;
    rewrite (Hlt _ Hlen);
    unfold with_cache; cbn [dispatched failed channels cache decode_is_init];
    rewrite Hf; cbn [concat]; rewrite ?app_nil_r, <- ?app_assoc;
    (split; [reflexivity|]); (split; [reflexivity|]); (split; [reflexivity|]);
    (split; [reflexivity|]); reflexivity.
Qed.

End DecodeStreamExtras.

Lemma short_chunk_is_buffered_witness :
  let DECODERS := fun _ : Z => @None (BufferReader.t -> Errors.res (Js.value * BufferReader.t)) in
  let this := DecodeStream.mk None false [(1, DecodeStream.ChannelConsume)] [] None in
  DecodeStream.dispatched
    (DecodeStream._writevAsync DECODERS [[1; 2; 206]]
       (DecodeStream._writevAsync DECODERS [[3; 0; 1; 0; 0; 0; 2]] this))
  = [DecodeStream.handle_body 1 [1; 2]].
Proof.
  cbv zeta.
  destruct (short_chunk_is_buffered
              (fun _ => None)
              (DecodeStream.mk None false [(1, DecodeStream.ChannelConsume)] [] None)
              [3; 0; 1; 0; 0; 0; 2] [1; 2; 206] eq_refl ltac:(vm_compute; reflexivity))
    as (_ & _ & _ & _ & H).
  rewrite H. vm_compute. reflexivity.
Defined.

(** ** The consumer: errors and sequences of messages *)
Section ConsumerExtras.
Import Consumer Errors Assembly Messages.

(** X4. Whatever the state of the transformer and whatever chunk it is
    given, a failure of [_writeAsync] is a hard error [unexpected_frame]
    raised for [basic.consume]: the close that reports it carries method id
    3932180 and reply code 505, and the state is the one before the
    chunk. *)
Theorem consume_stream_fails_with_unexpected_frame (c : ConsumeChunk)
    (this : ConsumeStream) (e : Error) :
  _writeAsync c this = Err e ->
  (exists text, e = unexpected text /\
     Channel.ErrorToClose (Some e) = Channel.mkClose 3932180 505 text) /\
  feed [c] this = (this, Some e).
Proof.
  intros Hw. split; [|cbn [feed]; rewrite Hw; reflexivity].
  unfold _writeAsync, flush_message in Hw.
  destruct c as [b|props size|d]; destruct (_current this) as [m|];
    try (injection Hw as <-; eexists; split; reflexivity);
    try discriminate Hw.
  - destruct (msg_properties m);
      [|injection Hw as <-; eexists; split; reflexivity].
    destruct (Buffer.length b =? 0); [discriminate|].
    destruct (_wait_size this - Buffer.length b <? 0);
      [injection Hw as <-; eexists; split; reflexivity|].
    destruct (msg_body m);
      [|injection Hw as <-; eexists; split; reflexivity].
    cbn in Hw. destruct (_wait_size this - Buffer.length b =? 0); discriminate.
  - destruct (msg_properties m);
      [injection Hw as <-; eexists; split; reflexivity|].
    destruct (negb (size =? 0)); cbn in Hw; discriminate.
Qed.

Lemma consume_stream_fails_with_unexpected_frame_witness :
  exists text,
    _writeAsync (body [1]) new_stream = Err (unexpected text) /\
    Channel.ErrorToClose (Some (unexpected text)) = Channel.mkClose 3932180 505 text.
Proof.
  destruct (consume_stream_fails_with_unexpected_frame (body [1]) new_stream
              (unexpected "Unexpected body") eq_refl) as [(text & E & Hc) _].
  exists text. rewrite <- E. split; [reflexivity | exact Hc].
Defined.

(** *** Sequences of messages *)

Lemma insert_last (rs : list Readable) (x y : Readable) :
  <[length rs := y]> (rs ++ [x]) = rs ++ [y].
Proof. induction rs as [|r rs IH]; cbn; [reflexivity | f_equal; exact IH]. Qed.

Lemma body_below (m : ConsumeMessage) (p : Js.value) (w : Z)
    (rs : list Readable) (ds : list (list Z)) (down : list ConsumeMessage)
    (b : list Z) :
  msg_properties m = Some p -> msg_body m = Some (length rs) ->
  0 < Buffer.length b < w ->
  _writeAsync (body b) (mkStream (Some m) w (rs ++ [mkReadable ds false]) down)
  = Ok (mkStream (Some m) (w - Buffer.length b)
          (rs ++ [mkReadable (ds ++ [b]) false]) down).
Proof.
  intros Hp Hb Hl. unfold _writeAsync. cbn [_current _wait_size readables downstream].
  rewrite Hp, Hb.
  destruct (Z.eqb_spec (Buffer.length b) 0); [lia|].
  destruct (Z.ltb_spec (w - Buffer.length b) 0); [lia|].
  destruct (Z.eqb_spec (w - Buffer.length b) 0); [lia|].
  cbn [_current _wait_size readables downstream].
  unfold readable_push. rewrite list_lookup_middle by reflexivity.
  cbn [data ended]. rewrite insert_last. reflexivity.
Qed.

Lemma body_last (m : ConsumeMessage) (p : Js.value) (w : Z)
    (rs : list Readable) (ds : list (list Z)) (down : list ConsumeMessage)
    (b : list Z) :
  msg_properties m = Some p -> msg_body m = Some (length rs) ->
  0 < Buffer.length b -> Buffer.length b = w ->
  _writeAsync (body b) (mkStream (Some m) w (rs ++ [mkReadable ds false]) down)
  = Ok (mkStream None 0 (rs ++ [mkReadable (ds ++ [b]) true]) down).
Proof.
  intros Hp Hb Hl Hw. unfold _writeAsync. cbn [_current _wait_size readables downstream].
  rewrite Hp, Hb.
  destruct (Z.eqb_spec (Buffer.length b) 0); [lia|].
  destruct (Z.ltb_spec (w - Buffer.length b) 0); [lia|].
  destruct (Z.eqb_spec (w - Buffer.length b) 0); [|lia].
  unfold flush_message. cbn [_current _wait_size readables downstream].
  rewrite Hb. unfold readable_push. rewrite list_lookup_middle by reflexivity.
  cbn [data ended]. rewrite insert_last.
  unfold readable_end. rewrite list_lookup_middle by reflexivity.
  cbn [data ended]. rewrite insert_last. reflexivity.
Qed.

Lemma bodies_all (m : ConsumeMessage) (p : Js.value)
    (rs : list Readable) (down : list ConsumeMessage) (chunks : list (list Z)) :
  msg_properties m = Some p -> msg_body m = Some (length rs) ->
  Forall (fun b => 0 < Buffer.length b) chunks -> chunks <> [] ->
  forall ds,
    feed (map body chunks)
      (mkStream (Some m) (total_length chunks) (rs ++ [mkReadable ds false]) down)
    = (mkStream None 0 (rs ++ [mkReadable (ds ++ chunks) true]) down, None).
Proof.
  intros Hp Hb Hall. induction Hall as [|b rest Hpos Hrest IH]; intros Hne ds;
    [contradiction|].
  rewrite total_length_cons. cbn [map feed].
  destruct rest as [|c rest'].
  - rewrite total_length_nil, Z.add_0_r.
    rewrite (body_last m p _ rs ds down b Hp Hb Hpos eq_refl). reflexivity.
  - assert (Hr : 0 < total_length (c :: rest')).
    { rewrite total_length_cons. inversion Hrest; subst.
      pose proof (total_length_nonneg rest'). lia. }
    rewrite (body_below m p _ rs ds down b Hp Hb) by lia.
    replace (Buffer.length b + total_length (c :: rest') - Buffer.length b)
      with (total_length (c :: rest')) by lia.
    rewrite (IH ltac:(discriminate) (ds ++ [b])).
    rewrite <- app_assoc. reflexivity.
Qed.

(** One message from the idle state. *)
Lemma one_message (m : Message) (this : ConsumeStream) :
  _current this = None -> solid m ->
  exists this' cm,
    feed (chunks_of m) this = (this', None) /\
    _current this' = None /\
    downstream this' = downstream this ++ [cm] /\
    readables this' = readables this
                      ++ match m_chunks m with
                         | [] => []
                         | _ => [mkReadable (m_chunks m) true]
                         end /\
    delivered_as this' m cm /\
    forall r, msg_body cm = Some r -> r = length (readables this).
Proof.
  intros Hc Hs. unfold chunks_of, solid in *.
  destruct m as [d props chunks]. cbn [m_deliver m_properties m_chunks] in *.
  rewrite feed_app. cbn [feed]. unfold _writeAsync at 1. rewrite Hc.
  unfold _writeAsync at 1.
  cbn [_current msg_properties msg_deliver msg_body msg_body_size _wait_size
       readables downstream].
  destruct chunks as [|b rest].
  - rewrite total_length_nil. cbn [Z.eqb negb]. unfold flush_message.
    cbn [_current msg_body readables downstream map feed].
    eexists _, _. split; [reflexivity|].
    cbn [_current downstream readables]. rewrite app_nil_r.
    split; [reflexivity|]. split; [reflexivity|]. split; [reflexivity|].
    split; [|intros r Hr; discriminate Hr].
    unfold delivered_as. cbn. auto.
  - assert (Hpos : 0 < total_length (b :: rest)).
    { rewrite total_length_cons. inversion Hs; subst.
      pose proof (total_length_nonneg rest). lia. }
    destruct (Z.eqb_spec (total_length (b :: rest)) 0); [lia|]. cbn [negb].
    set (p := match props with Some p => p | None => Js.VObject [] end).
    set (cm := mkMessage d (Some p) (Some (length (readables this)))
                 (total_length (b :: rest))).
    rewrite (bodies_all cm p (readables this) (downstream this ++ [cm])
               (b :: rest) eq_refl eq_refl Hs ltac:(discriminate) []).
    exists (mkStream None 0 (readables this ++ [mkReadable ([] ++ b :: rest) true])
              (downstream this ++ [cm])), cm.
    cbn [_current downstream readables app].
    split; [reflexivity|]. split; [reflexivity|]. split; [reflexivity|].
    split; [reflexivity|]. split.
    + unfold delivered_as. cbn [msg_deliver msg_properties msg_body_size
                                msg_body cm m_deliver m_properties m_chunks readables].
      repeat split; try reflexivity; [discriminate|].
      apply list_lookup_middle. reflexivity.
    + intros r Hr. cbn in Hr. congruence.
Qed.

Lemma delivered_as_later (this this' : ConsumeStream) (extra : list Readable)
    (m : Message) (cm : ConsumeMessage) :
  readables this' = readables this ++ extra ->
  delivered_as this m cm -> delivered_as this' m cm.
Proof.
  intros Hr (Hd & Hp & Hs & Hb). unfold delivered_as.
  split; [exact Hd|]. split; [exact Hp|]. split; [exact Hs|].
  destruct (msg_body cm) as [r|]; [|exact Hb].
  destruct Hb as [Hne Hl]. split; [exact Hne|].
  rewrite Hr. apply lookup_app_l_Some. exact Hl.
Qed.

Lemma messages_fed (msgs : list Message) :
  Forall solid msgs ->
  forall this, _current this = None ->
    exists this' cms extra,
      feed (concat (map chunks_of msgs)) this = (this', None) /\
      _current this' = None /\
      downstream this' = downstream this ++ cms /\
      readables this' = readables this ++ extra /\
      Forall2 (delivered_as this') msgs cms /\
      List.NoDup (omap msg_body cms) /\
      forall r, In r (omap msg_body cms) -> (length (readables this) <= r)%nat.
Proof.
  induction 1 as [|m msgs Hm _ IH]; intros this Hc.
  - exists this, [], []. cbn. rewrite !app_nil_r.
    repeat split; try reflexivity; try assumption; try constructor.
    intros r [].
  - destruct (one_message m this Hc Hm)
      as (this1 & cm & Ef1 & Hc1 & Hd1 & Hr1 & Hdel1 & Hb1).
    destruct (IH this1 Hc1)
      as (this' & cms & extra & Ef & Hc' & Hd' & Hr' & Hdel' & Hnd & Hge).
    exists this', (cm :: cms),
      (match m_chunks m with [] => [] | _ => [mkReadable (m_chunks m) true] end
       ++ extra).
    cbn [map concat]. rewrite feed_app, Ef1, Ef.
    split; [reflexivity|]. split; [exact Hc'|].
    split; [rewrite Hd', Hd1, <- app_assoc; reflexivity|].
    split; [rewrite Hr', Hr1, <- app_assoc; reflexivity|].
    split; [constructor; [exact (delivered_as_later _ _ _ _ _ Hr' Hdel1) | exact Hdel']|].
    assert (Hlen : (length (readables this) <= length (readables this1))%nat).
    { rewrite Hr1, length_app. lia. }
    change (omap msg_body (cm :: cms))
      with (match msg_body cm with
            | Some y => y :: omap msg_body cms
            | None => omap msg_body cms
            end).
    destruct (msg_body cm) as [r|] eqn:Eb.
    + pose proof (Hb1 r eq_refl) as ->.
      assert (Hlt : (length (readables this) < length (readables this1))%nat).
      { destruct Hdel1 as (_ & _ & _ & Hx). rewrite Eb in Hx.
        destruct Hx as [_ Hl]. apply lookup_lt_Some in Hl. exact Hl. }
      split.
      * constructor; [|exact Hnd]. intros Hin. apply Hge in Hin. lia.
      * intros r' [<-|Hin]; [lia|]. apply Hge in Hin. lia.
    + split; [exact Hnd|]. intros r' Hin. apply Hge in Hin. lia.
Qed.

(** X5. Any sequence of messages whose body frames are not empty, fed to a
    transformer that is idle, is assembled without error: the transformer
    is idle again, it has pushed downstream one message for each delivery,
    in order, after those it had pushed before; each message carries the
    delivery, the properties and the body size of its header, and, when
    there is a body, a closed readable of its own that received exactly the
    body frames of that message (no readable when the body is empty). *)
Theorem messages_are_assembled_in_order (msgs : list Message)
    (this : ConsumeStream) :
  _current this = None -> Forall solid msgs ->
  exists this' cms,
    feed (concat (map chunks_of msgs)) this = (this', None) /\
    _current this' = None /\
    downstream this' = downstream this ++ cms /\
    Forall2 (delivered_as this') msgs cms /\
    own_readables cms.
Proof.
  intros Hc Hs.
  destruct (messages_fed msgs Hs this Hc)
    as (this' & cms & extra & Ef & Hc' & Hd & _ & Hdel & Hnd & _).
  exists this', cms. unfold own_readables. auto.
Qed.

Lemma messages_are_assembled_in_order_witness :
  let d1 := mkDeliver "tag" 1 false "x" "a" in
  let d2 := mkDeliver "tag" 2 false "x" "b" in
  let msgs := [mkMsg d1 None [[1; 2]; [3]]; mkMsg d2 None []] in
  exists this' cm1 cm2,
    feed (concat (map chunks_of msgs)) new_stream = (this', None) /\
    downstream this' = [cm1; cm2] /\
    delivered_as this' (mkMsg d1 None [[1; 2]; [3]]) cm1 /\
    delivered_as this' (mkMsg d2 None []) cm2.
Proof.
  cbv zeta.
  destruct (messages_are_assembled_in_order
              [mkMsg (mkDeliver "tag" 1 false "x" "a") None [[1; 2]; [3]];
               mkMsg (mkDeliver "tag" 2 false "x" "b") None []]
              new_stream eq_refl)
    as (this' & cms & Ef & _ & Hd & Hdel & _).
  { repeat constructor. }
  inversion Hdel as [|m1 cm1 ms1 cms1 H1 Hrest]; subst.
  inversion Hrest as [|m2 cm2 ms2 cms2 H2 Hnil]; subst.
  inversion Hnil; subst.
  exists this', cm1, cm2.
  split; [exact Ef|]. split; [exact Hd|]. split; [exact H1 | exact H2].
Defined.

(** *** The end of the input queue *)

Import ConsumerLife.

Lemma ends_push (pushed : list (option ConsumeChunk)) (c : option ConsumeChunk) :
  ends (pushed ++ [c])
  = (ends pushed + match c with None => 1 | Some _ => 0 end)%nat.
Proof.
  unfold ends. rewrite List.filter_app, length_app. destruct c; reflexivity.
Qed.

Lemma end_pushed_once_destroy (this : ChannelConsume) (error : option Error) :
  (ends (pushed (_input this)) <= 1)%nat ->
  (_cancelled this = false -> ends (pushed (_input this)) = 0%nat) ->
  (ends (pushed (_input (Consumer.destroy this error))) <= 1)%nat /\
  _cancelled (Consumer.destroy this error) = true.
Proof.
  intros H1 H0. unfold Consumer.destroy. cbn [_input _cancelled].
  split; [|reflexivity].
  destruct (negb (input_destroyed (_input this)) && negb (_cancelled this)) eqn:E;
    [|exact H1].
  apply andb_true_iff in E. destruct E as [_ E]. apply negb_true_iff in E.
  cbn [push pushed]. rewrite ends_push, (H0 E). lia.
Qed.

Lemma end_pushed_once_step (this : ChannelConsume) (op : Op) :
  (ends (pushed (_input this)) <= 1)%nat ->
  (_cancelled this = false -> ends (pushed (_input this)) = 0%nat) ->
  (Consumer.destroyed this = true -> _cancelled this = true) ->
  (ends (pushed (_input (step this op))) <= 1)%nat /\
  (_cancelled (step this op) = false ->
   ends (pushed (_input (step this op))) = 0%nat) /\
  (Consumer.destroyed (step this op) = true -> _cancelled (step this op) = true).
Proof.
  intros H1 H0 Hd.
  assert (Hdestroy : forall error,
             (ends (pushed (_input (Consumer.destroy this error))) <= 1)%nat /\
             (_cancelled (Consumer.destroy this error) = false ->
              ends (pushed (_input (Consumer.destroy this error))) = 0%nat) /\
             (Consumer.destroyed (Consumer.destroy this error) = true ->
              _cancelled (Consumer.destroy this error) = true)).
  { intros error.
    destruct (end_pushed_once_destroy this error H1 H0) as [A B].
    split; [exact A|]. split; [rewrite B; discriminate | intros _; exact B]. }
  assert (Hsame : (ends (pushed (_input this)) <= 1)%nat /\
                  (_cancelled this = false -> ends (pushed (_input this)) = 0%nat) /\
                  (Consumer.destroyed this = true -> _cancelled this = true))
    by auto.
  assert (Hpush : forall c,
             (ends (pushed (_input this) ++ [Some c]) <= 1)%nat /\
             (_cancelled this = false ->
              ends (pushed (_input this) ++ [Some c]) = 0%nat) /\
             (Consumer.destroyed this = true -> _cancelled this = true)).
  { intros c. rewrite ends_push, Nat.add_0_r. exact Hsame. }
  destruct op as [args|size props|b|tag| | |error| ]; cbn [step].
  - unfold on_basic_deliver. destruct (tag_mismatch this args); [apply Hdestroy|].
    destruct (input_destroyed (_input this)); [exact Hsame | apply Hpush].
  - unfold handle_header.
    destruct (input_destroyed (_input this)); [exact Hsame | apply Hpush].
  - unfold handle_body.
    destruct (input_destroyed (_input this)); [exact Hsame | apply Hpush].
  - exact Hsame.
  - unfold unsubscribe. destruct (_cancelled this) eqn:Ec;
      [rewrite Ec; exact Hsame|].
    cbn [_input _cancelled Consumer.destroyed push pushed].
    rewrite ends_push, (H0 eq_refl).
    split; [lia|]. split; [discriminate | reflexivity].
  - unfold on_basic_cancel.
    destruct (_cancelled this) eqn:Ec; [rewrite Ec; exact Hsame | apply Hdestroy].
  - apply Hdestroy.
  - exact Hsame.
Qed.

(** X6. Whatever happens to a consumer channel, in whatever order
    (deliveries, headers and bodies, [basic.consume-ok], [unsubscribe], a
    [basic.cancel] of the broker, [destroy], the end of the input
    stream), the end-of-stream sentinel is pushed to the input queue at most
    once, it is there only once the channel is cancelled, and a destroyed
    channel is always a cancelled one. *)
Theorem end_of_input_is_pushed_at_most_once (ops : list Op) :
  let this := run ops ConsumerLife.new in
  (ends (pushed (_input this)) <= 1)%nat /\
  (_cancelled this = false -> ends (pushed (_input this)) = 0%nat) /\
  (Consumer.destroyed this = true -> _cancelled this = true).
Proof.
  cbv zeta. unfold run.
  assert (Hgen : forall this,
             (ends (pushed (_input this)) <= 1)%nat ->
             (_cancelled this = false -> ends (pushed (_input this)) = 0%nat) ->
             (Consumer.destroyed this = true -> _cancelled this = true) ->
             (ends (pushed (_input (fold_left step ops this))) <= 1)%nat /\
             (_cancelled (fold_left step ops this) = false ->
              ends (pushed (_input (fold_left step ops this))) = 0%nat) /\
             (Consumer.destroyed (fold_left step ops this) = true ->
              _cancelled (fold_left step ops this) = true)).
  { induction ops as [|op ops IH]; intros this H1 H0 Hd; cbn [fold_left].
    - auto.
    - destruct (end_pushed_once_step this op H1 H0 Hd) as (A & B & C).
      apply IH; assumption. }
  apply Hgen; cbn; auto; discriminate.
Qed.

End ConsumerExtras.

(** ** The frame helpers: when they return and what they write *)
Section FrameHelperExtras.
Context `{Buffer.Memory}.
Import BufferWriter WriterSpec Errors Octets Frame.





End FrameHelperExtras.

(** ** From the writer helpers to the calls of [DecodeStream] *)

Section WireExtras.
Context `{Buffer.Memory}.
Variable DECODERS : Z -> option (BufferReader.t -> Errors.res (Js.value * BufferReader.t)).
Import DecodeStream Errors Octets Frame Wire.











End WireExtras.


(** ** SASL *)

Section SaslExtras.
Import Sasl.

Lemma split_from_free (c : ascii) (s : string) :
  free_of c s -> split_from c s = (s, []).
Proof.
  unfold free_of. induction s as [|a s IH]; cbn; [reflexivity|]. intros Hf.
  rewrite IH by tauto.
  destruct (Ascii.eqb_spec a c) as [->|_]; [tauto | reflexivity].
Qed.

Lemma split_from_separator (c : ascii) (a b : string) :
  free_of c a ->
  split_from c (a ++ String c b)%string = (a, split c b).
Proof.
  unfold free_of, split. induction a as [|x a IH]; cbn; intros Hf.
  - destruct (split_from c b) as [part parts].
    rewrite Ascii.eqb_refl. reflexivity.
  - rewrite IH by tauto.
    destruct (Ascii.eqb_spec x c) as [->|_]; [tauto | reflexivity].
Qed.

Lemma split_from_part_free (c : ascii) (s : string) :
  free_of c (fst (split_from c s)).
Proof.
  unfold free_of. induction s as [|a s IH]; cbn; [tauto|].
  destruct (split_from c s) as [part parts]. cbn [fst] in IH.
  destruct (Ascii.eqb_spec a c) as [->|Hne]; cbn; [tauto|].
  intros [E|Hin]; [congruence | tauto].
Qed.

(** X10. [PLAIN.decode] gives back the user and the password that
    [PLAIN.encode] was given exactly when neither contains the character
    with code 0; the encoded response is that character, the user, that
    character again and the password. *)
Theorem plain_round_trip (user password : string) :
  PLAIN_encode user password
  = String char0 (user ++ String char0 password)%string /\
  (PLAIN_decode (PLAIN_encode user password) = (Some user, Some password)
   <-> free_of char0 user /\ free_of char0 password).
Proof.
  assert (He : PLAIN_encode user password
               = String char0 (user ++ String char0 password)%string)
    by reflexivity.
  split; [exact He|]. rewrite He. unfold PLAIN_decode, split.
  cbn [split_from]. change (Ascii.eqb char0 char0) with true.
  split.
  - pose proof (split_from_part_free char0 (user ++ String char0 password))
      as Hu.
    destruct (split_from char0 (user ++ String char0 password))
      as [part parts] eqn:Es.
    cbn [fst] in Hu. cbn. intros Hd.
    assert (Ep : part = user) by congruence. subst part.
    split; [exact Hu|].
    rewrite (split_from_separator char0 user password Hu) in Es.
    unfold split in Es.
    pose proof (split_from_part_free char0 password) as Hp.
    destruct (split_from char0 password) as [part' parts'].
    cbn [fst] in Hp.
    assert (Ep : parts = part' :: parts') by congruence. subst parts.
    cbn in Hd. assert (Ep : part' = password) by congruence.
    subst part'. exact Hp.
  - intros [Hu Hp].
    rewrite (split_from_separator char0 user password Hu).
    unfold split. rewrite (split_from_free char0 password Hp). reflexivity.
Qed.

End SaslExtras.

(** ** [writeBody] *)

Section BodyFramesExtras.
Context `{Buffer.Memory}.
Import Errors BufferWriter Octets Frame BodyFrames.





End BodyFramesExtras.



(** ** The reader on arbitrary octets *)

Section ReaderExtras.
Context `{Buffer.FloatOps}.
Import Errors Js Codec Octets.

Lemma be_value_nonneg (l : list Z) (acc : Z) :
  octets l -> 0 <= acc ->
  0 <= fold_left (fun acc x => acc * 256 + x) l acc.
Proof.
  intros Ho. revert acc. induction Ho as [|x l Hx _ IH]; intros acc Hacc;
    cbn [fold_left]; [exact Hacc|].
  apply IH. nia.
Qed.

(** A successful read lies inside the buffer and gives a natural number. *)
Lemma readUIntBE_inside (B : list Z) (o : Z) (n : nat) (v : Z) :
  Buffer.readUIntBE B o n = Ok v ->
  0 <= o /\ o + Z.of_nat n <= Buffer.length B /\ (octets B -> 0 <= v).
Proof.
  unfold Buffer.readUIntBE, Buffer.read_octets.
  destruct (Z.leb_spec 0 o); [|discriminate].
  destruct (Z.leb_spec (o + Z.of_nat n) (Buffer.length B)); [|discriminate].
  cbn [andb mbind res_bind Errors.bind]. intros [= <-].
  split; [assumption|]. split; [assumption|].
  intros Ho. apply be_value_nonneg; [|lia].
  unfold octets in *. apply Forall_take, Forall_drop, Ho.
Qed.

Lemma tableitems_loop_ends_at (fuel : nat) :
  forall (end_ : Z) (acc result : list (string * value)) (R R' : BufferReader.t),
    BufferReader.tableitems_loop fuel end_ acc R = Ok (result, R') ->
    BufferReader._offset R' = end_.
Proof.
  induction fuel as [|fuel IH]; intros end_ acc result R R'; [discriminate|].
  rewrite tableitems_loop_S.
  destruct (Z.ltb_spec (BufferReader._offset R) end_) as [Hlt|Hge].
  - destruct (BufferReader.shortstr R) as [[key R1]|]; [|discriminate].
    cbn [mbind res_bind Errors.bind].
    destruct (negb (RE_FieldName key)); [discriminate|].
    destruct (BufferReader.tableitem_fuel fuel R1) as [[item R2]|];
      [|discriminate].
    cbn [mbind res_bind Errors.bind]. apply IH.
  - destruct (Z.eqb_spec (BufferReader._offset R) end_) as [He|Hne];
      cbn [negb]; [|discriminate].
    intros [= _ <-]. exact He.
Qed.

Lemma array_loop_ends_at (fuel : nat) :
  forall (end_ : Z) (acc result : list value) (R R' : BufferReader.t),
    BufferReader.array_loop fuel end_ acc R = Ok (result, R') ->
    BufferReader._offset R' = end_.
Proof.
  induction fuel as [|fuel IH]; intros end_ acc result R R'; [discriminate|].
  rewrite array_loop_S.
  destruct (Z.ltb_spec (BufferReader._offset R) end_) as [Hlt|Hge].
  - destruct (BufferReader.tableitem_fuel fuel R) as [[item R2]|];
      [|discriminate].
    cbn [mbind res_bind Errors.bind]. apply IH.
  - destruct (Z.eqb_spec (BufferReader._offset R) end_) as [He|Hne];
      cbn [negb]; [|discriminate].
    intros [= _ <-]. exact He.
Qed.

(** X13. A table or an array that the reader returns took exactly the
    octets its length prefix declares: the cursor ends 4 octets plus the
    declared length after the place where it began, and a table that is not
    empty lies inside the buffer. Fields that end before or after the
    declared length make the reader throw. *)
Theorem table_and_array_take_their_declared_length (R : BufferReader.t) :
  octets (BufferReader._buffer R) ->
  (forall fields R',
     BufferReader.table R = Ok (fields, R') ->
     exists length,
       Buffer.readUIntBE (BufferReader._buffer R) (BufferReader._offset R) 4
       = Ok length /\
       BufferReader._offset R' = BufferReader._offset R + 4 + length /\
       BufferReader._offset R' <= Buffer.length (BufferReader._buffer R)) /\
  (forall items R',
     BufferReader.array R = Ok (items, R') ->
     exists length,
       Buffer.readUIntBE (BufferReader._buffer R) (BufferReader._offset R) 4
       = Ok length /\
       BufferReader._offset R' = BufferReader._offset R + 4 + length).
Proof.
  intros Hoct. split.
  - intros fields R'. unfold BufferReader.table, BufferReader.uint32.
    destruct (Buffer.readUIntBE _ _ 4) as [length|] eqn:El; [|discriminate].
    cbn [mbind res_bind Errors.bind]. unfold BufferReader.advance.
    cbn [BufferReader._buffer BufferReader._offset].
    destruct (readUIntBE_inside _ _ _ _ El) as (Ho & Hin & Hv).
    specialize (Hv Hoct).
    destruct (Z.eqb_spec length 0) as [->|Hne].
    + intros [= _ <-]. exists 0. cbn [BufferReader._offset].
      split; [reflexivity|]. lia.
    + destruct (Z.gtb_spec (BufferReader._offset R + 4 + length)
                  (Buffer.length (BufferReader._buffer R))) as [Hgt|Hle];
        [discriminate|].
      unfold BufferReader.tableitems.
      destruct (Z.eqb_spec (BufferReader._offset R + 4 + length) 0) as [E0|_].
      * exfalso. lia.
      * intros Hl. apply tableitems_loop_ends_at in Hl.
        exists length. split; [reflexivity|]. lia.
  - intros items R'. unfold BufferReader.array, BufferReader.uint32.
    destruct (Buffer.readUIntBE _ _ 4) as [length|] eqn:El; [|discriminate].
    cbn [mbind res_bind Errors.bind]. unfold BufferReader.advance.
    cbn [BufferReader._buffer BufferReader._offset].
    destruct (Z.eqb_spec length 0) as [->|Hne].
    + intros [= _ <-]. exists 0. cbn [BufferReader._offset].
      split; [reflexivity|]. lia.
    + intros Hl. apply array_loop_ends_at in Hl.
      exists length. split; [reflexivity|]. lia.
Qed.

Import ReaderSpec.

Lemma read_octets_cases (B : list Z) (o : Z) (n : nat) :
  Buffer.read_octets B o n = Err Buffer.out_of_range \/
  exists bs, Buffer.read_octets B o n = Ok bs /\
             0 <= o /\ o + Z.of_nat n <= Buffer.length B.
Proof.
  unfold Buffer.read_octets.
  destruct (Z.leb_spec 0 o); [|left; reflexivity].
  destruct (Z.leb_spec (o + Z.of_nat n) (Buffer.length B));
    [|left; reflexivity].
  right. eexists. split; [reflexivity|]. lia.
Qed.

Lemma readUIntBE_cases (B : list Z) (o : Z) (n : nat) :
  Buffer.readUIntBE B o n = Err Buffer.out_of_range \/
  exists v, Buffer.readUIntBE B o n = Ok v /\
            0 <= o /\ o + Z.of_nat n <= Buffer.length B /\
            (octets B -> 0 <= v).
Proof.
  destruct (Buffer.readUIntBE B o n) as [v|e] eqn:E.
  - right. exists v. split; [reflexivity|]. apply readUIntBE_inside in E. exact E.
  - left. unfold Buffer.readUIntBE in E.
    destruct (read_octets_cases B o n) as [E'|(bs & E' & _)];
      rewrite E' in E; cbn in E; congruence.
Qed.

Lemma readIntBE_cases (B : list Z) (o : Z) (n : nat) :
  Buffer.readIntBE B o n = Err Buffer.out_of_range \/
  exists v, Buffer.readIntBE B o n = Ok v /\
            0 <= o /\ o + Z.of_nat n <= Buffer.length B.
Proof.
  unfold Buffer.readIntBE.
  destruct (readUIntBE_cases B o n) as [E|(v & E & Ho & Hl & _)]; rewrite E.
  - left. reflexivity.
  - right. eexists. split; [reflexivity|]. lia.
Qed.

Ltac read_uint :=
  match goal with
  | |- context [Buffer.readUIntBE ?b ?o ?n] =>
      let E := fresh "E" in
      destruct (readUIntBE_cases b o n) as [E|(?v & E & ?Ho & ?Hl & ?Hv)];
      rewrite E; cbn [mbind res_bind Errors.bind];
      [unfold advances; discriminate|]
  | |- context [Buffer.readIntBE ?b ?o ?n] =>
      let E := fresh "E" in
      destruct (readIntBE_cases b o n) as [E|(?v & E & ?Ho & ?Hl)];
      rewrite E; cbn [mbind res_bind Errors.bind];
      [unfold advances; discriminate|]
  | |- context [Buffer.read_octets ?b ?o ?n] =>
      let E := fresh "E" in
      destruct (read_octets_cases b o n) as [E|(?bs & E & ?Ho & ?Hl)];
      rewrite E; cbn [mbind res_bind Errors.bind];
      [unfold advances; discriminate|]
  end.

Ltac advanced :=
  unfold advances, unread, BufferReader.advance;
  cbn [BufferReader._buffer BufferReader._offset];
  first [discriminate | split; [reflexivity | lia]].

(** A method without recursion throws or moves forward. *)
Lemma scalar_advances (method : Method) (R : BufferReader.t) :
  octets (BufferReader._buffer R) ->
  advances R 0 (BufferReader.scalar method R).
Proof.
  intros Hoct.
  destruct method; unfold BufferReader.scalar, BufferReader.boolean,
    BufferReader.uint8, BufferReader.int8, BufferReader.uint16,
    BufferReader.int16, BufferReader.uint32, BufferReader.int32,
    BufferReader.uint64, BufferReader.int64, BufferReader.float,
    BufferReader.double, BufferReader.decimal, BufferReader.shortstr,
    BufferReader.longstr, BufferReader.timestamp, BufferReader.binary,
    BufferReader.uint8, BufferReader.uint32, BufferReader.uint64;
    cbn [mbind res_bind Errors.bind];
    repeat (read_uint; unfold BufferReader.advance;
            cbn [BufferReader._buffer BufferReader._offset]);
    repeat match goal with Hv : octets _ -> _ |- _ => specialize (Hv Hoct) end;
    repeat (match goal with
            | |- context [if ?c then _ else _] => destruct c
            end; cbn [mbind res_bind Errors.bind]);
    advanced.
Qed.

Lemma advances_from (A : Type) (R1 R : BufferReader.t) (a b : Z)
    (r : res (A * BufferReader.t)) :
  advances R1 a r ->
  BufferReader._buffer R1 = BufferReader._buffer R ->
  BufferReader._offset R + b <= BufferReader._offset R1 + a ->
  b <= unread R ->
  advances R b r.
Proof.
  unfold advances. destruct r as [[x R']|e]; [|tauto].
  intros (Hb & Ho & _) Hb1 Ho1 Hu. split; [congruence | lia].
Qed.

(** The mutual recursion of the reader with fuel for the octets in front
    of the cursor. *)
Lemma recursion_advances (fuel : nat) :
  (forall R, octets (BufferReader._buffer R) ->
             unread R < Z.of_nat fuel ->
             advances R 1 (BufferReader.tableitem_fuel fuel R)) /\
  (forall end_ acc R, octets (BufferReader._buffer R) ->
             unread R + 1 < Z.of_nat fuel ->
             advances R 0 (BufferReader.tableitems_loop fuel end_ acc R)) /\
  (forall end_ acc R, octets (BufferReader._buffer R) ->
             unread R + 1 < Z.of_nat fuel ->
             advances R 0 (BufferReader.array_loop fuel end_ acc R)).
Proof.
  induction fuel as [|fuel (IHitem & IHtable & IHarray)].
  - unfold unread. repeat split; intros; exfalso; lia.
  - split; [|split].
    + intros R Hoct Hfuel. rewrite tableitem_fuel_S.
      unfold BufferReader.uint8 at 1. unfold unread in Hfuel.
      read_uint. unfold BufferReader.advance.
      set (R1 := BufferReader.mk (BufferReader._buffer R)
                   (BufferReader._offset R + 1)).
      assert (Hoct1 : octets (BufferReader._buffer R1)) by exact Hoct.
      destruct (CHAR_METHODS v) as [method|]; [|advanced].
      destruct method;
        try (apply (advances_from _ R1 R 0 1 _ (scalar_advances _ R1 Hoct1));
             [reflexivity | unfold R1; cbn [BufferReader._offset]; lia
             | unfold unread; lia]).
      * unfold BufferReader.uint32, R1. cbn [BufferReader._buffer BufferReader._offset].
        read_uint. specialize (Hv0 Hoct). unfold BufferReader.advance.
        cbn [BufferReader._buffer BufferReader._offset].
        destruct (v0 =? 0); [advanced|].
        destruct (_ >? _); [advanced|].
        match goal with
        | |- context [BufferReader.tableitems_loop fuel ?e ?a ?r] =>
            pose proof (IHtable e a r Hoct) as IH;
            destruct (BufferReader.tableitems_loop fuel e a r) as [[fields R3]|e3]
        end; cbn [mbind res_bind Errors.bind].
        -- unfold advances, unread in *.
           cbn [BufferReader._buffer BufferReader._offset] in *.
           destruct IH as (Hb3 & Ho3 & _); [lia|]. split; [exact Hb3 | lia].
        -- unfold advances, unread in *.
           cbn [BufferReader._buffer BufferReader._offset] in *.
           apply IH. lia.
      * unfold BufferReader.uint32, R1. cbn [BufferReader._buffer BufferReader._offset].
        read_uint. specialize (Hv0 Hoct). unfold BufferReader.advance.
        cbn [BufferReader._buffer BufferReader._offset].
        destruct (v0 =? 0); [advanced|].
        match goal with
        | |- context [BufferReader.array_loop fuel ?e ?a ?r] =>
            pose proof (IHarray e a r Hoct) as IH;
            destruct (BufferReader.array_loop fuel e a r) as [[items R3]|e3]
        end; cbn [mbind res_bind Errors.bind].
        -- unfold advances, unread in *.
           cbn [BufferReader._buffer BufferReader._offset] in *.
           destruct IH as (Hb3 & Ho3 & _); [lia|]. split; [exact Hb3 | lia].
        -- unfold advances, unread in *.
           cbn [BufferReader._buffer BufferReader._offset] in *.
           apply IH. lia.
    + intros end_ acc R Hoct Hfuel. rewrite tableitems_loop_S.
      destruct (_ <? _).
      * unfold BufferReader.shortstr, BufferReader.uint8. unfold unread in Hfuel.
        read_uint. specialize (Hv Hoct). unfold BufferReader.advance.
        cbn [BufferReader._buffer BufferReader._offset].
        destruct (negb _); [advanced|].
        match goal with
        | |- context [BufferReader.tableitem_fuel fuel ?r] =>
            pose proof (IHitem r Hoct) as IH1;
            destruct (BufferReader.tableitem_fuel fuel r) as [[item R2]|e2]
        end; cbn [mbind res_bind Errors.bind].
        -- unfold advances, unread in IH1.
           cbn [BufferReader._buffer BufferReader._offset] in IH1.
           destruct IH1 as (Hb2 & Ho2 & _); [lia|].
           assert (Hoct2 : octets (BufferReader._buffer R2))
             by (rewrite Hb2; exact Hoct).
           eapply advances_from;
             [apply (IHtable _ _ R2 Hoct2)| exact Hb2 | lia | unfold unread; lia].
           unfold unread. rewrite Hb2. lia.
        -- unfold advances, unread in *.
           cbn [BufferReader._buffer BufferReader._offset] in *.
           apply IH1. lia.
      * destruct (negb _); advanced.
    + intros end_ acc R Hoct Hfuel. rewrite array_loop_S.
      destruct (_ <? _).
      * pose proof (IHitem R Hoct) as IH1.
        destruct (BufferReader.tableitem_fuel fuel R) as [[item R2]|e2];
          cbn [mbind res_bind Errors.bind].
        -- unfold advances in IH1. destruct IH1 as (Hb2 & Ho2 & Hu2); [lia|].
           assert (Hoct2 : octets (BufferReader._buffer R2))
             by (rewrite Hb2; exact Hoct).
           eapply advances_from;
             [apply (IHarray _ _ R2 Hoct2)| exact Hb2 | lia | unfold unread; lia].
           unfold unread in *. rewrite Hb2. lia.
        -- unfold advances in *. apply IH1. lia.
      * destruct (negb _); advanced.
Qed.

(** X14. The reader ends on every buffer, whatever its octets: with the
    fuel of one unit per octet and two more, [tableitem], [tableitems],
    [table] and [array] either throw one of the exceptions the code throws
    or return with the cursor further in the same buffer, by at least the
    tag for an item and by at least the length prefix for a table or an
    array. The recursion never runs out of fuel. *)
Theorem reader_ends_on_every_buffer (R : BufferReader.t) (end_ : option Z) :
  octets (BufferReader._buffer R) ->
  advances R 1 (BufferReader.tableitem R) /\
  advances R 0 (BufferReader.tableitems end_ R) /\
  advances R 4 (BufferReader.table R) /\
  advances R 4 (BufferReader.array R).
Proof.
  intros Hoct.
  destruct (recursion_advances (BufferReader.enough_fuel R))
    as (Hitem & Htable & Harray).
  assert (Hlen : Z.of_nat (BufferReader.enough_fuel R)
                 = Buffer.length (BufferReader._buffer R) + 2).
  { unfold BufferReader.enough_fuel, Buffer.length. lia. }
  assert (Hpos : 0 <= Buffer.length (BufferReader._buffer R))
    by (unfold Buffer.length; lia).
  split; [|split; [|split]].
  - destruct (Z.le_gt_cases 0 (BufferReader._offset R)) as [Ho|Ho].
    + apply Hitem; [exact Hoct | unfold unread; lia].
    + unfold BufferReader.tableitem, BufferReader.enough_fuel.
      rewrite tableitem_fuel_S. unfold BufferReader.uint8 at 1.
      read_uint. exfalso. lia.
  - unfold BufferReader.tableitems.
    destruct (Z.le_gt_cases 0 (BufferReader._offset R)) as [Ho|Ho].
    + apply Htable; [exact Hoct | unfold unread; lia].
    + unfold BufferReader.enough_fuel. rewrite tableitems_loop_S.
      destruct (_ <? _).
      * unfold BufferReader.shortstr, BufferReader.uint8.
        read_uint. exfalso. lia.
      * destruct (negb _); advanced.
  - unfold BufferReader.table, BufferReader.uint32.
    read_uint. specialize (Hv Hoct). unfold BufferReader.advance.
    destruct (v =? 0); [advanced|].
    destruct (_ >? _); [advanced|].
    unfold BufferReader.tableitems.
    eapply advances_from.
    + apply Htable; [exact Hoct|].
      unfold unread. cbn [BufferReader._buffer BufferReader._offset]. lia.
    + reflexivity.
    + cbn [BufferReader._offset]. lia.
    + unfold unread. lia.
  - unfold BufferReader.array, BufferReader.uint32.
    read_uint. specialize (Hv Hoct). unfold BufferReader.advance.
    destruct (v =? 0); [advanced|].
    eapply advances_from.
    + apply Harray; [exact Hoct|].
      unfold unread. cbn [BufferReader._buffer BufferReader._offset]. lia.
    + reflexivity.
    + cbn [BufferReader._offset]. lia.
    + unfold unread. lia.
Qed.

End ReaderExtras.

Lemma table_and_array_take_their_declared_length_witness :
  let R := BufferReader.mk [0; 0; 0; 4; 1; 97; 116; 1] 0 in
  exists length,
    Buffer.readUIntBE (BufferReader._buffer R) (BufferReader._offset R) 4
    = Errors.Ok length /\
    8 = BufferReader._offset R + 4 + length /\
    8 <= Buffer.length (BufferReader._buffer R).
Proof.
  cbv zeta.
  apply (proj1 (@table_and_array_take_their_declared_length
                  Carried.zero_floats
                  (BufferReader.mk [0; 0; 0; 4; 1; 97; 116; 1] 0)
                  ltac:(repeat constructor; lia))
           [("a"%string, Js.VBoolean true)]
           (BufferReader.mk [0; 0; 0; 4; 1; 97; 116; 1] 8)).
  vm_compute. reflexivity.
Defined.

Lemma reader_ends_on_every_buffer_witness :
  let R := BufferReader.mk [65; 255; 255; 255; 255; 65; 0; 0; 0; 1] 0 in
  ReaderSpec.advances R 1 (@BufferReader.tableitem Carried.zero_floats R) /\
  ReaderSpec.advances R 0 (@BufferReader.tableitems Carried.zero_floats None R) /\
  ReaderSpec.advances R 4 (@BufferReader.table Carried.zero_floats R) /\
  ReaderSpec.advances R 4 (@BufferReader.array Carried.zero_floats R).
Proof.
  cbv zeta.
  apply (@reader_ends_on_every_buffer Carried.zero_floats
           (BufferReader.mk [65; 255; 255; 255; 255; 65; 0; 0; 0; 1] 0) None).
  repeat constructor; lia.
Defined.

(** ** A growable writer *)

Section GrowableWriterExtras.
Context `{Buffer.Memory}.
Import BufferWriter WriterSpec Errors Octets.

(** [safewritedynamic] makes room for [size] octets before the callback
    runs. *)
Lemma safewrite_makes_room (size : Z) (callback : BufferWriter.t -> res BufferWriter.t)
    (W : BufferWriter.t) :
  tight W -> 0 <= size ->
  (forall X, dynamic X = dynamic W -> _offset X = _offset W ->
             _offset X + size <= Buffer.length (_buffer X) ->
             exists X', callback X = Ok X') ->
  exists W', safewrite size callback W = Ok W'.
Proof.
  intros (Hd & Ho & Hl) Hs Hcb. unfold safewrite. rewrite Hd.
  unfold safewritedynamic.
  set (X := if _offset W + size >? Buffer.length (_buffer W)
            then with_buffer W
                   (_buffer W ++ Buffer.allocUnsafe (size + Codec.BUFFER_INC))
            else W).
  destruct (Hcb X) as [X' E].
  - unfold X. destruct (_ >? _); reflexivity.
  - unfold X. destruct (_ >? _); reflexivity.
  - unfold X. destruct (Z.gtb_spec (_offset W + size) (Buffer.length (_buffer W)));
      [|lia].
    cbn [with_buffer _buffer _offset]. unfold Buffer.length in *.
    rewrite length_app, allocUnsafe_length. unfold Codec.BUFFER_INC. lia.
  - rewrite E. cbn [mbind res_bind Errors.bind]. eexists. reflexivity.
Qed.

Lemma put_uint_fits (n : nat) (v : Z) (X : BufferWriter.t) :
  0 <= v < 2 ^ (8 * Z.of_nat n) -> 0 <= _offset X ->
  _offset X + Z.of_nat n <= Buffer.length (_buffer X) ->
  exists X', put_uint n v X = Ok X'.
Proof.
  intros Hv Ho Hl. unfold put_uint.
  destruct (writeUIntBE_ok (_buffer X) v (_offset X) n) as [b E];
    [exact Hv | exact Ho | exact Hl |].
  rewrite E. cbn [mbind res_bind Errors.bind]. eexists. reflexivity.
Qed.

Lemma write_fits (b : list Z) (s : string) (o : Z) :
  0 <= o <= Buffer.length b -> exists b', Buffer.write b s o = Ok b'.
Proof.
  intros Ho. unfold Buffer.write.
  destruct (Buffer.octets_of_string s) as [|c cs] eqn:Es;
    [eexists; reflexivity|].
  destruct (Z.leb_spec 0 o); [|lia].
  destruct (Z.leb_spec o (Buffer.length b)); [|lia]. cbn [andb].
  apply write_octets_ok; [lia|].
  unfold Buffer.length in *. rewrite length_take. lia.
Qed.

Lemma string_fits (k : nat) (s : string) (X : BufferWriter.t) :
  0 <= Buffer.byteLength s < 2 ^ (8 * Z.of_nat k) -> 0 <= _offset X ->
  _offset X + (Buffer.byteLength s + Z.of_nat k) <= Buffer.length (_buffer X) ->
  exists X',
    (b ← Buffer.writeUIntBE (_buffer X) (Buffer.byteLength s) (_offset X) k;
     b ← Buffer.write b s (_offset X + Z.of_nat k);
     Ok (with_buffer X b)) = Ok X'.
Proof.
  intros Hv Ho Hl.
  destruct (writeUIntBE_ok (_buffer X) (Buffer.byteLength s) (_offset X) k)
    as [b E]; [exact Hv | exact Ho | lia |].
  rewrite E. cbn [mbind res_bind Errors.bind].
  apply writeUIntBE_puts in E. destruct E as [_ P]. apply puts_length in P.
  destruct (write_fits b s (_offset X + Z.of_nat k)) as [b' E'];
    [unfold Buffer.length in *; lia|].
  rewrite E'. cbn [mbind res_bind Errors.bind]. eexists. reflexivity.
Qed.

Lemma uint_has_room (n : nat) (v : Z) (W : BufferWriter.t) :
  tight W -> 0 <= v < 2 ^ (8 * Z.of_nat n) ->
  exists W', safewrite (Z.of_nat n) (put_uint n v) W = Ok W' /\ tight W' /\
             wrote W W' (Buffer.be_octets n v).
Proof.
  intros Ht Hv.
  destruct (safewrite_makes_room (Z.of_nat n) (put_uint n v) W Ht)
    as [W' E]; [lia | |].
  - intros X _ Ho Hl. apply put_uint_fits; [exact Hv | | exact Hl].
    rewrite Ho. apply Ht.
  - exists W'. split; [exact E|].
    apply (uint_wrote n _ v W W' eq_refl (tight_room W Ht)) in E.
    destruct E as [_ Hw]. split; [|exact Hw].
    exact (tight_wrote_tight _ _ _ Ht Hw).
Qed.

Lemma shortstr_has_room (s : string) (W : BufferWriter.t) :
  tight W -> Buffer.byteLength s < 256 ->
  exists W', shortstr s W = Ok W' /\ tight W' /\
             wrote W W' (Buffer.be_octets 1 (Buffer.byteLength s)
                           ++ Buffer.octets_of_string s).
Proof.
  intros Ht Hv.
  assert (Hs : 0 <= Buffer.byteLength s) by (unfold Buffer.byteLength; lia).
  unfold shortstr.
  destruct (safewrite_makes_room (Buffer.byteLength s + 1)
              (fun this : BufferWriter.t =>
                 b ← Buffer.writeUIntBE (_buffer this) (Buffer.byteLength s)
                       (_offset this) 1;
                 b ← Buffer.write b s (_offset this + 1);
                 Ok (with_buffer this b)) W Ht) as [W' E]; [lia | |].
  - intros X _ Ho Hl.
    apply (string_fits 1 s X); [cbn; lia | rewrite Ho; apply Ht | exact Hl].
  - exists W'. split; [exact E|].
    apply (shortstr_wrote s W W' (tight_room W Ht)) in E. destruct E as [_ Hw].
    split; [|exact Hw]. exact (tight_wrote_tight _ _ _ Ht Hw).
Qed.

Lemma longstr_has_room (s : string) (W : BufferWriter.t) :
  tight W -> Buffer.byteLength s < 4294967296 ->
  exists W', longstr s W = Ok W' /\ tight W' /\
             wrote W W' (Buffer.be_octets 4 (Buffer.byteLength s)
                           ++ Buffer.octets_of_string s).
Proof.
  intros Ht Hv.
  assert (Hs : 0 <= Buffer.byteLength s) by (unfold Buffer.byteLength; lia).
  unfold longstr.
  destruct (safewrite_makes_room (Buffer.byteLength s + 4)
              (fun this : BufferWriter.t =>
                 b ← Buffer.writeUIntBE (_buffer this) (Buffer.byteLength s)
                       (_offset this) 4;
                 b ← Buffer.write b s (_offset this + 4);
                 Ok (with_buffer this b)) W Ht) as [W' E]; [lia | |].
  - intros X _ Ho Hl.
    apply (string_fits 4 s X); [cbn; lia | rewrite Ho; apply Ht | exact Hl].
  - exists W'. split; [exact E|].
    apply (longstr_wrote s W W' (tight_room W Ht)) in E. destruct E as [_ Hw].
    split; [|exact Hw]. exact (tight_wrote_tight _ _ _ Ht Hw).
Qed.

Lemma binary_has_room (value : list Z) (W : BufferWriter.t) :
  tight W -> Buffer.length value < 4294967296 ->
  exists W', binary value W = Ok W' /\ tight W'.
Proof.
  intros Ht Hv.
  assert (Hb : 0 <= Buffer.length value) by (unfold Buffer.length; lia).
  assert (Hex : exists W', binary value W = Ok W').
  { unfold binary. destruct (Z.eqb_spec (Buffer.length value) 0) as [E0|Hne];
      cbn [negb].
    - destruct (uint_has_room 4 0 W Ht) as (W' & E & _); [cbn; lia|].
      exists W'. exact E.
    - apply (safewrite_makes_room _ _ W Ht); [lia|].
      intros X _ Ho Hl.
      destruct (writeUIntBE_ok (_buffer X) (Buffer.length value) (_offset X) 4)
        as [b E]; [cbn; lia | rewrite Ho; apply Ht | lia |].
      rewrite E. cbn [mbind res_bind Errors.bind].
      apply writeUIntBE_puts in E. destruct E as [_ P].
      apply puts_length in P. unfold Buffer.set.
      destruct (write_octets_ok b (_offset X + 4) value) as [b' E'];
        [rewrite Ho; destruct Ht as (_ & Ht & _); lia | lia |].
      rewrite E'. cbn [mbind res_bind Errors.bind]. eexists. reflexivity. }
  destruct Hex as [W' E]. exists W'. split; [exact E|].
  apply (binary_wrote value W W' (tight_room W Ht)) in E. destruct E as [_ Hw].
  exact (tight_wrote_tight _ _ _ Ht Hw).
Qed.

(** X15. A growable writer never fails for lack of room. Between two calls
    its cursor is inside its buffer, and there a fixed-width unsigned
    integer is written exactly when it fits in its width, a short string
    exactly when it has fewer than 256 octets, a long string or a binary
    value exactly when it has fewer than 2^32; the writer is then again in
    such a state. *)
Theorem growable_writer_always_has_room (W : BufferWriter.t) (v : Z)
    (s : string) (value : list Z) :
  tight W ->
  ((exists W', uint8 v W = Ok W' /\ tight W') <-> 0 <= v < 256) /\
  ((exists W', uint16 v W = Ok W' /\ tight W') <-> 0 <= v < 65536) /\
  ((exists W', uint32 v W = Ok W' /\ tight W') <-> 0 <= v < 4294967296) /\
  ((exists W', uint64 v W = Ok W' /\ tight W')
   <-> 0 <= v < 18446744073709551616) /\
  ((exists W', shortstr s W = Ok W' /\ tight W')
   <-> Buffer.byteLength s < 256) /\
  ((exists W', longstr s W = Ok W' /\ tight W')
   <-> Buffer.byteLength s < 4294967296) /\
  ((exists W', binary value W = Ok W' /\ tight W')
   <-> Buffer.length value < 4294967296).
Proof.
  intros Ht.
  pose proof (tight_room W Ht) as Hr.
  assert (Hu : forall n : nat,
             (exists W', safewrite (Z.of_nat n) (put_uint n v) W = Ok W' /\ tight W')
             <-> 0 <= v < 2 ^ (8 * Z.of_nat n)).
  { intros n. split.
    - intros (W' & E & _). apply (uint_wrote n _ v W W' eq_refl Hr) in E. apply E.
    - intros Hv. destruct (uint_has_room n v W Ht Hv) as (W' & E & Ht' & _).
      exists W'. split; assumption. }
  split; [exact (Hu 1%nat)|]. split; [exact (Hu 2%nat)|].
  split; [exact (Hu 4%nat)|]. split; [exact (Hu 8%nat)|].
  split; [|split]; split.
  - intros (W' & E & _). apply (shortstr_wrote s W W' Hr) in E. lia.
  - intros Hv. destruct (shortstr_has_room s W Ht Hv) as (W' & E & Ht' & _).
    exists W'. split; assumption.
  - intros (W' & E & _). apply (longstr_wrote s W W' Hr) in E. lia.
  - intros Hv. destruct (longstr_has_room s W Ht Hv) as (W' & E & Ht' & _).
    exists W'. split; assumption.
  - intros (W' & E & _). apply (binary_wrote value W W' Hr) in E. lia.
  - intros Hv. destruct (binary_has_room value W Ht Hv) as (W' & E & Ht').
    exists W'. split; assumption.
Qed.

End GrowableWriterExtras.

Lemma growable_writer_always_has_room_witness :
  let W := @BufferWriter.new Frame.zero_memory 0 true in
  let tight := WriterSpec.tight in
  ((exists W', @BufferWriter.uint8 Frame.zero_memory 300 W = Errors.Ok W' /\ tight W')
   <-> 0 <= 300 < 256) /\
  ((exists W', @BufferWriter.uint16 Frame.zero_memory 300 W = Errors.Ok W' /\ tight W')
   <-> 0 <= 300 < 65536) /\
  ((exists W', @BufferWriter.uint32 Frame.zero_memory 300 W = Errors.Ok W' /\ tight W')
   <-> 0 <= 300 < 4294967296) /\
  ((exists W', @BufferWriter.uint64 Frame.zero_memory 300 W = Errors.Ok W' /\ tight W')
   <-> 0 <= 300 < 18446744073709551616) /\
  ((exists W', @BufferWriter.shortstr Frame.zero_memory "ab" W = Errors.Ok W' /\ tight W')
   <-> Buffer.byteLength "ab" < 256) /\
  ((exists W', @BufferWriter.longstr Frame.zero_memory "ab" W = Errors.Ok W' /\ tight W')
   <-> Buffer.byteLength "ab" < 4294967296) /\
  ((exists W', @BufferWriter.binary Frame.zero_memory [1] W = Errors.Ok W' /\ tight W')
   <-> Buffer.length [1] < 4294967296).
Proof.
  cbv zeta.
  apply (@growable_writer_always_has_room Frame.zero_memory
           (@BufferWriter.new Frame.zero_memory 0 true) 300 "ab" [1]).
  unfold WriterSpec.tight. vm_compute. repeat split; congruence.
Defined.

(** ** AMQPLAIN *)

Section AmqplainExtras.
Context `{Buffer.Memory} `{Buffer.FloatOps}.
Import Sasl BufferWriter WriterSpec Errors Octets Js Codec Carried ItemSpec.

Lemma octets_of_string_octets (s : string) : octets (Buffer.octets_of_string s).
Proof.
  unfold octets, Buffer.octets_of_string. apply Forall_map, Forall_forall.
  intros c _. cbn beta. pose proof (N_ascii_bounded c). lia.
Qed.

Lemma octets_of_string_of_octets (bs : list Z) :
  octets bs -> Buffer.octets_of_string (Buffer.string_of_octets bs) = bs.
Proof.
  unfold Buffer.octets_of_string, Buffer.string_of_octets.
  rewrite list_ascii_of_string_of_list_ascii, map_map.
  induction 1 as [|x bs Hx _ IH]; cbn [map]; [reflexivity|].
  rewrite IH. f_equal. rewrite N_ascii_embedding by lia. lia.
Qed.

Lemma string_of_octets_length (bs : list Z) :
  String.length (Buffer.string_of_octets bs) = length bs.
Proof.
  unfold Buffer.string_of_octets.
  induction bs as [|x bs IH]; cbn; [reflexivity | rewrite IH; reflexivity].
Qed.

(** The octets written between two states of a writer are determined by
    the states. *)
Lemma wrote_unique (W W' : BufferWriter.t) (a b : list Z) :
  0 <= _offset W -> wrote W W' a -> wrote W W' b -> a = b.
Proof.
  intros Ho (_ & Ha & _ & _ & _ & Hata) (_ & Hb & _ & _ & _ & Hatb).
  assert (Hl : length a = length b) by (unfold Buffer.length in *; lia).
  apply list_eq. intros j.
  destruct (Nat.lt_ge_cases j (length a)) as [Hlt|Hge].
  - rewrite <- Hata by exact Hlt. rewrite <- Hatb by lia. reflexivity.
  - rewrite !lookup_ge_None_2 by lia. reflexivity.
Qed.

(** A string item on a growable writer. *)
Lemma string_item_has_room (s : string) (W : BufferWriter.t) :
  tight W -> Buffer.byteLength s < 4294967296 ->
  exists W', tableitem (VString s) W = Ok W' /\ tight W' /\
             wrote W W' ([83] ++ Buffer.be_octets 4 (Buffer.byteLength s)
                           ++ Buffer.octets_of_string s).
Proof.
  intros Ht Hs. rewrite tableitem_eq. cbn [tableitem_char mbind res_bind Errors.bind].
  change (CHAR_METHODS 83) with (Some Mlongstr). cbv iota.
  destruct (uint_has_room 1 83 W Ht) as (W1 & E1 & Ht1 & Hw1); [cbn; lia|].
  change (Z.of_nat 1) with 1 in E1.
  unfold uint8. rewrite E1. cbn [mbind res_bind Errors.bind scalar as_string].
  destruct (longstr_has_room s W1 Ht1 Hs) as (W2 & E2 & Ht2 & Hw2).
  rewrite E2. exists W2. split; [reflexivity|]. split; [exact Ht2|].
  apply (wrote_trans W W1 W2); [apply Ht | exact Hw1 | exact Hw2].
Qed.

(** A field with a string value on a growable writer. *)
Lemma string_field_has_room (key s : string) (rest : list (string * value))
    (W : BufferWriter.t) :
  tight W -> RE_FieldName key = true -> Buffer.byteLength key < 256 ->
  Buffer.byteLength s < 4294967296 ->
  exists W', tight W' /\
    tableitems ((key, VString s) :: rest) W = tableitems rest W' /\
    wrote W W' ((Buffer.be_octets 1 (Buffer.byteLength key)
                   ++ Buffer.octets_of_string key)
                  ++ [83] ++ Buffer.be_octets 4 (Buffer.byteLength s)
                  ++ Buffer.octets_of_string s).
Proof.
  intros Ht Hk Hkl Hs. cbn [tableitems]. rewrite Hk. cbn [negb].
  destruct (shortstr_has_room key W Ht Hkl) as (W1 & E1 & Ht1 & Hw1).
  rewrite E1. cbn [mbind res_bind Errors.bind].
  destruct (string_item_has_room s W1 Ht1 Hs) as (W2 & E2 & Ht2 & Hw2).
  rewrite E2. cbn [mbind res_bind Errors.bind].
  exists W2. split; [exact Ht2|]. split; [reflexivity|].
  apply (wrote_trans W W1 W2); [apply Ht | exact Hw1 | exact Hw2].
Qed.

(** X16. [AMQPLAIN.decode] gives back the user and the password that
    [AMQPLAIN.encode] was given when each has fewer than 128 octets, so
    that every octet of the two length prefixes is an ASCII character and
    the response is the same as a string and as a buffer. The response has
    25 octets more than the two strings together, two more than the writer
    is created with: the writer grows on every call. *)
Theorem amqplain_round_trip (user password : string) :
  Buffer.byteLength user < 128 -> Buffer.byteLength password < 128 ->
  exists response,
    AMQPLAIN_encode user password = Ok response /\
    Buffer.byteLength response
    = 25 + Buffer.byteLength user + Buffer.byteLength password /\
    AMQPLAIN_decode response
    = Ok (Some (VString user), Some (VString password)).
Proof.
  intros Hu Hp. unfold AMQPLAIN_encode.
  set (W0 := new (23 + Buffer.byteLength user + Buffer.byteLength password) true).
  set (fields := [("LOGIN"%string, VString user);
                  ("PASSWORD"%string, VString password)]).
  assert (Ht0 : tight W0).
  { unfold tight, W0, new. cbn [dynamic _offset _buffer].
    split; [reflexivity|].
    split; [lia|]. unfold Buffer.length. lia. }
  destruct (string_field_has_room "LOGIN" user
              [("PASSWORD"%string, VString password)] W0 Ht0 eq_refl)
    as (W1 & Ht1 & E1 & Hw1); [vm_compute; reflexivity | lia |].
  destruct (string_field_has_room "PASSWORD" password [] W1 Ht1 eq_refl)
    as (W2 & Ht2 & E2 & Hw2); [vm_compute; reflexivity | lia |].
  assert (E : tableitems fields W0 = Ok W2).
  { unfold fields. rewrite E1, E2. reflexivity. }
  set (a := (Buffer.be_octets 1 (Buffer.byteLength "LOGIN")
               ++ Buffer.octets_of_string "LOGIN")
              ++ [83] ++ Buffer.be_octets 4 (Buffer.byteLength user)
              ++ Buffer.octets_of_string user) in *.
  set (b := (Buffer.be_octets 1 (Buffer.byteLength "PASSWORD")
               ++ Buffer.octets_of_string "PASSWORD")
              ++ [83] ++ Buffer.be_octets 4 (Buffer.byteLength password)
              ++ Buffer.octets_of_string password) in *.
  assert (Hw : wrote W0 W2 (a ++ b))
    by (apply (wrote_trans W0 W1 W2); [apply Ht0 | exact Hw1 | exact Hw2]).
  assert (Hoct : octets (a ++ b)).
  { unfold octets, a, b. rewrite !Forall_app.
    repeat split;
      try apply be_octets_octets; try apply octets_of_string_octets.
    - repeat constructor; lia.
    - repeat constructor; lia. }
  assert (Hlen : Buffer.length (a ++ b)
                 = 25 + Buffer.byteLength user + Buffer.byteLength password).
  { unfold a, b, Buffer.length. rewrite !length_app, !be_octets_length.
    rewrite !octets_of_string_length. unfold Buffer.byteLength.
    cbn [length String.length]. lia. }
  assert (Hs : forallb (fun field => storable (snd field)) fields = true)
    by reflexivity.
  assert (IH : Forall (fun field => carries (snd field)) fields).
  { apply Forall_forall. intros field _. apply carries_all. }
  destruct (tableitems_sound fields IH Hs W0 W2 (tight_room W0 Ht0) E)
    as (c & Hwc & _ & Hrd).
  assert (Ec : c = a ++ b)
    by (apply (wrote_unique W0 W2); [apply Ht0 | exact Hwc | exact Hw]).
  subst c.
  destruct (written_holds W0 W2 _ Ht0 Hw) as [Hh Hoff].
  change (_offset W0) with 0 in Hh, Hoff.
  assert (Hsock : socket_octets W2 = a ++ b).
  { apply holds_all; [exact Hh|].
    unfold socket_octets. destruct Ht2 as (Hd2 & Ho2 & Hl2). rewrite Hd2.
    unfold Buffer.subarray. change (Z.to_nat 0) with 0%nat.
    rewrite drop_0, Nat.sub_0_r, length_take.
    unfold Buffer.length in *. lia. }
  rewrite E. cbn [mbind res_bind Errors.bind].
  exists (Buffer.string_of_octets (a ++ b)).
  assert (Hstr : Buffer.toString (_buffer W2) 0 (_offset W2)
                 = Buffer.string_of_octets (a ++ b)).
  { unfold Buffer.toString. f_equal. rewrite <- Hsock.
    unfold socket_octets. destruct Ht2 as (Hd2 & _). rewrite Hd2. reflexivity. }
  split; [rewrite Hstr; reflexivity|].
  split.
  { unfold Buffer.byteLength at 1. rewrite string_of_octets_length.
    exact Hlen. }
  unfold AMQPLAIN_decode. rewrite (octets_of_string_of_octets _ Hoct).
  unfold BufferReader.tableitems, BufferReader.new.
  cbn [BufferReader._buffer].
  pose proof (Hrd (a ++ b) 0 (BufferReader.enough_fuel (BufferReader.mk (a ++ b) 0))
                [] (holds_self (a ++ b))) as Hread.
  rewrite Z.add_0_l in Hread. rewrite Hread.
  - reflexivity.
  - unfold BufferReader.enough_fuel. cbn [BufferReader._buffer]. lia.
Qed.

End AmqplainExtras.

Lemma amqplain_round_trip_witness :
  exists response,
    @Sasl.AMQPLAIN_encode Frame.zero_memory Carried.zero_floats "guest" "secret"
    = Errors.Ok response /\
    Buffer.byteLength response
    = 25 + Buffer.byteLength "guest" + Buffer.byteLength "secret" /\
    @Sasl.AMQPLAIN_decode Carried.zero_floats response
    = Errors.Ok (Some (Js.VString "guest"), Some (Js.VString "secret")).
Proof.
  apply (@amqplain_round_trip Frame.zero_memory Carried.zero_floats
           "guest" "secret"); vm_compute; reflexivity.
Defined.

(** ** A waiter that expects one of several replies *)

Section ChannelExtras.
Import Channel Errors.









End ChannelExtras.


(** ** Frames that the stream refuses *)

Section StreamErrorExtras.
Variable DECODERS : Z -> option (BufferReader.t -> Errors.res (Js.value * BufferReader.t)).
Import DecodeStream Errors Octets Wire.




End StreamErrorExtras.


(** ** The content header *)

Section ApiExtras.
Context `{Buffer.Memory} `{Buffer.FloatOps}.
Import Errors Js Codec BufferWriter WriterSpec Octets Frame Api Carried.

(** [headerstart] on a fresh growable writer. *)
Lemma headerstart_has_room (size channel class_id body_size : Z) :
  7 <= size -> 0 <= channel < 65536 -> 0 <= class_id < 65536 ->
  0 <= body_size < 18446744073709551616 ->
  exists W1,
    headerstart channel class_id body_size (new size true) = Ok W1 /\
    tight W1 /\ _offset W1 = 19 /\
    holds (_buffer W1) 0 ([frame_header] ++ Buffer.be_octets 2 channel) /\
    holds (_buffer W1) 7 (Buffer.be_octets 2 class_id ++ Buffer.be_octets 2 0
                            ++ Buffer.be_octets 8 body_size).
Proof.
  intros Hs Rc Rk Rb. unfold headerstart.
  assert (Hl0 : length (_buffer (new size true)) = Z.to_nat size)
    by apply allocUnsafe_length.
  destruct (framestart_ok frame_header channel 0 (new size true)) as [W0 E0];
    [unfold frame_header; lia | lia | lia | unfold Buffer.length; lia |].
  rewrite E0. cbn [mbind res_bind Errors.bind].
  apply framestart_inv in E0. destruct E0 as [_ (b0 & -> & P0)].
  cbn [new dynamic _buffer] in *.
  pose proof (puts_holds _ _ _ _ P0) as Hhd.
  pose proof (puts_length _ _ _ _ P0) as L0.
  change (Buffer.be_octets 1 frame_header) with [frame_header] in Hhd.
  assert (Ht0 : tight (mk b0 7 true)).
  { unfold tight. cbn [dynamic _offset _buffer].
    unfold Buffer.length in *. rewrite L0, allocUnsafe_length.
    repeat split; lia. }
  destruct (uint_has_room 2 class_id _ Ht0) as (Wa & Ea & Hta & Hwa);
    [cbn; lia|].
  change (safewrite (Z.of_nat 2) (put_uint 2 class_id)) with (uint16 class_id) in Ea.
  rewrite Ea.
  cbn [mbind res_bind Errors.bind].
  destruct (uint_has_room 2 0 _ Hta) as (Wb & Eb & Htb & Hwb); [cbn; lia|].
  change (safewrite (Z.of_nat 2) (put_uint 2 0)) with (uint16 0) in Eb.
  rewrite Eb.
  cbn [mbind res_bind Errors.bind].
  destruct (uint_has_room 8 body_size _ Htb) as (W1 & E1 & Ht1 & Hw1);
    [cbn; lia|].
  change (safewrite (Z.of_nat 8) (put_uint 8 body_size))
    with (uint64 body_size) in E1.
  rewrite E1.
  exists W1. split; [reflexivity|]. split; [exact Ht1|].
  pose proof (wrote_trans _ _ _ _ _ (proj1 (proj2 Ht0)) Hwa Hwb) as T1.
  pose proof (wrote_trans _ _ _ _ _ (proj1 (proj2 Ht0)) T1 Hw1) as T2.
  rewrite <- app_assoc in T2.
  split.
  { destruct T2 as (_ & Hoff & _). rewrite Hoff. cbn [_offset].
    unfold Buffer.length. rewrite !length_app, !be_octets_length. lia. }
  split.
  - apply holds_app in Hhd. destruct Hhd as [Ha Hb].
    apply holds_app in Hb. destruct Hb as [Hb _].
    apply (wrote_keeps _ _ _ _ _ T2); [apply holds_app; split; assumption|].
    cbn [_offset]. unfold Buffer.length.
    rewrite length_app, be_octets_length. cbn [length]. lia.
  - apply (wrote_holds _ _ _ (proj1 (proj2 Ht0))); [|exact T2].
    cbn [Buffer.be_octets app]. discriminate.
Qed.

(** X19. For a message without properties [publish_header] writes nothing:
    it returns before [writeSocket] is reached, whatever the channel and
    the size of the body, so that no content header follows the
    [basic.publish] of such a message. With a channel that fits in 16 bits
    and a body size that fits in 64 it returns normally. *)
Theorem publish_header_without_properties_writes_nothing
    (channel body_size : Z) :
  0 <= channel < 65536 -> 0 <= body_size < 18446744073709551616 ->
  publish_header channel [] body_size = Ok None /\
  forall channel' body_size' out,
    publish_header channel' [] body_size' <> Ok (Some out).
Proof.
  intros Rc Rb. split.
  - unfold publish_header.
    destruct (headerstart_has_room frame_min_size channel 60 body_size)
      as (W1 & E1 & Ht1 & _); [unfold frame_min_size; lia | lia | lia | lia |].
    rewrite E1. cbn [mbind res_bind Errors.bind].
    destruct (uint_has_room 2 0 W1 Ht1) as (W2 & E2 & _); [cbn; lia|].
    change (safewrite (Z.of_nat 2) (put_uint 2 0)) with (uint16 0) in E2.
    rewrite E2. reflexivity.
  - intros channel' body_size' out. unfold publish_header.
    destruct (headerstart _ _ _ _) as [W1|]; [|discriminate].
    cbn [mbind res_bind Errors.bind].
    destruct (uint16 0 W1) as [W2|]; discriminate.
Qed.

(** *** The code as a sequence over [PROPERTIES] *)



(** *** Objects built by the decoder *)

Lemma object_get_define (fields : list (string * value)) (key key' : string)
    (v : value) :
  object_get (object_define fields key v) key'
  = if String.eqb key key' then Some v else object_get fields key'.
Proof.
  induction fields as [|[k x] fields IH]; cbn [object_define object_get].
  - reflexivity.
  - destruct (String.eqb_spec k key) as [->|Hne]; cbn [object_get].
    + destruct (String.eqb key key'); reflexivity.
    + rewrite IH. destruct (String.eqb_spec k key') as [->|Hne'];
        [|reflexivity].
      destruct (String.eqb_spec key key') as [->|_]; [congruence|reflexivity].
Qed.

Lemma object_get_set (fields : list (string * value)) (key key' : string)
    (v : value) :
  key <> "__proto__"%string ->
  object_get (object_set fields key v) key'
  = if String.eqb key key' then Some v else object_get fields key'.
Proof.
  intros Hk. unfold object_set.
  destruct (String.eqb_spec key "__proto__") as [E|_]; [congruence|].
  apply object_get_define.
Qed.

(** *** A table read wherever a buffer holds its octets *)




(** *** The flag *)





(** *** The properties written and read *)




(** *** The flag stored over its placeholder *)


(** *** The frame of [publish_header] *)




(** *** From [publish_header] to [handle_header] *)

Variable DECODERS : Z -> option (BufferReader.t -> res (value * BufferReader.t)).




End ApiExtras.

Lemma publish_header_without_properties_writes_nothing_witness :
  @Api.publish_header Frame.zero_memory Carried.zero_floats 1 [] 3
  = Errors.Ok None /\
  forall channel' body_size' out,
    @Api.publish_header Frame.zero_memory Carried.zero_floats
      channel' [] body_size' <> Errors.Ok (Some out).
Proof.
  apply (@publish_header_without_properties_writes_nothing
           Frame.zero_memory Carried.zero_floats 1 3); lia.
Defined.


(* --------------------------------------------------------------------- *)
(** ** [CloneObject] and [MergeObjects] *)

Section UtilsExtras.
Import Errors Js Utils.

Lemma object_get_none (fields : list (string * value)) (key : string) :
  object_get fields key = None <-> ~ In key (map fst fields).
Proof.
  induction fields as [|[k x] fields IH]; cbn [object_get map fst In].
  - tauto.
  - destruct (String.eqb_spec k key) as [->|Hne].
    + split; [discriminate|tauto].
    + rewrite IH. tauto.
Qed.

Lemma object_get_last (fields : list (string * value)) (k key : string)
    (v : value) :
  object_get fields key = None -> k <> key ->
  object_get (fields ++ [(k, v)]) key = None.
Proof.
  intros Hn Hne. apply object_get_none. rewrite map_app, in_app_iff.
  cbn [map fst In]. apply object_get_none in Hn. tauto.
Qed.

Lemma clone_object (fields : list (string * value)) :
  clone (VObject fields) = VObject (CloneObject fields).
Proof.
  cbn [clone]. f_equal. unfold CloneObject. generalize (@nil (string * value)).
  induction fields as [|[k x] fields IH]; intros acc; cbn [fold_left fst snd].
  - reflexivity.
  - apply IH.
Qed.

(** The properties of the source are assigned in order. *)
Lemma CloneObject_fold (fields acc : list (string * value)) :
  List.NoDup (map fst fields) ->
  (forall k, In k (map fst fields) ->
             object_get acc k = None /\ k <> "__proto__"%string) ->
  fold_left (fun result field =>
               object_set result (fst field) (clone (snd field))) fields acc
  = acc ++ map (fun field => (fst field, clone (snd field))) fields.
Proof.
  revert acc. induction fields as [|[k x] fields IH]; intros acc Hd Hf;
    cbn [fold_left map fst snd].
  - symmetry. apply app_nil_r.
  - apply List.NoDup_cons_iff in Hd as [Hk Hd].
    destruct (Hf k) as [Hn Hp]; [cbn [map fst In]; tauto|].
    unfold object_set at 2.
    destruct (String.eqb_spec k "__proto__") as [E|_]; [contradiction|].
    apply object_get_none in Hn as Hfresh.
    rewrite (object_define_fresh _ _ _ Hfresh), IH.
    + rewrite <- app_assoc. reflexivity.
    + exact Hd.
    + intros k' Hin. destruct (Hf k') as [Hn' Hp']; [cbn [map fst In]; tauto|].
      split; [|exact Hp']. apply object_get_last; [exact Hn'|].
      intros ->. contradiction.
Qed.

Lemma proper_array (items : list value) :
  proper (VArray items) <-> Forall proper items.
Proof.
  cbn [proper]. induction items as [|x items IH].
  - split; [constructor|trivial].
  - rewrite IH. split.
    + intros [Hx Hs]. constructor; assumption.
    + intros Hs. apply List.Forall_cons_iff in Hs. exact Hs.
Qed.

Lemma proper_object (fields : list (string * value)) :
  proper (VObject fields)
  <-> plain fields /\ object_get fields "__proto__" = None /\
      Forall (fun field => proper (snd field)) fields.
Proof.
  cbn [proper].
  assert (E : (fix all (fields : list (string * value)) : Prop :=
                 match fields with
                 | [] => True
                 | field :: rest => proper (snd field) /\ all rest
                 end) fields
              <-> Forall (fun field => proper (snd field)) fields).
  { induction fields as [|f fields IH].
    - split; [constructor|trivial].
    - rewrite IH. split.
      + intros [Hx Hs]. constructor; assumption.
      + intros Hs. apply List.Forall_cons_iff in Hs. exact Hs. }
  rewrite E. tauto.
Qed.

(** A proper value is cloned as it is. *)
Lemma clone_proper (v : value) : proper v -> clone v = v.
Proof.
  induction v as [ | | b | n | n | s | octets | ms | bits | items IH | fields IH]
    using value_nested_ind; intros Hp; try reflexivity.
  - apply proper_array in Hp. cbn [clone]. f_equal.
    induction items as [|x items IHi]; [reflexivity|].
    apply List.Forall_cons_iff in IH as [IHx IH].
    apply List.Forall_cons_iff in Hp as [Hx Hp].
    cbn [map]. rewrite (IHx Hx), (IHi IH Hp). reflexivity.
  - apply proper_object in Hp as (Hd & Hn & Hp).
    rewrite clone_object. f_equal. unfold CloneObject.
    rewrite CloneObject_fold.
    + cbn [app]. clear Hd Hn.
      induction fields as [|[k x] fields IHf]; [reflexivity|].
      apply List.Forall_cons_iff in IH as [IHx IH].
      apply List.Forall_cons_iff in Hp as [Hx Hp].
      cbn [map fst snd] in *. rewrite (IHx Hx), (IHf IH Hp). reflexivity.
    + exact Hd.
    + intros k Hin. split; [reflexivity|].
      intros ->. apply object_get_none in Hn. contradiction.
Qed.

(** X22. [CloneObject] and [CloneArray] return a value equal to their
    argument, property for property and element for element, at every
    depth, when the argument is made of primitives, dates, buffers, arrays
    and plain objects none of which has an own property [__proto__]. *)
Theorem clone_equals_its_source (source : list (string * value))
    (arr : list value) :
  proper (VObject source) -> proper (VArray arr) ->
  CloneObject source = source /\ CloneArray arr = arr.
Proof.
  intros Hs Ha. split.
  - apply clone_proper in Hs. rewrite clone_object in Hs. congruence.
  - apply clone_proper in Ha. cbn [clone] in Ha. unfold CloneArray. congruence.
Qed.

(** The own properties of a clone. *)
Lemma CloneObject_get (source : list (string * value)) (key : string) :
  plain source -> object_get source "__proto__" = None ->
  object_get (CloneObject source) key = option_map clone (object_get source key).
Proof.
  intros Hd Hn. unfold CloneObject. rewrite CloneObject_fold.
  - cbn [app]. clear Hd Hn.
    induction source as [|[k x] source IH]; cbn [map object_get fst snd].
    + reflexivity.
    + destruct (String.eqb k key); [reflexivity|exact IH].
  - exact Hd.
  - intros k Hin. split; [reflexivity|].
    intros ->. apply object_get_none in Hn. contradiction.
Qed.

Lemma key_in_false (key : string) (result : list (string * value)) :
  key_in key result = false
  <-> object_get result key = None /\
      existsb (String.eqb key) OBJECT_PROTOTYPE = false.
Proof.
  unfold key_in, object_has. rewrite orb_false_iff.
  destruct (object_get result key); split; intros [? ?]; split;
    congruence.
Qed.

(** One round of the outer loop adds the properties the result has not. *)
Lemma merge_into_get (object result : list (string * value)) (key : string) :
  object_get (merge_into result object) key
  = match object_get result key with
    | Some v => Some v
    | None =>
        if existsb (String.eqb key) OBJECT_PROTOTYPE then None
        else option_map clone (object_get object key)
    end.
Proof.
  unfold merge_into. revert result.
  induction object as [|[k x] object IH]; intros result;
    cbn [fold_left fst snd object_get].
  - destruct (object_get result key); [reflexivity|].
    destruct (existsb _ _); reflexivity.
  - rewrite IH. destruct (key_in k result) eqn:Ek.
    + destruct (object_get result key) eqn:Eg; [reflexivity|].
      destruct (existsb (String.eqb key) OBJECT_PROTOTYPE) eqn:Ep;
        [reflexivity|].
      destruct (String.eqb_spec k key) as [->|_]; [|reflexivity].
      assert (key_in key result = false) by (apply key_in_false; tauto).
      congruence.
    + apply key_in_false in Ek as [Eg Ep].
      assert (Hk : k <> "__proto__"%string).
      { intros ->. vm_compute in Ep. discriminate. }
      rewrite (object_get_set _ _ _ _ Hk).
      destruct (String.eqb_spec k key) as [->|_].
      * rewrite Eg, Ep. reflexivity.
      * reflexivity.
Qed.

Lemma merge_all_get (objects : list (list (string * value)))
    (result : list (string * value)) (key : string) :
  object_get (fold_left merge_into objects result) key
  = match object_get result key with
    | Some v => Some v
    | None =>
        if existsb (String.eqb key) OBJECT_PROTOTYPE then None
        else option_map clone
               (first_some (map (fun object => object_get object key) objects))
    end.
Proof.
  revert result. induction objects as [|object objects IH]; intros result;
    cbn [fold_left map first_some].
  - destruct (object_get result key); [reflexivity|].
    destruct (existsb _ _); reflexivity.
  - rewrite IH, merge_into_get.
    destruct (object_get result key); [reflexivity|].
    destruct (existsb _ _); [reflexivity|].
    destruct (object_get object key); reflexivity.
Qed.

(** X21. [MergeObjects] of at least two plain objects returns an object in
    which a name has the clone of the value it has in the last object that
    has it as an own property; a name of a member of [Object.prototype] is
    taken from the last object only, since [key in result] holds for it
    whatever the result has. The objects have no own property
    [__proto__]. *)
Theorem merge_takes_the_last_object_that_has_the_key
    (objects : list (list (string * value))) (key : string) :
  (2 <= List.length objects)%nat ->
  plain (List.last objects []) ->
  Forall (fun object => object_get object "__proto__" = None) objects ->
  exists result,
    MergeObjects objects = Ok result /\
    object_get result key
    = if existsb (String.eqb key) OBJECT_PROTOTYPE then
        option_map clone (object_get (List.last objects []) key)
      else
        option_map clone
          (first_some (map (fun object => object_get object key) (rev objects))).
Proof.
  intros Hl Hd Hn. unfold MergeObjects.
  destruct (Z.ltb_spec (Z.of_nat (List.length objects)) 2) as [Hlt|_]; [lia|].
  eexists. split; [reflexivity|].
  assert (Hne : objects <> []) by (intros ->; cbn in Hl; lia).
  assert (Hlast : object_get (List.last objects []) "__proto__" = None).
  { rewrite List.Forall_forall in Hn. apply Hn.
    rewrite (app_removelast_last [] Hne) at 2. apply in_app_iff. right.
    left. reflexivity. }
  rewrite merge_all_get, (CloneObject_get _ _ Hd Hlast).
  assert (Er : rev objects = List.last objects [] :: rev (removelast objects)).
  { rewrite (app_removelast_last [] Hne) at 1. rewrite rev_app_distr.
    reflexivity. }
  rewrite Er. cbn [map first_some].
  destruct (object_get (List.last objects []) key); cbn [option_map].
  - destruct (existsb _ _); reflexivity.
  - destruct (existsb _ _); reflexivity.
Qed.

End UtilsExtras.

Lemma merge_takes_the_last_object_that_has_the_key_witness :
  exists result,
    Utils.MergeObjects
      [[("durable"%string, Js.VBoolean true); ("valueOf"%string, Js.VNumber 1);
        ("arguments"%string, Js.VObject [("x-max-length"%string, Js.VNumber 10)])];
       [("durable"%string, Js.VBoolean false)]]
    = Errors.Ok result /\
    Js.object_get result "durable" = Some (Js.VBoolean false).
Proof.
  apply (merge_takes_the_last_object_that_has_the_key
           [[("durable"%string, Js.VBoolean true); ("valueOf"%string, Js.VNumber 1);
             ("arguments"%string, Js.VObject [("x-max-length"%string, Js.VNumber 10)])];
            [("durable"%string, Js.VBoolean false)]] "durable").
  - cbn [List.length]. lia.
  - unfold Utils.plain. cbn [List.last map fst].
    constructor; [intros []|constructor].
  - repeat (apply List.Forall_cons; [reflexivity|]). apply List.Forall_nil.
Defined.

Lemma clone_equals_its_source_witness :
  Utils.CloneObject
    [("durable"%string, Js.VBoolean true);
     ("arguments"%string, Js.VObject [("x-max-length"%string, Js.VNumber 10)])]
  = [("durable"%string, Js.VBoolean true);
     ("arguments"%string, Js.VObject [("x-max-length"%string, Js.VNumber 10)])] /\
  Utils.CloneArray [Js.VArray [Js.VNumber 1]; Js.VDate 0]
  = [Js.VArray [Js.VNumber 1]; Js.VDate 0].
Proof.
  apply (clone_equals_its_source
           [("durable"%string, Js.VBoolean true);
            ("arguments"%string, Js.VObject [("x-max-length"%string, Js.VNumber 10)])]
           [Js.VArray [Js.VNumber 1]; Js.VDate 0]).
  - cbn [Utils.proper snd Js.object_get String.eqb Ascii.eqb Bool.eqb].
    unfold Utils.plain. cbn [map fst].
    repeat split; try reflexivity.
    + repeat (constructor; [cbn [In]; intuition discriminate|]). constructor.
    + repeat (constructor; [cbn [In]; intuition discriminate|]). constructor.
  - cbn [Utils.proper]. tauto.
Defined.
